(** * orbtree: generalized order statistic red-black tree

    A shallow embedding of the compact node allocator
    ([NodeAllocatorCompact], orbtree_node.h), of the tree algorithms of
    [orbtree_base] and of the public queries of [orbtree] (orbtree.h), and of
    the growth policy of [realloc_vector::vector] (vector_realloc.h).

    Conventions of the embedding:
    - node handles, indices and sizes are unsigned machine integers and are
      modelled in [N]; weights (the type [NVType]) are modelled in [Z] together
      with the bounds of their integral type;
    - a C++ exception is a value [Err e]; reading or writing a vector outside of
      its size and reading an uninitialised local are undefined behaviour in
      C++ and are reported as [Err OutOfBounds] and [Err Uninitialised];
    - loops are iterated with a fuel that is computed from the size of the node
      vector; [Err OutOfFuel] is the only artefact of the embedding. *)

From Stdlib Require Import ZArith NArith Lia List Sorted.
From stdpp Require Import base numbers option list sets sorting.

(** ** Errors and the result monad *)

Inductive error : Type :=
| Arithmetic     (* NVAdd / NVSubtract: overflow or underflow *)
| Capacity       (* new_node: reached maximum number of nodes *)
| Inconsistent   (* every other std::runtime_error thrown by a sanity check *)
| OutOfBounds    (* undefined behaviour: vector index >= size() *)
| Uninitialised  (* undefined behaviour: read of an uninitialised local *)
| OutOfFuel.     (* artefact of the embedding *)

Inductive result (A : Type) : Type :=
| Ok (a : A)
| Err (e : error).
Arguments Ok {A} a.
Arguments Err {A} e.

#[global] Instance result_ret : MRet result := fun A a => Ok a.
#[global] Instance result_bind : MBind result :=
  fun A B f m => match m with Ok a => f a | Err e => Err e end.

Definition is_ok {A} (r : result A) : bool :=
  match r with Ok _ => true | Err _ => false end.

Definition of_option {A} (e : error) (o : option A) : result A :=
  match o with Some a => Ok a | None => Err e end.

(** ** Integral weight types

    [NVType] is any integral type; its [std::numeric_limits] and the
    wrap-around of its arithmetic are determined by signedness and width. *)

Record int_kind : Type := IntKind { ik_signed : bool; ik_bits : N }.

Definition ik_modulus (k : int_kind) : Z := 2 ^ Z.of_N (ik_bits k).
Definition ik_half (k : int_kind) : Z := 2 ^ (Z.of_N (ik_bits k) - 1).

Definition ik_min (k : int_kind) : Z :=
  if ik_signed k then - ik_half k else 0.
Definition ik_max (k : int_kind) : Z :=
  if ik_signed k then ik_half k - 1 else ik_modulus k - 1.

(** Value of an arithmetic result once stored in the type. *)
Definition ik_wrap (k : int_kind) (z : Z) : Z :=
  if ik_signed k then (z + ik_half k) mod ik_modulus k - ik_half k
  else z mod ik_modulus k.

Definition in_range (k : int_kind) (z : Z) : Prop := (ik_min k <= z <= ik_max k)%Z.

Definition uint32 : int_kind := IntKind false 32.
Definition int32 : int_kind := IntKind true 32.

(** [orbtree_base::NVAdd], one component: [x[i] += y[i]] behind its checks. *)
Definition NVAdd1 (k : int_kind) (x y : Z) : result Z :=
  if (0 <? y)%Z then
    if (ik_wrap k (ik_max k - y) <? x)%Z then Err Arithmetic
    else Ok (ik_wrap k (x + y))
  else
    if (x <? ik_wrap k (ik_min k - y))%Z then Err Arithmetic
    else Ok (ik_wrap k (x + y)).

(** [orbtree_base::NVSubtract], one component. *)
Definition NVSubtract1 (k : int_kind) (x y : Z) : result Z :=
  if (0 <? y)%Z then
    if (x <? ik_wrap k (ik_min k + y))%Z then Err Arithmetic
    else Ok (ik_wrap k (x - y))
  else
    if (ik_wrap k (ik_max k + y) <? x)%Z then Err Arithmetic
    else Ok (ik_wrap k (x - y)).

(** The loop [for(i = 0; i < nr; i++)] over two arrays of [nr] components. *)
Fixpoint nv_zip (op : Z -> Z -> result Z) (x y : list Z) : result (list Z) :=
  match x, y with
  | [], [] => Ok []
  | a :: x', b :: y' =>
      r ← op a b; rs ← nv_zip op x' y'; Ok (r :: rs)
  | _, _ => Err OutOfBounds
  end.

Definition NVAdd (k : int_kind) (x y : list Z) : result (list Z) :=
  nv_zip (NVAdd1 k) x y.
Definition NVSubtract (k : int_kind) (x y : list Z) : result (list Z) :=
  nv_zip (NVSubtract1 k) x y.

(** Componentwise sum and difference in [Z], the reference for both. *)
Definition vplus (x y : list Z) : list Z := zip_with Z.add x y.
Definition vminus (x y : list Z) : list Z := zip_with Z.sub x y.
Definition vzero (n : nat) : list Z := replicate n 0%Z.

(** ** realloc_vector::vector: growth policy (vector_realloc.h) *)

Module ReallocVec.

(** [size_t] arithmetic. *)
Definition size_max : N := 2 ^ 64 - 1.
Definition add64 (a b : N) : N := ((a + b) mod 2 ^ 64)%N.
Definition sub64 (a b : N) : N := ((a + 2 ^ 64 - b mod 2 ^ 64) mod 2 ^ 64)%N.

Section Vector.
Context {T : Type}.
(** [sizeof(T)] *)
Variable sizeof_T : N.

(** The buffer [start] is viewed through the slots that hold a constructed
        element; [p_size] counts them. *)
Record vector : Type := Vector {
      start : N -> option T;
      p_size : N;
      p_capacity : N;
      max_grow : N
    }.

Definition p_max_capacity : N := (size_max / sizeof_T)%N.

(** [vector()] *)
Definition empty : vector :=
      {| start := fun _ => None; p_size := 0; p_capacity := 0; max_grow := 131072 |}.

(** [change_size]; [realloc_ok] tells whether [realloc] returned a
        non-null pointer. *)
Definition change_size (realloc_ok : bool) (new_size : N) (v : vector)
      : bool * vector :=
      if realloc_ok then
        (true, {| start := start v; p_size := p_size v;
                  p_capacity := new_size; max_grow := max_grow v |})
      else (false, v).

(** [grow_vector] *)
Definition grow_vector (realloc_ok : bool) (minimum_size : N) (v : vector)
      : bool * vector :=
      if (p_max_capacity <? minimum_size)%N then (false, v) else
      let grow_capacity := p_capacity v in
      let grow_capacity := if (grow_capacity =? 0)%N then 1%N else grow_capacity in
      let grow_capacity :=
        if (max_grow v <? grow_capacity)%N then max_grow v else grow_capacity in
      let grow_capacity :=
        if (p_max_capacity <? grow_capacity)%N then p_max_capacity else grow_capacity in
      let grow_capacity :=
        if (sub64 p_max_capacity grow_capacity <? p_capacity v)%N
        then sub64 p_max_capacity (p_capacity v) else grow_capacity in
      if (grow_capacity =? 0)%N then (false, v) else
      let new_size := add64 (p_capacity v) grow_capacity in
      let new_size := if (new_size <? minimum_size)%N then minimum_size else new_size in
      change_size realloc_ok new_size v.

(** [push_back_nothrow] *)
Definition push_back_nothrow (realloc_ok : bool) (x : T) (v : vector)
      : bool * vector :=
      let '(ok, v1) :=
        if (p_size v =? p_capacity v)%N then grow_vector realloc_ok 0 v
        else (true, v) in
      if ok then
        (true, {| start := fun i => if (i =? p_size v1)%N then Some x else start v1 i;
                  p_size := add64 (p_size v1) 1;
                  p_capacity := p_capacity v1; max_grow := max_grow v1 |})
      else (false, v1).

(** [push_back]: [std::bad_alloc] when the nothrow form fails. *)
Definition push_back (realloc_ok : bool) (x : T) (v : vector) : option vector :=
      let '(ok, v1) := push_back_nothrow realloc_ok x v in
      if ok then Some v1 else None.

End Vector.
Arguments vector T : clear implicits.

End ReallocVec.

(** ** Template parameters of a compact tree

    [orbtree< NodeAllocatorCompact<KeyValueT, NVTypeT, IndexType>, Compare,
    NVFunc, multi >].  A set flavour stores [Value = unit]. *)

Class OrbParams : Type := {
  Key : Type;
  Value : Type;
  Key_default : Key;                 (* Key()   *)
  Value_default : Value;             (* Value() *)
  compare : Key -> Key -> bool;      (* Compare c; c(a,b) is "a before b" *)
  NVType : int_kind;                 (* integral weight type *)
  nv_per_node : nat;                 (* f.get_nr() *)
  NVFunc : Key * Value -> list Z;    (* the weight function f *)
  multi : bool;
  digits : N                         (* std::numeric_limits<IndexType>::digits *)
}.

(** Monads of the embedding: [R] for [const] member functions, [M] for the
    mutating ones. *)
Definition R (S A : Type) : Type := S -> result A.
Definition M (S A : Type) : Type := S -> result (A * S).

#[global] Instance R_ret {S} : MRet (R S) := fun A a _ => Ok a.
#[global] Instance R_bind {S} : MBind (R S) :=
  fun A B f m s => match m s with Ok a => f a s | Err e => Err e end.
#[global] Instance M_ret {S} : MRet (M S) := fun A a s => Ok (a, s).
#[global] Instance M_bind {S} : MBind (M S) :=
  fun A B f m s => match m s with Ok (a, s') => f a s' | Err e => Err e end.

Definition throwR {S A} (e : error) : R S A := fun _ => Err e.
Definition throw {S A} (e : error) : M S A := fun _ => Err e.
Definition liftR {S A} (r : R S A) : M S A :=
  fun s => match r s with Ok a => Ok (a, s) | Err e => Err e end.
Definition lift_result {S A} (r : result A) : M S A :=
  fun s => match r with Ok a => Ok (a, s) | Err e => Err e end.
Definition lift_resultR {S A} (r : result A) : R S A := fun _ => r.
Definition whenM {S} (b : bool) (m : M S unit) : M S unit :=
  if b then m else mret tt.

Section Orbtree.
Context `{P : OrbParams}.
Local Open Scope N_scope.

(** *** NodeAllocatorCompact::Node *)

Definition redbit : N := N.shiftl 1 (digits - 1).
Definition max_nodes : N := redbit - 1.
Definition deleted_indicator : N := N.lor max_nodes redbit.
Definition Invalid : N := max_nodes.
(** [~redbit] in [IndexType] *)
Definition not_redbit : N := N.lnot redbit digits.

Definition KeyValue : Type := (Key * Value)%type.

Record Node : Type := mkNode {
    kv : KeyValue;
    parent : N;     (* parent index, red-black flag in the high bit *)
    left : N;
    right : N
  }.

(** [Node()] and [Node(kv)] *)
Definition Node_new (e : KeyValue) : Node :=
    {| kv := e; parent := Invalid; left := Invalid; right := Invalid |}.
Definition Node_default : Node := Node_new (Key_default, Value_default).

Definition key (n : Node) : Key := fst (kv n).

Definition is_red (n : Node) : bool := negb (N.land (parent n) redbit =? 0).
Definition is_black (n : Node) : bool := negb (is_red n).
Definition set_red (n : Node) : Node :=
    {| kv := kv n; parent := N.lor (parent n) redbit; left := left n; right := right n |}.
Definition set_black (n : Node) : Node :=
    {| kv := kv n; parent := N.land (parent n) not_redbit; left := left n; right := right n |}.
Definition get_parent (n : Node) : N := N.land (parent n) not_redbit.
Definition get_left (n : Node) : N := left n.
Definition get_right (n : Node) : N := right n.
Definition set_parent (p : N) (n : Node) : result Node :=
    if max_nodes <? p then Err Inconsistent
    else Ok {| kv := kv n; parent := N.lor p (N.land (parent n) redbit);
               left := left n; right := right n |}.
Definition set_left (x : N) (n : Node) : Node :=
    {| kv := kv n; parent := parent n; left := x; right := right n |}.
Definition set_right (x : N) (n : Node) : Node :=
    {| kv := kv n; parent := parent n; left := left n; right := x |}.
Definition set_deleted (n : Node) : Node :=
    {| kv := kv n; parent := deleted_indicator; left := left n; right := right n |}.
Definition is_deleted (n : Node) : bool := parent n =? deleted_indicator.
Definition set_value (v : Value) (n : Node) : Node :=
    {| kv := (fst (kv n), v); parent := parent n; left := left n; right := right n |}.

(** *** State of a tree: the allocator's members and [size1] *)

Record orbtree : Type := mkTree {
    nvarray : list Z;            (* partial sums, nv_per_node per node *)
    nodes : list Node;
    n_del : N;
    deleted_nodes_head : N;
    root : N;
    nil : N;
    size1 : N
  }.

Definition with_nvarray (v : list Z) (t : orbtree) : orbtree :=
    mkTree v (nodes t) (n_del t) (deleted_nodes_head t) (root t) (nil t) (size1 t).
Definition with_nodes (v : list Node) (t : orbtree) : orbtree :=
    mkTree (nvarray t) v (n_del t) (deleted_nodes_head t) (root t) (nil t) (size1 t).
Definition with_n_del (v : N) (t : orbtree) : orbtree :=
    mkTree (nvarray t) (nodes t) v (deleted_nodes_head t) (root t) (nil t) (size1 t).
Definition with_head (v : N) (t : orbtree) : orbtree :=
    mkTree (nvarray t) (nodes t) (n_del t) v (root t) (nil t) (size1 t).
Definition with_root (v : N) (t : orbtree) : orbtree :=
    mkTree (nvarray t) (nodes t) (n_del t) (deleted_nodes_head t) v (nil t) (size1 t).
Definition with_nil (v : N) (t : orbtree) : orbtree :=
    mkTree (nvarray t) (nodes t) (n_del t) (deleted_nodes_head t) (root t) v (size1 t).
Definition with_size1 (v : N) (t : orbtree) : orbtree :=
    mkTree (nvarray t) (nodes t) (n_del t) (deleted_nodes_head t) (root t) (nil t) v.

Abbreviation RT := (R orbtree).
Abbreviation MT := (M orbtree).

(** [size_t] and [IndexType] arithmetic *)
Definition size_t (n : N) : N := n mod 2 ^ 64.
Definition index_t (n : N) : N := n mod 2 ^ digits.

(** [nodes[x]], read and write; undefined behaviour beyond [nodes.size()]. *)
Definition in_bounds {A} (l : list A) (i : N) : bool := i <? N.of_nat (length l).
Definition at_index {A} (l : list A) (i : N) : option A :=
  if in_bounds l i then l !! N.to_nat i else None.
Definition get_node (x : N) : RT Node :=
  fun t => of_option OutOfBounds (at_index (nodes t) x).
Definition put_node (x : N) (n : Node) : MT unit :=
  fun t => if in_bounds (nodes t) x
           then Ok (tt, with_nodes (<[N.to_nat x := n]> (nodes t)) t)
           else Err OutOfBounds.
Definition modify_node (x : N) (g : Node -> Node) : MT unit :=
    n ← liftR (get_node x); put_node x (g n).
Definition modify_node_r (x : N) (g : Node -> result Node) : MT unit :=
    n ← liftR (get_node x); n' ← lift_result (g n); put_node x n'.

Definition node_root : RT N := fun t => Ok (root t).
Definition node_nil : RT N := fun t => Ok (nil t).

(** Accessors written [get_node(x).get_left()] and so on in the source. *)
Definition left_of (x : N) : RT N := n ← get_node x; mret (get_left n).
Definition right_of (x : N) : RT N := n ← get_node x; mret (get_right n).
Definition parent_of (x : N) : RT N := n ← get_node x; mret (get_parent n).
Definition red_of (x : N) : RT bool := n ← get_node x; mret (is_red n).
Definition black_of (x : N) : RT bool := n ← get_node x; mret (is_black n).

(** *** Partial sums: [get_node_sum], [set_node_sum], [move_nv] *)

Fixpoint read_range (l : list Z) (base : N) (count : nat) : option (list Z) :=
  match count with
  | O => Some []
  | S c => x ← at_index l base; xs ← read_range l (base + 1) c; Some (x :: xs)
  end.

Fixpoint write_range (l : list Z) (base : N) (s : list Z) (count : nat)
  : option (list Z) :=
  match count with
  | O => Some l
  | S c =>
      match s with
      | [] => None
      | v :: s' =>
          if in_bounds l base
          then write_range (<[N.to_nat base := v]> l) (base + 1) s' c
          else None
      end
  end.

(** [((size_t)n)*nv_per_node] *)
Definition sum_base (n : N) : N := size_t (size_t n * N.of_nat nv_per_node).

Definition get_node_sum (n : N) : RT (list Z) :=
  fun t => of_option OutOfBounds (read_range (nvarray t) (sum_base n) nv_per_node).
Definition set_node_sum (n : N) (s : list Z) : MT unit :=
  fun t => match write_range (nvarray t) (sum_base n) s nv_per_node with
           | Some v => Ok (tt, with_nvarray v t)
           | None => Err OutOfBounds
           end.
Definition move_nv (x y : N) : MT unit :=
    s ← liftR (get_node_sum y); set_node_sum x s.


Definition get_state : MT orbtree := fun t => Ok (t, t).
Definition modify (g : orbtree -> orbtree) : MT unit := fun t => Ok (tt, g t).

(** *** NodeAllocatorCompact: allocation *)

(** [try_get_node]: [Some n] stands for [true] with the out-parameter set. *)
Definition try_get_node : MT (option N) :=
  t ← get_state;
  if negb (deleted_nodes_head t =? Invalid) then
    if n_del t =? 0 then throw Inconsistent else
    modify (with_n_del (size_t (n_del t - 1)));;
    let n := deleted_nodes_head t in
    modify_node_r n (set_parent Invalid);;
    l ← liftR (left_of n);
    modify (with_head l);;
    whenM (negb (l =? Invalid)) (modify_node l (set_right Invalid));;
    mret (Some n)
  else mret None.

(** [nvarray.resize(count, NVType())] and [nodes.resize(count)] *)
Definition resize_nvarray (count : N) : MT unit :=
  modify (fun t => with_nvarray (resize (N.to_nat count) 0%Z (nvarray t)) t).
Definition resize_nodes (count : N) : MT unit :=
  modify (fun t => with_nodes (resize (N.to_nat count) Node_default (nodes t)) t).

(** [new_node(kv)]; [new_node()] is [new_node] at the default entry. *)
Definition new_node (e : KeyValue) : MT N :=
  t ← get_state;
  let n := index_t (N.of_nat (length (nodes t))) in
  r ← try_get_node;
  match r with
  | Some n' => put_node n' (Node_new e);; mret n'
  | None =>
      if n =? max_nodes then throw Capacity else
      modify (fun t => with_nodes (nodes t ++ [Node_new e]) t);;
      resize_nvarray (size_t (size_t (index_t (n + 1)) * N.of_nat nv_per_node));;
      mret n
  end.

(** [free_node] *)
Definition free_node (n : N) : MT unit :=
  modify_node n set_deleted;;
  modify_node n (set_right Invalid);;
  t ← get_state;
  modify_node n (set_left (deleted_nodes_head t));;
  whenM (negb (deleted_nodes_head t =? Invalid))
        (modify_node (deleted_nodes_head t) (set_right n));;
  modify (with_head n);;
  modify (fun t => with_n_del (size_t (n_del t + 1)) t).

(** [clear_tree]; [shrink_memory] only changes capacities. *)
Definition clear_tree : MT unit :=
  resize_nodes 2;;
  resize_nvarray 2;;
  modify (with_root 0);;
  modify (with_nil 1);;
  modify (with_head Invalid);;
  modify (with_n_del 0);;
  put_node 0 Node_default;;
  put_node 1 Node_default.

(** The constructor [NodeAllocatorCompact(nv_per_node_)] *)
Definition allocator_members : orbtree :=
  {| nvarray := []; nodes := []; n_del := 0; deleted_nodes_head := Invalid;
     root := Invalid; nil := Invalid; size1 := 0 |}.
Definition NodeAllocatorCompact : MT unit :=
  r ← new_node (Key_default, Value_default);
  modify (with_root r);;
  n ← new_node (Key_default, Value_default);
  modify (with_nil n).

(** [move_node(x, y)] *)
Definition move_node (x y : N) : MT unit :=
  ny ← liftR (get_node y);
  put_node x ny;;
  move_nv x y;;
  t ← get_state;
  (if (y =? root t) || (y =? nil t) then throw Inconsistent else mret tt);;
  px ← liftR (parent_of x);
  (if negb (px =? Invalid) && negb (px =? nil t) then
     lpx ← liftR (left_of px);
     if lpx =? y then modify_node px (set_left x)
     else
       rpx ← liftR (right_of px);
       if rpx =? y then modify_node px (set_right x) else throw Inconsistent
   else throw Inconsistent);;
  lx ← liftR (left_of x);
  whenM (negb (lx =? Invalid) && negb (lx =? nil t))
        (plx ← liftR (parent_of lx);
         if negb (plx =? y) then throw Inconsistent
         else modify_node_r lx (set_parent x));;
  rx ← liftR (right_of x);
  whenM (negb (rx =? Invalid) && negb (rx =? nil t))
        (prx ← liftR (parent_of rx);
         if negb (prx =? y) then throw Inconsistent
         else modify_node_r rx (set_parent x)).

(** [nodes.pop_back()] *)
Definition pop_back_nodes : MT unit :=
  modify (fun t => with_nodes (take (length (nodes t) - 1) (nodes t)) t).

(** One round of the [while] loop of [shrink_to_fit], entered with
    [deleted_nodes_head != Invalid]. *)
Definition shrink_step : MT unit :=
  t ← get_state;
  let size := index_t (N.of_nat (length (nodes t))) in
  if size =? 0 then throw Inconsistent else
  let size := index_t (size - 1) in
  nd ← liftR (get_node size);
  (if is_deleted nd then
     let l := get_left nd in
     let r := get_right nd in
     whenM (negb (l =? Invalid)) (modify_node l (set_right r));;
     whenM (negb (r =? Invalid)) (modify_node r (set_left l));;
     whenM (deleted_nodes_head t =? size)
           (modify (with_head l);;
            if (l =? Invalid) && (1 <? n_del t) then throw Inconsistent else mret tt)
   else
     let n := deleted_nodes_head t in
     if n =? size then throw Inconsistent else
     l ← liftR (left_of n);
     modify (with_head l);;
     modify_node l (set_right Invalid);;
     move_node n size);;
  pop_back_nodes;;
  resize_nvarray (size_t (size_t size * N.of_nat nv_per_node));;
  t' ← get_state;
  if n_del t' =? 0 then throw Inconsistent
  else modify (with_n_del (size_t (n_del t' - 1))).

Fixpoint shrink_loop (fuel : nat) : MT unit :=
  match fuel with
  | O => throw OutOfFuel
  | S fuel =>
      t ← get_state;
      if deleted_nodes_head t =? Invalid then mret tt
      else shrink_step;; shrink_loop fuel
  end.

(** [shrink_to_fit]; the final [shrink_memory()] only changes capacities. *)
Definition shrink_to_fit : MT unit :=
  t ← get_state; shrink_loop (S (length (nodes t))).


(** *** orbtree_base: sentinels and construction *)

(** [create_sentinels] *)
Definition create_sentinels : MT unit :=
  t ← get_state;
  modify_node_r (root t) (set_parent (nil t));;
  modify_node (root t) (set_left (nil t));;
  modify_node (root t) (set_right (nil t));;
  modify_node (root t) set_black;;
  modify_node_r (nil t) (set_parent (nil t));;
  modify_node (nil t) (set_left (nil t));;
  modify_node (nil t) (set_right (nil t));;
  modify_node (nil t) set_black;;
  modify (with_size1 0).

(** The constructor of [orbtree_base], on the allocator's initial members. *)
Definition orbtree_new : result orbtree :=
  match (NodeAllocatorCompact;; create_sentinels) allocator_members with
  | Ok (_, t) => Ok t
  | Err e => Err e
  end.

(** [clear] *)
Definition clear : MT unit := clear_tree;; create_sentinels.

Definition get_node_key (n : N) : RT Key := nd ← get_node n; mret (key nd).
(** [get_node_grvalue]: the weight of the entry stored in [n] *)
Definition get_node_grvalue (n : N) : RT (list Z) :=
  nd ← get_node n; mret (NVFunc (kv nd)).

(** Bound on the number of rounds of a loop that follows links. *)
Definition walk_fuel (t : orbtree) : nat := S (length (nodes t)).

(** *** Searching and iteration *)

Fixpoint lower_bound_loop (fuel : nat) (k : Key) (n last : N) : RT N :=
  match fuel with
  | O => throwR OutOfFuel
  | S fuel =>
      k1 ← get_node_key n;
      nl ← node_nil;
      if compare k1 k then
        n' ← right_of n;
        if n' =? nl then mret last else lower_bound_loop fuel k n' last
      else
        n' ← left_of n;
        if n' =? nl then mret n else lower_bound_loop fuel k n' n
  end.

Definition lower_bound (k : Key) : RT N :=
  fun t =>
    if root t =? Invalid then Ok (nil t) else
    (n ← right_of (root t);
     if (n =? Invalid) || (n =? nil t) then mret (nil t)
     else lower_bound_loop (walk_fuel t) k n (nil t)) t.

(** [while(get_node(n).get_left() != nil()) n = get_node(n).get_left();] *)
Fixpoint leftmost (fuel : nat) (n : N) : RT N :=
  match fuel with
  | O => throwR OutOfFuel
  | S fuel =>
      l ← left_of n; nl ← node_nil;
      if l =? nl then mret n else leftmost fuel l
  end.
Fixpoint rightmost (fuel : nat) (n : N) : RT N :=
  match fuel with
  | O => throwR OutOfFuel
  | S fuel =>
      r ← right_of n; nl ← node_nil;
      if r =? nl then mret n else rightmost fuel r
  end.

Definition first : RT N :=
  fun t =>
    if root t =? Invalid then Ok (nil t) else
    (n ← right_of (root t);
     if (n =? Invalid) || (n =? nil t) then mret (nil t)
     else leftmost (walk_fuel t) n) t.
Definition last : RT N :=
  fun t =>
    if root t =? Invalid then Ok (nil t) else
    (n ← right_of (root t);
     if (n =? Invalid) || (n =? nil t) then mret (nil t)
     else rightmost (walk_fuel t) n) t.

(** "go up until n is a left child" *)
Fixpoint next_up (fuel : nat) (n : N) : RT N :=
  match fuel with
  | O => throwR OutOfFuel
  | S fuel =>
      p ← parent_of n; r ← node_root; nl ← node_nil;
      if p =? r then mret nl else
      lp ← left_of p;
      if lp =? n then mret p else next_up fuel p
  end.
Fixpoint previous_up (fuel : nat) (n : N) : RT N :=
  match fuel with
  | O => throwR OutOfFuel
  | S fuel =>
      p ← parent_of n; r ← node_root; nl ← node_nil;
      if p =? r then mret nl else
      rp ← right_of p;
      if rp =? n then mret p else previous_up fuel p
  end.

Definition next (n : N) : RT N :=
  fun t =>
    if n =? nil t then Ok n else
    (r ← right_of n;
     if negb (r =? nil t) then leftmost (walk_fuel t) r
     else next_up (walk_fuel t) n) t.
Definition previous (n : N) : RT N :=
  fun t =>
    if n =? nil t then last t else
    (l ← left_of n;
     if negb (l =? nil t) then rightmost (walk_fuel t) l
     else previous_up (walk_fuel t) n) t.

(** The entries in iteration order: [for(it = begin(); it != end(); ++it)]. *)
Fixpoint iterate (fuel : nat) (n : N) : RT (list N) :=
  match fuel with
  | O => throwR OutOfFuel
  | S fuel =>
      nl ← node_nil;
      if n =? nl then mret [] else
      n' ← next n; rest ← iterate fuel n'; mret (n :: rest)
  end.
Definition handles_in_order : RT (list N) :=
  b ← first; t ← (fun t => Ok t); iterate (walk_fuel t) b.
Definition entry_of (n : N) : RT KeyValue := nd ← get_node n; mret (kv nd).
Fixpoint mapR {A B} (g : A -> RT B) (l : list A) : RT (list B) :=
  match l with
  | [] => mret []
  | a :: l' => b ← g a; bs ← mapR g l'; mret (b :: bs)
  end.
Definition entries_in_order : RT (list KeyValue) :=
  hs ← handles_in_order; mapR entry_of hs.

(** [size()] *)
Definition size : RT N := fun t => Ok (size1 t).

(** *** Sums and rotations *)

Definition NVAddM (x y : list Z) : MT (list Z) := lift_result (NVAdd NVType x y).

(** [update_sum] *)
Definition update_sum (n : N) : MT unit :=
  sum ← liftR (get_node_grvalue n);
  t ← get_state;
  l ← liftR (left_of n);
  sum ← (if negb (l =? nil t) then tmp ← liftR (get_node_sum l); NVAddM sum tmp
         else mret sum);
  r ← liftR (right_of n);
  sum ← (if negb (r =? nil t) then tmp ← liftR (get_node_sum r); NVAddM sum tmp
         else mret sum);
  set_node_sum n sum.

(** [update_sum_r]: [for(;n != root();n = get_node(n).get_parent()) update_sum(n);] *)
Fixpoint update_sum_r_loop (fuel : nat) (n : N) : MT unit :=
  match fuel with
  | O => throw OutOfFuel
  | S fuel =>
      t ← get_state;
      if n =? root t then mret tt else
      update_sum n;;
      p ← liftR (parent_of n);
      update_sum_r_loop fuel p
  end.
Definition update_sum_r (n : N) : MT unit :=
  t ← get_state; update_sum_r_loop (walk_fuel t) n.

(** [update_value] (maps): store the value, then [update_sum_r] *)
Definition update_value (n : N) (v : Value) : MT unit :=
  modify_node n (set_value v);;
  update_sum_r n.

(** [rotate_left] *)
Definition rotate_left (x : N) : MT unit :=
  t ← get_state;
  y ← liftR (right_of x);
  ly ← liftR (left_of y);
  modify_node x (set_right ly);;
  rx ← liftR (right_of x);
  whenM (negb (rx =? nil t)) (modify_node_r rx (set_parent x));;
  px ← liftR (parent_of x);
  modify_node_r y (set_parent px);;
  rpx ← liftR (right_of px);
  (if x =? rpx then modify_node px (set_right y) else modify_node px (set_left y));;
  modify_node y (set_left x);;
  modify_node_r x (set_parent y);;
  update_sum x;;
  update_sum y.

(** [rotate_right] *)
Definition rotate_right (x : N) : MT unit :=
  t ← get_state;
  y ← liftR (left_of x);
  ry ← liftR (right_of y);
  modify_node x (set_left ry);;
  lx ← liftR (left_of x);
  whenM (negb (lx =? nil t)) (modify_node_r lx (set_parent x));;
  px ← liftR (parent_of x);
  modify_node_r y (set_parent px);;
  rpx ← liftR (right_of px);
  (if x =? rpx then modify_node px (set_right y) else modify_node px (set_left y));;
  modify_node y (set_right x);;
  modify_node_r x (set_parent y);;
  update_sum x;;
  update_sum y.

(** [rotate_parent] *)
Definition rotate_parent (n : N) : MT unit :=
  p ← liftR (parent_of n);
  lp ← liftR (left_of p);
  if n =? lp then rotate_right p else rotate_left p.

(** [get_sibling_handle] and [is_left_side] *)
Definition get_sibling_handle (n : N) : RT N :=
  p ← parent_of n; lp ← left_of p;
  if n =? lp then right_of p else mret lp.
Definition is_left_side (n : N) : RT bool :=
  p ← parent_of n; lp ← left_of p; mret (lp =? n).


(** *** Insertion *)

(** Out-parameters [n] and [insert_left] of the search helpers; [None] is a
    local that was never assigned. *)
Definition search_result : Type := (bool * option N * option bool)%type.
Definition use {A} (o : option A) : MT A := lift_result (of_option Uninitialised o).

Fixpoint insert_search_loop (fuel : nat) (k : Key) (n : N) : RT search_result :=
  match fuel with
  | O => throwR OutOfFuel
  | S fuel =>
      k1 ← get_node_key n;
      nl ← node_nil;
      if compare k k1 then
        l ← left_of n;
        if l =? nl then mret (true, Some n, Some true)
        else insert_search_loop fuel k l
      else
        if negb multi && negb (compare k1 k) then mret (false, Some n, None)
        else
          r ← right_of n;
          if r =? nl then mret (true, Some n, Some false)
          else insert_search_loop fuel k r
  end.

(** [insert_search] *)
Definition insert_search (k : Key) : RT search_result :=
  fun t =>
    let n := root t in
    if n =? Invalid then Err Inconsistent else
    (r ← right_of n;
     if r =? nil t then mret (true, Some n, Some false)
     else insert_search_loop (walk_fuel t) k r) t.

(** The loop of [insert_helper] that restores the red-black properties. *)
Fixpoint insert_fixup (fuel : nat) (n n1 : N) : MT unit :=
  match fuel with
  | O => throw OutOfFuel
  | S fuel =>
      t ← get_state;
      if n =? root t then mret tt else
      nb ← liftR (black_of n);
      if (nb : bool) then mret tt else
      pn ← liftR (parent_of n);
      if pn =? root t then modify_node n set_black else
      s ← liftR (get_sibling_handle n);
      sr ← liftR (red_of s);
      if (sr : bool) then
        modify_node s set_black;;
        modify_node n set_black;;
        modify_node pn set_red;;
        n1' ← liftR (parent_of n);
        n' ← liftR (parent_of n1');
        insert_fixup fuel n' n1'
      else
        s1 ← liftR (is_left_side n1);
        s2 ← liftR (is_left_side n);
        '(n, n1) ← (if negb (eqb s1 s2) then rotate_parent n1;; mret (n1, n)
                    else mret (n, n1));
        modify_node n set_black;;
        pn ← liftR (parent_of n);
        modify_node pn set_red;;
        rotate_parent n
  end.

(** "update sum up the tree from n" *)
Fixpoint add_up (fuel : nat) (n2 : N) (sum_add : list Z) : MT unit :=
  match fuel with
  | O => throw OutOfFuel
  | S fuel =>
      t ← get_state;
      if n2 =? root t then mret tt else
      tmp ← liftR (get_node_sum n2);
      tmp ← NVAddM tmp sum_add;
      set_node_sum n2 tmp;;
      p ← liftR (parent_of n2);
      add_up fuel p sum_add
  end.

(** [insert_helper] *)
Definition insert_helper (n n1 : N) (insert_left : bool) : MT unit :=
  t ← get_state;
  (if insert_left then modify_node n (set_left n1) else modify_node n (set_right n1));;
  modify_node_r n1 (set_parent n);;
  modify_node n1 (set_left (nil t));;
  modify_node n1 (set_right (nil t));;
  modify_node n1 set_red;;
  sum_add ← liftR (get_node_grvalue n1);
  set_node_sum n1 sum_add;;
  add_up (walk_fuel t) n sum_add;;
  insert_fixup (walk_fuel t) n n1.

(** [insert(kv)] *)
Definition insert (e : KeyValue) : MT (N * bool) :=
  '(ok, n, insert_left) ← liftR (insert_search (fst e));
  if negb ok then n ← use n; mret (n, false) else
  n1 ← new_node e;
  n ← use n; insert_left ← use insert_left;
  insert_helper n n1 insert_left;;
  modify (fun t => with_size1 (size_t (size1 t + 1)) t);;
  mret (n1, true).

(** *** Deletion *)

(** "subtract the rank function values up from del" *)
Fixpoint subtract_up (fuel : nat) (p2 : N) (x2 : list Z) : MT unit :=
  match fuel with
  | O => throw OutOfFuel
  | S fuel =>
      t ← get_state;
      if p2 =? root t then mret tt else
      y ← liftR (get_node_sum p2);
      y ← lift_result (NVSubtract NVType y x2);
      set_node_sum p2 y;;
      p ← liftR (parent_of p2);
      subtract_up fuel p x2
  end.

(** [a && b] with the right operand evaluated only when needed *)
Definition andR (a b : RT bool) : RT bool :=
  x ← a; if (x : bool) then b else mret false.
Definition child_black (side : N -> RT N) (s : N) : RT bool :=
  ch ← side s; black_of ch.

(** The [while(true)] loop of [erase] for a black [del] without child. *)
Fixpoint erase_fixup (fuel : nat) (p c : N) : MT unit :=
  match fuel with
  | O => throw OutOfFuel
  | S fuel =>
      t ← get_state;
      s ← liftR (left_of p);
      s ← (if (s =? nil t) || (s =? c) then liftR (right_of p) else mret s);
      if (s =? nil t) || (s =? c) then throw Inconsistent else
      sr ← liftR (red_of s);
      if (sr : bool) then
        modify_node p set_red;;
        modify_node s set_black;;
        rotate_parent s;;
        erase_fixup fuel p c
      else
      both ← liftR (andR (child_black left_of s) (child_black right_of s));
      if (both : bool) then
        modify_node s set_red;;
        pr ← liftR (red_of p);
        if (pr : bool) then modify_node p set_black
        else
          p' ← liftR (parent_of p);
          if p' =? root t then mret tt else erase_fixup fuel p' p
      else
      c3 ← liftR (andR (rp ← right_of p; mret (s =? rp)) (child_black right_of s));
      if (c3 : bool) then
        modify_node s set_red;;
        ls ← liftR (left_of s);
        modify_node ls set_black;;
        rotate_right s;;
        erase_fixup fuel p c
      else
      c4 ← liftR (andR (lp ← left_of p; mret (s =? lp)) (child_black left_of s));
      if (c4 : bool) then
        modify_node s set_red;;
        rs ← liftR (right_of s);
        modify_node rs set_black;;
        rotate_left s;;
        erase_fixup fuel p c
      else
        pr ← liftR (red_of p);
        whenM pr (modify_node s set_red);;
        modify_node p set_black;;
        rp ← liftR (right_of p);
        far ← liftR (if s =? rp then right_of s else left_of s);
        modify_node far set_black;;
        rotate_parent s
  end.

(** Rounds granted to [erase_fixup]. *)
Definition fixup_fuel (t : orbtree) : nat :=
  S ((2 * length (nodes t) + 2) * S (length (nodes t))).

(** "x (n's successor) was deleted, have to put x in n's place" *)
Definition replace_node (n x : N) : MT unit :=
  t ← get_state;
  ln ← liftR (left_of n);
  modify_node x (set_left ln);;
  rn ← liftR (right_of n);
  modify_node x (set_right rn);;
  pn ← liftR (parent_of n);
  modify_node_r x (set_parent pn);;
  nb ← liftR (black_of n);
  (if (nb : bool) then modify_node x set_black else modify_node x set_red);;
  lpn ← liftR (left_of pn);
  (if lpn =? n then modify_node pn (set_left x)
   else
     rpn ← liftR (right_of pn);
     if rpn =? n then modify_node pn (set_right x) else throw Inconsistent);;
  lx ← liftR (left_of x);
  whenM (negb (lx =? nil t)) (modify_node_r lx (set_parent x));;
  rx ← liftR (right_of x);
  whenM (negb (rx =? nil t)) (modify_node_r rx (set_parent x));;
  update_sum_r x.

(** [erase(n)]: returns the handle of the successor of [n]. *)
Definition erase (n : N) : MT N :=
  t ← get_state;
  x ← liftR (next n);
  ln ← liftR (left_of n);
  rn ← liftR (right_of n);
  let del := if negb (ln =? nil t) && negb (rn =? nil t) then x else n in
  c ← liftR (left_of del);
  c ← (if c =? nil t then liftR (right_of del) else mret c);
  p ← liftR (parent_of del);
  modify_node_r c (set_parent p);;
  lp ← liftR (left_of p);
  (if lp =? del then modify_node p (set_left c) else modify_node p (set_right c));;
  x2 ← liftR (get_node_grvalue del);
  subtract_up (walk_fuel t) p x2;;
  db ← liftR (black_of del);
  whenM db
    (if negb (c =? nil t) then modify_node c set_black
     else erase_fixup (fixup_fuel t) p c);;
  whenM (negb (del =? n)) (replace_node n x);;
  free_node n;;
  t' ← get_state;
  (if size1 t' =? 0 then throw Inconsistent
   else modify (with_size1 (size_t (size1 t' - 1))));;
  mret x.

(** *** Partial sums of weights *)

Definition NVAddR (x y : list Z) : RT (list Z) := lift_resultR (NVAdd NVType x y).

Fixpoint get_sum_up (fuel : nat) (x p : N) (res : list Z) : RT (list Z) :=
  match fuel with
  | O => throwR OutOfFuel
  | S fuel =>
      r ← node_root; nl ← node_nil;
      if p =? r then mret res else
      rp ← right_of p;
      res ← (if x =? rp then
               l ← left_of p;
               res ← (if negb (l =? nl) then tmp ← get_node_sum l; NVAddR res tmp
                      else mret res);
               tmp ← get_node_grvalue p;
               NVAddR res tmp
             else mret res);
      p' ← parent_of p;
      get_sum_up fuel p p' res
  end.

(** [get_sum_fv_node]: the result array is zeroed first, whatever it held. *)
Definition get_sum_fv_node (x : N) : RT (list Z) :=
  fun t =>
    let res := vzero nv_per_node in
    if (x =? Invalid) || (x =? nil t) || (x =? root t) then Ok res else
    (l ← left_of x;
     res ← (if negb (l =? nil t) then tmp ← get_node_sum l; NVAddR res tmp
            else mret res);
     p ← parent_of x;
     get_sum_up (walk_fuel t) x p res) t.

(** [get_norm_fv] *)
Definition get_norm_fv : RT (list Z) :=
  fun t =>
    if negb (root t =? Invalid) then
      (n ← right_of (root t);
       if negb (n =? Invalid) && negb (n =? nil t) then get_node_sum n
       else mret (vzero nv_per_node)) t
    else Ok (vzero nv_per_node).

(** [orbtree::get_sum_node(it, res)]:
    [if(it == cend()) this->get_norm_fv(res); this->get_sum_fv_node(it.n,res);] *)
Definition get_sum_node (it : N) : RT (list Z) :=
  nl ← node_nil;
  _ ← (if it =? nl then get_norm_fv else mret []);
  get_sum_fv_node it.

(** [orbtree::get_sum(k, res)] *)
Definition get_sum (k : Key) : RT (list Z) :=
  it ← lower_bound k; get_sum_node it.

(** [orbtree::get_norm(res)] *)
Definition get_norm : RT (list Z) := get_norm_fv.

End Orbtree.


(** ** Instances used in the worked examples

    Sets and multisets of integer keys over 32-bit indices
    ([rankmultisetC<unsigned int>] and its relatives). *)

Definition keyset (w : Z -> list Z) (d : nat) (m : bool) : OrbParams :=
  {| Key := Z; Value := unit; Key_default := 0%Z; Value_default := tt;
     compare := Z.ltb; NVType := uint32; nv_per_node := d;
     NVFunc := fun e => w (fst e); multi := m; digits := 32 |}.

(** weight 1 for every key: ranks *)
Definition rank_multiset : OrbParams := keyset (fun _ => [1%Z]) 1 true.
Definition rank_set : OrbParams := keyset (fun _ => [1%Z]) 1 false.
(** weight [w(k) = k] *)
Definition keysum_multiset : OrbParams := keyset (fun k => [k]) 1 true.
Definition keysum_set : OrbParams := keyset (fun k => [k]) 1 false.
(** a weight function with two components, [w(k) = (1, k)] *)
Definition pair_multiset : OrbParams := keyset (fun k => [1%Z; k]) 2 true.

Definition entry (k : Z) : Z * unit := (k, tt).

Section Runs.
Context `{P : OrbParams}.

(** Run a mutating member function and keep the state only. *)
Definition exec {A} (m : M orbtree A) (t : orbtree) : result orbtree :=
  match m t with Ok (_, t') => Ok t' | Err e => Err e end.
Definition then_ {A} (r : result orbtree) (f : orbtree -> result A) : result A :=
  match r with Ok t => f t | Err e => Err e end.

Fixpoint insert_all (l : list KeyValue) (t : orbtree) : result orbtree :=
  match l with
  | [] => Ok t
  | e :: l' => then_ (exec (insert e) t) (insert_all l')
  end.
Fixpoint erase_all (l : list N) (t : orbtree) : result orbtree :=
  match l with
  | [] => Ok t
  | n :: l' => then_ (exec (erase n) t) (erase_all l')
  end.

(** A fresh container filled by successive [insert] calls. *)
Definition filled (l : list KeyValue) : result orbtree :=
  then_ orbtree_new (insert_all l).

End Runs.

(** ** The errors a computation may raise *)

Definition raises {S A} (m : M S A) (E : error -> Prop) : Prop :=
  forall s e, m s = Err e -> E e.
Definition raisesR {S A} (m : R S A) (E : error -> Prop) : Prop :=
  forall s e, m s = Err e -> E e.

(** ** Decidable range test of the weight type *)

Definition in_rangeb (k : int_kind) (z : Z) : bool :=
  (ik_min k <=? z)%Z && (z <=? ik_max k)%Z.

(** ** Views of a state used in specifications *)

Section Views.
Context `{P : OrbParams}.
Local Open Scope N_scope.

(** handle [x] designates a slot of the node vector *)
Definition valid (t : orbtree) (x : N) : Prop := in_bounds (nodes t) x = true.
(** the node stored in slot [x] *)
Definition nd (t : orbtree) (x : N) : Node :=
  default Node_default (at_index (nodes t) x).
(** [nodes[x] = n] *)
Definition upd (t : orbtree) (x : N) (n : Node) : orbtree :=
  with_nodes (<[N.to_nat x := n]> (nodes t)) t.
(** number of entries a node vector can hold besides the two sentinels *)
Definition max_entries : N := max_nodes - 2.

End Views.

(** ** States used as concrete inputs *)

(** A node vector filled up to [max_nodes] slots of a 32-bit index type: the
    two sentinels and [2^31 - 3] further nodes, none of them deleted. *)
Definition full_vector_state : orbtree (P := rank_multiset) :=
  {| nvarray := replicate (N.to_nat (2 ^ 31 - 1)) 0%Z;
     nodes := replicate (N.to_nat (2 ^ 31 - 1)) (Node_default (P := rank_multiset));
     n_del := 0; deleted_nodes_head := 2 ^ 31 - 1; root := 0; nil := 1;
     size1 := 2 ^ 31 - 3 |}.

(** A vector of 8 four-byte elements in a full buffer. *)
Definition small_vector : ReallocVec.vector Z :=
  {| ReallocVec.start := fun i => if (i <? 8)%N then Some 0%Z else None;
     ReallocVec.p_size := 8;
     ReallocVec.p_capacity := 8;
     ReallocVec.max_grow := 131072 |}.

(** The result of an [insert] together with the entry stored under the
    returned handle. *)
Definition bind_entry `{P : OrbParams} (r : N * bool) (t : orbtree)
  : result (N * bool * KeyValue) :=
  match entry_of (fst r) t with
  | Ok e => Ok (fst r, snd r, e)
  | Err e => Err e
  end.

(** The state of a successful run (the initial members otherwise). *)
Definition state_of `{P : OrbParams} (r : result orbtree) : orbtree :=
  match r with Ok t => t | Err _ => allocator_members end.

(** The multiset 1, 2, 3 of ranks, and the same after [erase] of the entry 2
    (handle 3). *)
Definition multiset_123 : orbtree (P := rank_multiset) :=
  Eval vm_compute in state_of (filled (P := rank_multiset) (map entry [1; 2; 3]%Z)).
Definition multiset_13 : orbtree (P := rank_multiset) :=
  Eval vm_compute in state_of (exec (erase (P := rank_multiset) 3) multiset_123).
Definition multiset_137 : orbtree (P := rank_multiset) :=
  Eval vm_compute in
    state_of (exec (insert (P := rank_multiset) (entry 7)) multiset_13).

(** A new container in which two nodes have been allocated and not yet
    linked into the tree. *)
Definition two_spare_nodes : orbtree (P := rank_multiset) :=
  Eval vm_compute in
    state_of (then_ (orbtree_new (P := rank_multiset))
                (exec (new_node (P := rank_multiset) (entry 1);;
                       new_node (P := rank_multiset) (entry 2)))).

(** ** Abstract shape of a tree and its layout in a state *)

(** The shape of a tree: which handle sits where.  Entries, colours and
    sums are read from the state. *)
Inductive atree : Type :=
| Leaf
| Nd (l : atree) (x : N) (r : atree).

Fixpoint inorder (t : atree) : list N :=
  match t with
  | Leaf => []
  | Nd l x r => inorder l ++ x :: inorder r
  end.

(** A tree with a hole: the path from the hole up to the real root.  The
    frame [(SL, q, s)] says that the hole is the left child of [q] and that
    [s] is the right subtree of [q]. *)
Inductive side : Type := SL | SR.
Definition frame : Type := (side * N * atree)%type.
Definition ctx : Type := list frame.

Fixpoint plug (t : atree) (c : ctx) : atree :=
  match c with
  | [] => t
  | (SL, q, s) :: c' => plug (Nd t q s) c'
  | (SR, q, s) :: c' => plug (Nd s q t) c'
  end.

(** handles before and after the hole, in order *)
Fixpoint ctx_before (c : ctx) : list N :=
  match c with
  | [] => []
  | (SL, q, s) :: c' => ctx_before c'
  | (SR, q, s) :: c' => ctx_before c' ++ inorder s ++ [q]
  end.
Fixpoint ctx_after (c : ctx) : list N :=
  match c with
  | [] => []
  | (SL, q, s) :: c' => q :: inorder s ++ ctx_after c'
  | (SR, q, s) :: c' => ctx_after c'
  end.
Definition ctx_handles (c : ctx) : list N := ctx_before c ++ ctx_after c.

Section Layout.
Context `{P : OrbParams}.
Local Open Scope N_scope.

Definition root_of (st : orbtree) (t : atree) : N :=
  match t with Leaf => nil st | Nd _ x _ => x end.

(** Attributes of the node in slot [x]. *)
Definition lf (st : orbtree) (x : N) : N := get_left (nd st x).
Definition rt (st : orbtree) (x : N) : N := get_right (nd st x).
Definition pr (st : orbtree) (x : N) : N := get_parent (nd st x).
Definition red (st : orbtree) (x : N) : bool := is_red (nd st x).
Definition ent (st : orbtree) (x : N) : KeyValue := kv (nd st x).
Definition key_of (st : orbtree) (x : N) : Key := fst (ent st x).
Definition weight (st : orbtree) (x : N) : list Z := NVFunc (ent st x).
(** the sum stored for slot [x] *)
Definition node_sum (st : orbtree) (x : N) : list Z :=
  take nv_per_node (drop (N.to_nat x * nv_per_node) (nvarray st)).

(** [t] is laid out in [st] below the parent [p]. *)
Fixpoint rep (st : orbtree) (p : N) (t : atree) : Prop :=
  match t with
  | Leaf => True
  | Nd l x r =>
      x <> nil st /\ valid st x /\ pr st x = p
      /\ lf st x = root_of st l /\ rt st x = root_of st r
      /\ rep st x l /\ rep st x r
  end.

(** parent of the hole of a context whose top hangs below the root sentinel *)
Definition hole_parent (st : orbtree) (c : ctx) : N :=
  match c with [] => root st | (_, q, _) :: _ => q end.

(** The frames of [c] are laid out in [st], the hole holding the handle
    [h]. *)
Fixpoint rep_ctx (st : orbtree) (c : ctx) (h : N) : Prop :=
  match c with
  | [] => rt st (root st) = h
  | (SL, q, s) :: c' =>
      q <> nil st /\ valid st q /\ pr st q = hole_parent st c'
      /\ lf st q = h /\ rt st q = root_of st s
      /\ rep st q s /\ rep_ctx st c' q
  | (SR, q, s) :: c' =>
      q <> nil st /\ valid st q /\ pr st q = hole_parent st c'
      /\ rt st q = h /\ lf st q = root_of st s
      /\ rep st q s /\ rep_ctx st c' q
  end.

(** Sum of the weights of a subtree. *)
Fixpoint tsum (st : orbtree) (t : atree) : list Z :=
  match t with
  | Leaf => vzero nv_per_node
  | Nd l x r => vplus (vplus (weight st x) (tsum st l)) (tsum st r)
  end.

(** Every node of [t] stores the sum of the weights of its subtree. *)
Fixpoint sums_ok (st : orbtree) (t : atree) : Prop :=
  match t with
  | Leaf => True
  | Nd l x r => node_sum st x = tsum st (Nd l x r) /\ sums_ok st l /\ sums_ok st r
  end.

(** Sums along a path: the siblings hanging off the path store their sums,
    and every node of the path stores the sum of its subtree when the hole
    holds a subtree of sum [hs]. *)
Fixpoint ctx_sibs_ok (st : orbtree) (c : ctx) : Prop :=
  match c with
  | [] => True
  | (_, _, s) :: c' => sums_ok st s /\ ctx_sibs_ok st c'
  end.
Definition frame_sum (st : orbtree) (sd : side) (q : N) (s : atree) (hs : list Z)
  : list Z :=
  match sd with
  | SL => vplus (vplus (weight st q) hs) (tsum st s)
  | SR => vplus (vplus (weight st q) (tsum st s)) hs
  end.
Fixpoint ctx_path_ok (st : orbtree) (c : ctx) (hs : list Z) : Prop :=
  match c with
  | [] => True
  | (sd, q, s) :: c' =>
      node_sum st q = frame_sum st sd q s hs
      /\ ctx_path_ok st c' (frame_sum st sd q s hs)
  end.

(** The vector of sums has a slot for every node. *)
Definition nv_ok (st : orbtree) : Prop :=
  N.of_nat (length (nodes st)) <= max_nodes /\
  length (nvarray st) = (length (nodes st) * nv_per_node)%nat.

(** The list of deleted nodes, linked through the left fields. *)
Fixpoint free_chain (st : orbtree) (h : N) (fl : list N) : Prop :=
  match fl with
  | [] => h = Invalid
  | x :: fl' => h = x /\ valid st x /\ free_chain st (lf st x) fl'
  end.

(** keys in iteration order never decrease *)
Definition keys_sorted (st : orbtree) (l : list N) : Prop :=
  StronglySorted (fun a b => compare (key_of st b) (key_of st a) = false) l.

(** The invariant of the nodes, links and sums of a tree state: [T] is the
    shape of the tree and [fl] the list of deleted nodes. *)
Record shape_inv (st : orbtree) (T : atree) (fl : list N) : Prop := {
  ti_len : N.of_nat (length (nodes st)) <= max_nodes;
  ti_root_valid : valid st (root st);
  ti_nil_valid : valid st (nil st);
  ti_root_nil : root st <> nil st;
  ti_nil_black : red st (nil st) = false;
  ti_root_left : lf st (root st) = nil st;
  ti_root_right : rt st (root st) = root_of st T;
  ti_rep : rep st (root st) T;
  ti_nodup : NoDup (inorder T ++ fl);
  ti_root_fresh : root st ∉ inorder T ++ fl;
  ti_nil_fresh : nil st ∉ fl;
  ti_nv_len : length (nvarray st) = (length (nodes st) * nv_per_node)%nat;
  ti_nv_range : Forall (in_range NVType) (nvarray st);
  ti_sums : sums_ok st T;
  ti_free : free_chain st (deleted_nodes_head st) fl;
  ti_ndel : n_del st = N.of_nat (length fl);
  ti_sorted : keys_sorted st (inorder T)
}.

(** The invariant of a tree state between two operations: [size1] counts
    the nodes of the tree. *)
Definition tree_inv (st : orbtree) (T : atree) (fl : list N) : Prop :=
  shape_inv st T fl /\ size1 st = N.of_nat (length (inorder T)).

Definition well_formed (st : orbtree) : Prop := exists T fl, tree_inv st T fl.

(** Assumptions on the template parameters: an index type of at most 32
    bits (the source computes [redbit] as [1U << (digits - 1)]), an integral
    weight type, and a weight function that fills [nv_per_node] values of
    that type, [nv_per_node] being an [unsigned int]. *)
Record params_ok : Prop := {
  po_digits : 0 < digits <= 32;
  po_bits : 0 < ik_bits NVType;
  po_nv : N.of_nat nv_per_node < 2 ^ 32;
  po_len : forall e, length (NVFunc e) = nv_per_node;
  po_range : forall e, Forall (in_range NVType) (NVFunc e)
}.

(** [compare] is a strict weak ordering. *)
Record strict_weak : Prop := {
  sw_irrefl : forall a, compare a a = false;
  sw_trans : forall a b c, compare a b = true -> compare b c = true -> compare a c = true;
  sw_equiv : forall a b c,
      compare a b = false -> compare b a = false ->
      compare b c = false -> compare c b = false ->
      compare a c = false /\ compare c a = false
}.

(** Nodes of the tree: what the child links reach from the real root. *)
Inductive in_tree (st : orbtree) : N -> Prop :=
| in_tree_root : rt st (root st) <> nil st -> in_tree st (rt st (root st))
| in_tree_left p : in_tree st p -> lf st p <> nil st -> in_tree st (lf st p)
| in_tree_right p : in_tree st p -> rt st p <> nil st -> in_tree st (rt st p).

(** States reached from a new container by successful operations. *)
Inductive reachable : orbtree -> Prop :=
| reach_new st : orbtree_new = Ok st -> reachable st
| reach_insert st e r st' :
    reachable st -> insert e st = Ok (r, st') -> reachable st'
| reach_erase st n x st' :
    reachable st -> in_tree st n -> erase n st = Ok (x, st') -> reachable st'
| reach_update st n v st' :
    reachable st -> in_tree st n -> update_value n v st = Ok (tt, st') -> reachable st'.

(** sum stored for a child link: nothing for [nil] *)
Definition child_sum (st : orbtree) (c : N) : list Z :=
  if c =? nil st then vzero nv_per_node else node_sum st c.

(** the sum that [update_sum] stores for [n] *)
Definition usum (st : orbtree) (n : N) : list Z :=
  vplus (vplus (weight st n) (child_sum st (lf st n))) (child_sum st (rt st n)).

(** What restructuring leaves alone: colours, entries, the sentinels and the
    size of the node vector. *)
Definition same_data (st st' : orbtree) : Prop :=
  (forall z, red st' z = red st z) /\ (forall z, ent st' z = ent st z)
  /\ length (nodes st') = length (nodes st)
  /\ nil st' = nil st /\ root st' = root st /\ size1 st' = size1 st.

(** The place where a key goes: a path to an empty place of the tree, the
    keys before it not above [k] (below [k] in a container of unique keys)
    and the keys after it above [k]. *)
Definition insert_point (st : orbtree) (k : Key) (T : atree) (C : ctx) : Prop :=
  T = plug Leaf C
  /\ (forall z, z ∈ ctx_before C ->
        compare k (key_of st z) = false
        /\ (multi = false -> compare (key_of st z) k = true))
  /\ (forall z, z ∈ ctx_after C -> compare k (key_of st z) = true).
(** [insert_left]: the place is a left child *)
Definition side_flag (C : ctx) : bool :=
  match C with (SL, _, _) :: _ => true | _ => false end.

(** What [insert_search] finds: the place for the key, or in a container of
    unique keys a node with an equivalent key. *)
Definition search_post (st : orbtree) (k : Key) (T : atree) (r : search_result)
  : Prop :=
  match r with
  | (true, Some n, Some il) =>
      exists C, insert_point st k T C /\ n = hole_parent st C /\ il = side_flag C
  | (false, Some n, None) =>
      multi = false /\ n ∈ inorder T
      /\ compare k (key_of st n) = false /\ compare (key_of st n) k = false
  | _ => False
  end.

(** Only the sums differ. *)
Definition same_nodes (st st' : orbtree) : Prop :=
  nodes st' = nodes st /\ n_del st' = n_del st
  /\ deleted_nodes_head st' = deleted_nodes_head st
  /\ root st' = root st /\ nil st' = nil st /\ size1 st' = size1 st.

(** the nodes on a path *)
Definition path_nodes (C : ctx) : list N := map (fun f : frame => snd (fst f)) C.

(** Weakest precondition of a member function, [E] being the errors it is
    allowed to raise. *)
Definition wp {A} (E : error -> Prop) (m : M orbtree A) (st : orbtree)
    (Q : A -> orbtree -> Prop) : Prop :=
  match m st with Ok (a, st') => Q a st' | Err e => E e end.
Definition wpR {A} (E : error -> Prop) (m : R orbtree A) (st : orbtree)
    (Q : A -> Prop) : Prop :=
  match m st with Ok a => Q a | Err e => E e end.

(** Pure forms of the field updates. *)
Definition set_parent' (p : N) (n : Node) : Node :=
  {| kv := kv n; parent := N.lor p (N.land (parent n) redbit);
     left := left n; right := right n |}.
Definition set_lf (st : orbtree) (x v : N) : orbtree := upd st x (set_left v (nd st x)).
Definition set_rt (st : orbtree) (x v : N) : orbtree := upd st x (set_right v (nd st x)).
Definition set_pr (st : orbtree) (x v : N) : orbtree := upd st x (set_parent' v (nd st x)).
Definition set_col (st : orbtree) (x : N) (r : bool) : orbtree :=
  upd st x ((if r then set_red else set_black) (nd st x)).
Definition set_ent (st : orbtree) (x : N) (v : Value) : orbtree :=
  upd st x (set_value v (nd st x)).
(** [if(c != nil()) get_node(c).set_parent(p);] *)
Definition set_pr_if (st : orbtree) (c p : N) : orbtree :=
  if c =? nil st then st else set_pr st c p.
(** [if(o == get_node(q).get_right()) get_node(q).set_right(n); else
    get_node(q).set_left(n);] *)
Definition set_child (st : orbtree) (q o n : N) : orbtree :=
  if o =? rt st q then set_rt st q n else set_lf st q n.
(** the sum of slot [x] replaced by [s] *)
Definition set_sum (st : orbtree) (x : N) (s : list Z) : orbtree :=
  with_nvarray (take (N.to_nat x * nv_per_node) (nvarray st) ++ s
                ++ drop (N.to_nat x * nv_per_node + nv_per_node) (nvarray st)) st.

End Layout.


(** * Checked arithmetic of weights *)

Section Arith.
Variable k : int_kind.
Hypothesis bits_pos : (0 < ik_bits k)%N.

Lemma ik_half_pos : (0 < ik_half k)%Z.
Proof. unfold ik_half. apply Z.pow_pos_nonneg; lia. Qed.

Lemma ik_modulus_half : ik_modulus k = (2 * ik_half k)%Z.
Proof.
  unfold ik_modulus, ik_half.
  replace (Z.of_N (ik_bits k)) with (Z.succ (Z.of_N (ik_bits k) - 1)) at 1 by lia.
  rewrite Z.pow_succ_r by lia. reflexivity.
Qed.

Lemma in_rangeb_spec z : in_rangeb k z = true <-> in_range k z.
Proof. unfold in_rangeb, in_range. rewrite andb_true_iff, !Z.leb_le. tauto. Qed.

Lemma in_range_zero : in_range k 0.
Proof.
  pose proof ik_half_pos. pose proof ik_modulus_half.
  unfold in_range, ik_min, ik_max. destruct (ik_signed k); lia.
Qed.

Lemma ik_wrap_in_range z : in_range k z -> ik_wrap k z = z.
Proof.
  pose proof ik_half_pos. pose proof ik_modulus_half as Hm.
  unfold in_range, ik_wrap, ik_min, ik_max.
  destruct (ik_signed k); intros Hz.
  - rewrite Z.mod_small by lia. lia.
  - apply Z.mod_small. lia.
Qed.

(** The guards of [NVAdd] are exact: the sum is stored if and only if it is
    representable, and is then the mathematical sum. *)
Lemma NVAdd1_spec x y :
  in_range k x -> in_range k y ->
  NVAdd1 k x y = if in_rangeb k (x + y) then Ok (x + y)%Z else Err Arithmetic.
Proof.
  intros Hx Hy. pose proof ik_half_pos. pose proof ik_modulus_half as Hm.
  unfold NVAdd1.
  destruct (Z.ltb_spec 0 y) as [Hy0|Hy0].
  - rewrite (ik_wrap_in_range (ik_max k - y)).
    2:{ unfold in_range, ik_min, ik_max in *. destruct (ik_signed k); lia. }
    destruct (Z.ltb_spec (ik_max k - y) x) as [Hc|Hc].
    + replace (in_rangeb k (x + y)) with false; [reflexivity|].
      symmetry. apply not_true_is_false. rewrite in_rangeb_spec.
      unfold in_range. lia.
    + assert (Hr : in_range k (x + y)) by (unfold in_range in *; lia).
      rewrite (ik_wrap_in_range _ Hr).
      apply in_rangeb_spec in Hr. rewrite Hr. reflexivity.
  - rewrite (ik_wrap_in_range (ik_min k - y)).
    2:{ unfold in_range, ik_min, ik_max in *. destruct (ik_signed k); lia. }
    destruct (Z.ltb_spec x (ik_min k - y)) as [Hc|Hc].
    + replace (in_rangeb k (x + y)) with false; [reflexivity|].
      symmetry. apply not_true_is_false. rewrite in_rangeb_spec.
      unfold in_range. lia.
    + assert (Hr : in_range k (x + y)) by (unfold in_range in *; lia).
      rewrite (ik_wrap_in_range _ Hr).
      apply in_rangeb_spec in Hr. rewrite Hr. reflexivity.
Qed.

Lemma NVSubtract1_spec x y :
  in_range k x -> in_range k y ->
  NVSubtract1 k x y = if in_rangeb k (x - y) then Ok (x - y)%Z else Err Arithmetic.
Proof.
  intros Hx Hy. pose proof ik_half_pos. pose proof ik_modulus_half as Hm.
  unfold NVSubtract1.
  destruct (Z.ltb_spec 0 y) as [Hy0|Hy0].
  - rewrite (ik_wrap_in_range (ik_min k + y)).
    2:{ unfold in_range, ik_min, ik_max in *. destruct (ik_signed k); lia. }
    destruct (Z.ltb_spec x (ik_min k + y)) as [Hc|Hc].
    + replace (in_rangeb k (x - y)) with false; [reflexivity|].
      symmetry. apply not_true_is_false. rewrite in_rangeb_spec.
      unfold in_range. lia.
    + assert (Hr : in_range k (x - y)) by (unfold in_range in *; lia).
      rewrite (ik_wrap_in_range _ Hr).
      apply in_rangeb_spec in Hr. rewrite Hr. reflexivity.
  - rewrite (ik_wrap_in_range (ik_max k + y)).
    2:{ unfold in_range, ik_min, ik_max in *. destruct (ik_signed k); lia. }
    destruct (Z.ltb_spec (ik_max k + y) x) as [Hc|Hc].
    + replace (in_rangeb k (x - y)) with false; [reflexivity|].
      symmetry. apply not_true_is_false. rewrite in_rangeb_spec.
      unfold in_range. lia.
    + assert (Hr : in_range k (x - y)) by (unfold in_range in *; lia).
      rewrite (ik_wrap_in_range _ Hr).
      apply in_rangeb_spec in Hr. rewrite Hr. reflexivity.
Qed.

(** Vectors: the loop stops with [Arithmetic] at the first component whose
    result is not representable. *)
Lemma nv_zip_spec (op : Z -> Z -> result Z) (g : Z -> Z -> Z) x y :
  (forall a b, in_range k a -> in_range k b ->
     op a b = if in_rangeb k (g a b) then Ok (g a b) else Err Arithmetic) ->
  length x = length y ->
  Forall (in_range k) x -> Forall (in_range k) y ->
  nv_zip op x y =
    if forallb (in_rangeb k) (zip_with g x y) then Ok (zip_with g x y)
    else Err Arithmetic.
Proof.
  intros Hop. revert y. induction x as [|a x IH]; intros [|b y] Hlen Hx Hy;
    simpl in *; try discriminate; [reflexivity|].
  inversion Hx; subst. inversion Hy; subst.
  rewrite Hop by assumption.
  destruct (in_rangeb k (g a b)); simpl; [|reflexivity].
  rewrite IH by (auto; lia).
  destruct (forallb _ _); reflexivity.
Qed.

Lemma NVAdd_spec x y :
  length x = length y -> Forall (in_range k) x -> Forall (in_range k) y ->
  NVAdd k x y =
    if forallb (in_rangeb k) (vplus x y) then Ok (vplus x y) else Err Arithmetic.
Proof. apply nv_zip_spec, NVAdd1_spec. Qed.

Lemma NVSubtract_spec x y :
  length x = length y -> Forall (in_range k) x -> Forall (in_range k) y ->
  NVSubtract k x y =
    if forallb (in_rangeb k) (vminus x y) then Ok (vminus x y) else Err Arithmetic.
Proof. apply nv_zip_spec, NVSubtract1_spec. Qed.

End Arith.


(** * Basic facts: the packed parent field *)

Section Bits.
Context `{P : OrbParams}.
Hypothesis digits_pos : (0 < digits)%N.
Local Open Scope N_scope.

Lemma redbit_eq : redbit = 2 ^ (digits - 1).
Proof. unfold redbit. apply N.shiftl_1_l. Qed.

Lemma redbit_pos : 0 < redbit.
Proof. rewrite redbit_eq. apply N.neq_0_lt_0, N.pow_nonzero. lia. Qed.

Lemma max_nodes_lt_redbit : max_nodes < redbit.
Proof. pose proof redbit_pos. unfold max_nodes. lia. Qed.

Lemma testbit_ones i n : N.testbit (N.ones n) i = (i <? n).
Proof.
  destruct (N.ltb_spec i n) as [H|H].
  - apply N.ones_spec_low. lia.
  - apply N.ones_spec_high. lia.
Qed.

Lemma not_redbit_eq : not_redbit = N.ones (digits - 1).
Proof.
  unfold not_redbit, N.lnot. rewrite redbit_eq.
  apply N.bits_inj. intros i.
  rewrite N.lxor_spec, N.pow2_bits_eqb, !testbit_ones.
  destruct (N.eqb_spec (digits - 1) i), (N.ltb_spec i digits), (N.ltb_spec i (digits - 1));
    simpl; try reflexivity; lia.
Qed.

Lemma not_redbit_max_nodes : not_redbit = max_nodes.
Proof.
  rewrite not_redbit_eq. unfold max_nodes. rewrite redbit_eq.
  rewrite N.ones_equiv. apply N.pred_sub.
Qed.

Lemma land_not_redbit p : p <= max_nodes -> N.land p not_redbit = p.
Proof.
  intros Hp. rewrite not_redbit_eq, N.land_ones.
  apply N.mod_small. rewrite <- redbit_eq. pose proof max_nodes_lt_redbit. lia.
Qed.

Lemma land_redbit_small p : p <= max_nodes -> N.land p redbit = 0.
Proof.
  intros Hp. apply N.bits_inj. intros i.
  rewrite N.land_spec, redbit_eq, N.pow2_bits_eqb, N.bits_0.
  destruct (N.eqb_spec (digits - 1) i) as [<-|]; [|apply andb_false_r].
  rewrite andb_true_r.
  destruct (N.eq_dec p 0) as [->|Hp0]; [apply N.bits_0|].
  apply N.bits_above_log2, N.log2_lt_pow2; [lia|].
  rewrite <- redbit_eq. pose proof max_nodes_lt_redbit. lia.
Qed.

Lemma land_redbit_not_redbit : N.land redbit not_redbit = 0.
Proof.
  rewrite not_redbit_eq, N.land_ones, redbit_eq.
  apply N.Div0.mod_same.
Qed.

Lemma land_redbit_cases a : N.land a redbit = 0 \/ N.land a redbit = redbit.
Proof.
  rewrite redbit_eq.
  destruct (N.testbit a (digits - 1)) eqn:E.
  - right. apply N.bits_inj. intros i.
    rewrite N.land_spec, N.pow2_bits_eqb.
    destruct (N.eqb_spec (digits - 1) i) as [<-|]; [rewrite E; reflexivity|apply andb_false_r].
  - left. apply N.bits_inj. intros i.
    rewrite N.land_spec, N.pow2_bits_eqb, N.bits_0.
    destruct (N.eqb_spec (digits - 1) i) as [<-|]; [rewrite E; reflexivity|apply andb_false_r].
Qed.

(** Effect of the setters on the two halves of the parent field. *)

Lemma get_parent_set_red n : get_parent (set_red n) = get_parent n.
Proof.
  unfold get_parent, set_red; simpl.
  rewrite N.land_lor_distr_l, land_redbit_not_redbit. apply N.lor_0_r.
Qed.

Lemma get_parent_set_black n : get_parent (set_black n) = get_parent n.
Proof.
  unfold get_parent, set_black; simpl.
  rewrite <- N.land_assoc, N.land_diag. reflexivity.
Qed.

Lemma is_red_set_red n : is_red (set_red n) = true.
Proof.
  unfold is_red, set_red; simpl.
  rewrite N.land_lor_distr_l, N.land_diag.
  destruct (N.eqb_spec (N.lor (N.land (parent n) redbit) redbit) 0) as [E|E]; [|reflexivity].
  apply N.lor_eq_0_iff in E. pose proof redbit_pos. lia.
Qed.

Lemma is_red_set_black n : is_red (set_black n) = false.
Proof.
  unfold is_red, set_black; simpl.
  rewrite <- N.land_assoc, (N.land_comm not_redbit), land_redbit_not_redbit, N.land_0_r.
  reflexivity.
Qed.

Lemma set_parent_ok p n :
  p <= max_nodes -> exists n', set_parent p n = Ok n' /\
    get_parent n' = p /\ is_red n' = is_red n /\
    kv n' = kv n /\ left n' = left n /\ right n' = right n.
Proof.
  intros Hp. unfold set_parent.
  destruct (N.ltb_spec max_nodes p); [lia|].
  eexists; split; [reflexivity|]. simpl.
  repeat split.
  - unfold get_parent; simpl.
    rewrite N.land_lor_distr_l, land_not_redbit by assumption.
    rewrite <- N.land_assoc, land_redbit_not_redbit, N.land_0_r. apply N.lor_0_r.
  - unfold is_red; simpl.
    rewrite N.land_lor_distr_l, land_redbit_small by assumption.
    rewrite <- N.land_assoc, N.land_diag. reflexivity.
Qed.

Lemma set_parent_err p n : max_nodes < p -> set_parent p n = Err Inconsistent.
Proof. intros Hp. unfold set_parent. destruct (N.ltb_spec max_nodes p); [reflexivity|lia]. Qed.

Lemma Node_new_parent e : get_parent (Node_new e) = Invalid.
Proof. unfold get_parent, Node_new; simpl. apply land_not_redbit. unfold Invalid. lia. Qed.

Lemma Node_new_black e : is_red (Node_new e) = false.
Proof.
  unfold is_red, Node_new; simpl. rewrite land_redbit_small by (unfold Invalid; lia).
  reflexivity.
Qed.

End Bits.


(** * Reasoning about the two monads *)

Section MonadFacts.
Context {S : Type}.

Lemma M_bind_ok {A B} (m : M S A) (k : A -> M S B) s r :
  (m ≫= k) s = Ok r <-> exists a s', m s = Ok (a, s') /\ k a s' = Ok r.
Proof.
  unfold mbind, M_bind. destruct (m s) as [[a s']|e]; split.
  - intros H. eauto.
  - intros (a0 & s0 & E & H). congruence.
  - discriminate.
  - intros (a0 & s0 & E & H). discriminate.
Qed.

Lemma M_bind_err {A B} (m : M S A) (k : A -> M S B) s e :
  (m ≫= k) s = Err e <->
  m s = Err e \/ exists a s', m s = Ok (a, s') /\ k a s' = Err e.
Proof.
  unfold mbind, M_bind. destruct (m s) as [[a s']|e0]; split.
  - intros H. right. eauto.
  - intros [H|(a0 & s0 & E & H)]; congruence.
  - intros H. left. congruence.
  - intros [H|(a0 & s0 & E & H)]; congruence.
Qed.

Lemma R_bind_ok {A B} (m : R S A) (k : A -> R S B) s r :
  (m ≫= k) s = Ok r <-> exists a, m s = Ok a /\ k a s = Ok r.
Proof.
  unfold mbind, R_bind. destruct (m s) as [a|e]; split.
  - intros H. eauto.
  - intros (a0 & E & H). congruence.
  - discriminate.
  - intros (a0 & E & H). discriminate.
Qed.

Lemma R_bind_err {A B} (m : R S A) (k : A -> R S B) s e :
  (m ≫= k) s = Err e <-> m s = Err e \/ exists a, m s = Ok a /\ k a s = Err e.
Proof.
  unfold mbind, R_bind. destruct (m s) as [a|e0]; split.
  - intros H. right. eauto.
  - intros [H|(a0 & E & H)]; congruence.
  - intros H. left. congruence.
  - intros [H|(a0 & E & H)]; congruence.
Qed.

Lemma liftR_ok {A} (r : R S A) s a s' :
  liftR r s = Ok (a, s') <-> r s = Ok a /\ s' = s.
Proof.
  unfold liftR. destruct (r s); split; intros H.
  - inversion H; subst; auto.
  - destruct H as [H ->]. congruence.
  - discriminate.
  - destruct H; discriminate.
Qed.

Lemma liftR_err {A} (r : R S A) s e : liftR r s = Err e <-> r s = Err e.
Proof. unfold liftR. destruct (r s); split; intros H; congruence. Qed.

Lemma lift_result_ok {A} (r : result A) (s : S) a s' :
  lift_result r s = Ok (a, s') <-> r = Ok a /\ s' = s.
Proof.
  unfold lift_result. destruct r; split; intros H.
  - inversion H; subst; auto.
  - destruct H as [H ->]. congruence.
  - discriminate.
  - destruct H; discriminate.
Qed.

Lemma M_ret_ok {A} (a : A) (s : S) r : mret (M := M S) a s = Ok r <-> r = (a, s).
Proof. unfold mret, M_ret. split; intros H; congruence. Qed.

(** Bind evaluated when the first computation is known. *)
Lemma M_bind_step {A B} (m : M S A) (k : A -> M S B) s a s' :
  m s = Ok (a, s') -> (m ≫= k) s = k a s'.
Proof. intros H. unfold mbind, M_bind. rewrite H. reflexivity. Qed.

Lemma M_bind_fail {A B} (m : M S A) (k : A -> M S B) s e :
  m s = Err e -> (m ≫= k) s = Err e.
Proof. intros H. unfold mbind, M_bind. rewrite H. reflexivity. Qed.

Lemma R_bind_step {A B} (m : R S A) (k : A -> R S B) s a :
  m s = Ok a -> (m ≫= k) s = k a s.
Proof. intros H. unfold mbind, R_bind. rewrite H. reflexivity. Qed.

Lemma liftR_step {A} (r : R S A) s a : r s = Ok a -> liftR r s = Ok (a, s).
Proof. intros H. unfold liftR. rewrite H. reflexivity. Qed.

Lemma M_bind_inv {A B} (m : M S A) (k : A -> M S B) s r :
  (m ≫= k) s = Ok r -> exists a s', m s = Ok (a, s') /\ k a s' = Ok r.
Proof. apply M_bind_ok. Qed.
Lemma R_bind_inv {A B} (m : R S A) (k : A -> R S B) s r :
  (m ≫= k) s = Ok r -> exists a, m s = Ok a /\ k a s = Ok r.
Proof. apply R_bind_ok. Qed.
Lemma liftR_inv {A} (r : R S A) s a s' :
  liftR r s = Ok (a, s') -> r s = Ok a /\ s' = s.
Proof. apply liftR_ok. Qed.
Lemma lift_result_inv {A} (r : result A) (s : S) a s' :
  lift_result r s = Ok (a, s') -> r = Ok a /\ s' = s.
Proof. apply lift_result_ok. Qed.
Lemma M_ret_inv {A} (a : A) (s : S) r : mret (M := M S) a s = Ok r -> r = (a, s).
Proof. apply M_ret_ok. Qed.
Lemma R_ret_inv {A} (a : A) (s : S) r : mret (M := R S) a s = Ok r -> r = a.
Proof. unfold mret, R_ret. congruence. Qed.


Lemma raises_bind {A B} (m : M S A) (k : A -> M S B) E :
  raises m E -> (forall a, raises (k a) E) -> raises (m ≫= k) E.
Proof.
  intros Hm Hk s e H. apply M_bind_err in H as [H|(a & s' & _ & H)].
  - exact (Hm _ _ H).
  - exact (Hk _ _ _ H).
Qed.

Lemma raisesR_bind {A B} (m : R S A) (k : A -> R S B) E :
  raisesR m E -> (forall a, raisesR (k a) E) -> raisesR (m ≫= k) E.
Proof.
  intros Hm Hk s e H. apply R_bind_err in H as [H|(a & _ & H)].
  - exact (Hm _ _ H).
  - exact (Hk _ _ _ H).
Qed.

Lemma raises_ret {A} (a : A) E : raises (S := S) (mret a) E.
Proof. intros s e H. discriminate. Qed.
Lemma raisesR_ret {A} (a : A) E : raisesR (S := S) (mret a) E.
Proof. intros s e H. discriminate. Qed.

Lemma raises_liftR {A} (r : R S A) E : raisesR r E -> raises (liftR r) E.
Proof. intros Hr s e H. apply -> (@liftR_err A) in H. exact (Hr _ _ H). Qed.

Lemma raises_throw {A} e (E : error -> Prop) :
  E e -> raises (S := S) (throw (A := A) e) E.
Proof. intros He s e' H. unfold throw in H. congruence. Qed.

Lemma raises_whenM b (m : M S unit) E : raises m E -> raises (whenM b m) E.
Proof. intros Hm. destruct b; simpl; [assumption|apply raises_ret]. Qed.

Lemma raises_weaken {A} (m : M S A) (E E' : error -> Prop) :
  raises m E -> (forall e, E e -> E' e) -> raises m E'.
Proof. intros Hm HE s e H. eauto. Qed.

End MonadFacts.

(** Inversion of a successful run, one bind at a time. *)
Ltac minv H :=
  lazymatch type of H with
  | (_ ≫= _) _ = Ok _ =>
      first
        [ let a := fresh "a" in let s := fresh "s" in
          let E := fresh "E" in
          apply M_bind_inv in H; destruct H as (a & s & E & H)
        | let a := fresh "a" in let E := fresh "E" in
          apply R_bind_inv in H; destruct H as (a & E & H) ]
  | liftR _ _ = Ok _ => apply liftR_inv in H; destruct H as [H ?]
  | lift_result _ _ = Ok _ => apply lift_result_inv in H; destruct H as [H ?]
  | mret _ _ = Ok _ => first [apply M_ret_inv in H | apply R_ret_inv in H]
  end.


(** * The node vector and the allocator *)

Section Alloc.
Context `{P : OrbParams}.
Local Open Scope N_scope.

Lemma in_bounds_lt {A} (l : list A) i :
  in_bounds l i = true <-> (N.to_nat i < length l)%nat.
Proof. unfold in_bounds. rewrite N.ltb_lt. lia. Qed.

Lemma at_index_Some {A} (l : list A) i a :
  at_index l i = Some a -> in_bounds l i = true /\ l !! N.to_nat i = Some a.
Proof. unfold at_index. destruct (in_bounds l i); [auto|discriminate]. Qed.

Lemma at_index_valid {A} (l : list A) i :
  in_bounds l i = true -> exists a, at_index l i = Some a.
Proof.
  intros H. unfold at_index. rewrite H.
  apply in_bounds_lt in H. apply lookup_lt_is_Some_2 in H as [a Ha]. eauto.
Qed.

Lemma get_node_valid t x : valid t x -> get_node x t = Ok (nd t x).
Proof.
  intros H. unfold get_node, nd.
  destruct (at_index_valid _ _ H) as [a ->]. reflexivity.
Qed.

Lemma get_node_ok t x n : get_node x t = Ok n -> valid t x /\ n = nd t x.
Proof.
  unfold get_node, nd, valid. destruct (at_index (nodes t) x) eqn:E; simpl; [|discriminate].
  intros H. inversion H; subst. apply at_index_Some in E. tauto.
Qed.

Lemma put_node_valid t x n : valid t x -> put_node x n t = Ok (tt, upd t x n).
Proof. intros H. unfold put_node. rewrite H. reflexivity. Qed.

Lemma put_node_ok t x n r : put_node x n t = Ok r -> valid t x /\ r = (tt, upd t x n).
Proof.
  unfold put_node, valid. destruct (in_bounds (nodes t) x); [|discriminate].
  intros H. inversion H. auto.
Qed.

Lemma modify_node_valid t x g :
  valid t x -> modify_node x g t = Ok (tt, upd t x (g (nd t x))).
Proof.
  intros H. unfold modify_node.
  rewrite (M_bind_step _ _ _ _ _ (liftR_step _ _ _ (get_node_valid _ _ H))).
  apply put_node_valid, H.
Qed.

Lemma modify_node_ok t x g r :
  modify_node x g t = Ok r -> valid t x /\ r = (tt, upd t x (g (nd t x))).
Proof.
  intros H. unfold modify_node in H. minv H. minv E. subst.
  apply get_node_ok in E as [Hv ->]. apply put_node_ok in H as [_ ->]. auto.
Qed.

Lemma modify_node_r_ok t x g r :
  modify_node_r x g t = Ok r ->
  exists n', valid t x /\ g (nd t x) = Ok n' /\ r = (tt, upd t x n').
Proof.
  intros H. unfold modify_node_r in H. minv H. minv E. subst. minv H. minv E0. subst.
  apply get_node_ok in E as [Hv ->]. apply put_node_ok in H as [_ ->]. eauto.
Qed.

Lemma modify_node_r_valid t x g n' :
  valid t x -> g (nd t x) = Ok n' -> modify_node_r x g t = Ok (tt, upd t x n').
Proof.
  intros H Hg. unfold modify_node_r.
  rewrite (M_bind_step _ _ _ _ _ (liftR_step _ _ _ (get_node_valid _ _ H))).
  unfold mbind at 1, M_bind, lift_result. rewrite Hg.
  apply put_node_valid, H.
Qed.

(** Fields of an updated state. *)
Lemma valid_upd t x n y : valid (upd t x n) y <-> valid t y.
Proof. unfold valid, upd, in_bounds; simpl. rewrite length_insert. tauto. Qed.

Lemma nd_upd_eq t x n : valid t x -> nd (upd t x n) x = n.
Proof.
  intros H. unfold nd, at_index, upd; simpl.
  unfold valid in H. unfold in_bounds in *. rewrite length_insert, H.
  rewrite list_lookup_insert_eq; [reflexivity|]. apply N.ltb_lt in H. lia.
Qed.

Lemma nd_upd_ne t x n y : y <> x -> nd (upd t x n) y = nd t y.
Proof.
  intros H. unfold nd, at_index, upd, in_bounds; simpl. rewrite length_insert.
  destruct (y <? N.of_nat (length (nodes t))); [|reflexivity].
  rewrite list_lookup_insert_ne; [reflexivity|]. lia.
Qed.

Lemma nd_upd t x n y :
  valid t x -> nd (upd t x n) y = if decide (y = x) then n else nd t y.
Proof.
  intros H. destruct (decide (y = x)) as [->|Hne].
  - apply nd_upd_eq, H.
  - apply nd_upd_ne, Hne.
Qed.

Lemma length_nodes_upd t x n : length (nodes (upd t x n)) = length (nodes t).
Proof. unfold upd; simpl. apply length_insert. Qed.

Lemma valid_upd_eq t x n y : valid (upd t x n) y = valid t y.
Proof. unfold valid, upd, in_bounds; simpl. rewrite length_insert. reflexivity. Qed.

(** The other members do not take part in [valid] and [nd]. *)
Lemma valid_with_nvarray v t y : valid (with_nvarray v t) y = valid t y.
Proof. reflexivity. Qed.
Lemma valid_with_n_del v t y : valid (with_n_del v t) y = valid t y.
Proof. reflexivity. Qed.
Lemma valid_with_head v t y : valid (with_head v t) y = valid t y.
Proof. reflexivity. Qed.
Lemma valid_with_root v t y : valid (with_root v t) y = valid t y.
Proof. reflexivity. Qed.
Lemma valid_with_nil v t y : valid (with_nil v t) y = valid t y.
Proof. reflexivity. Qed.
Lemma valid_with_size1 v t y : valid (with_size1 v t) y = valid t y.
Proof. reflexivity. Qed.
Lemma nd_with_nvarray v t y : nd (with_nvarray v t) y = nd t y.
Proof. reflexivity. Qed.
Lemma nd_with_n_del v t y : nd (with_n_del v t) y = nd t y.
Proof. reflexivity. Qed.
Lemma nd_with_head v t y : nd (with_head v t) y = nd t y.
Proof. reflexivity. Qed.
Lemma nd_with_root v t y : nd (with_root v t) y = nd t y.
Proof. reflexivity. Qed.
Lemma nd_with_nil v t y : nd (with_nil v t) y = nd t y.
Proof. reflexivity. Qed.
Lemma nd_with_size1 v t y : nd (with_size1 v t) y = nd t y.
Proof. reflexivity. Qed.

Lemma get_state_inv t r : get_state t = Ok r -> r = (t, t).
Proof. unfold get_state. congruence. Qed.
Lemma modify_inv g t r : modify g t = Ok r -> r = (tt, g t).
Proof. unfold modify. congruence. Qed.

End Alloc.

(** Inversion of the primitive operations of a tree state. *)
Ltac pinv H :=
  lazymatch type of H with
  | get_state _ = Ok _ => apply get_state_inv in H; inversion H; subst; clear H
  | modify _ _ = Ok _ => apply modify_inv in H; inversion H; subst; clear H
  | modify_node _ _ _ = Ok _ =>
      let Hv := fresh "Hv" in
      apply modify_node_ok in H; destruct H as [Hv H]; inversion H; subst; clear H
  | modify_node_r _ _ _ = Ok _ =>
      let Hv := fresh "Hv" in let n := fresh "n" in let Hg := fresh "Hg" in
      apply modify_node_r_ok in H; destruct H as (n & Hv & Hg & H);
      inversion H; subst; clear H
  | put_node _ _ _ = Ok _ =>
      let Hv := fresh "Hv" in
      apply put_node_ok in H; destruct H as [Hv H]; inversion H; subst; clear H
  | get_node _ _ = Ok _ =>
      let Hv := fresh "Hv" in
      apply get_node_ok in H; destruct H as [Hv H]; subst
  | throw _ _ = Ok _ => discriminate H
  | throwR _ _ = Ok _ => discriminate H
  | Err _ = Ok _ => discriminate H
  | Ok _ = Ok _ => inversion H; subst; clear H
  | mret _ _ = Ok _ =>
      first [apply M_ret_inv in H | apply R_ret_inv in H];
      try (inversion H; subst; clear H)
  | _ => minv H
  end.

(** Inversion of a whole straight-line block. *)
Ltac pinv_all :=
  repeat match goal with
    | H : whenM ?b _ _ = Ok _ |- _ => unfold whenM in H; destruct b eqn:?
    | H : (if ?b then _ else _) _ = Ok _ |- _ => destruct b eqn:?
    | H : (match ?o with Some _ => _ | None => _ end) _ = Ok _ |- _ => destruct o eqn:?
    | H : (let '(_, _) := ?p in _) _ = Ok _ |- _ => destruct p
    | H : _ = Ok _ |- _ => progress pinv H
    end.

Create HintDb orb.
#[global] Hint Rewrite @valid_upd_eq @valid_with_nvarray @valid_with_n_del
  @valid_with_head @valid_with_root @valid_with_nil @valid_with_size1
  @nd_with_nvarray @nd_with_n_del @nd_with_head @nd_with_root @nd_with_nil
  @nd_with_size1 @length_nodes_upd : orb.

(** Projections of updated states. *)
Ltac st_simpl :=
  cbn [nodes nvarray n_del deleted_nodes_head root nil size1 upd
       with_nodes with_nvarray with_n_del with_head with_root with_nil with_size1
       fst snd] in *.

Section Alloc2.
Context `{P : OrbParams}.
Local Open Scope N_scope.

Lemma left_of_ok t x a : left_of x t = Ok a -> valid t x /\ a = get_left (nd t x).
Proof. intros H. unfold left_of in H. pinv_all. auto. Qed.
Lemma right_of_ok t x a : right_of x t = Ok a -> valid t x /\ a = get_right (nd t x).
Proof. intros H. unfold right_of in H. pinv_all. auto. Qed.
Lemma parent_of_ok t x a : parent_of x t = Ok a -> valid t x /\ a = get_parent (nd t x).
Proof. intros H. unfold parent_of in H. pinv_all. auto. Qed.

Lemma left_of_valid t x : valid t x -> left_of x t = Ok (get_left (nd t x)).
Proof.
  intros H. unfold left_of. rewrite (R_bind_step _ _ _ _ (get_node_valid _ _ H)).
  reflexivity.
Qed.
Lemma right_of_valid t x : valid t x -> right_of x t = Ok (get_right (nd t x)).
Proof.
  intros H. unfold right_of. rewrite (R_bind_step _ _ _ _ (get_node_valid _ _ H)).
  reflexivity.
Qed.
Lemma parent_of_valid t x : valid t x -> parent_of x t = Ok (get_parent (nd t x)).
Proof.
  intros H. unfold parent_of. rewrite (R_bind_step _ _ _ _ (get_node_valid _ _ H)).
  reflexivity.
Qed.

(** [free_node] makes [n] the head of the list of deleted nodes. *)
Lemma free_node_ok t n t' :
  free_node n t = Ok (tt, t') ->
  valid t n /\ deleted_nodes_head t' = n /\ n_del t' = size_t (n_del t + 1)
  /\ length (nodes t') = length (nodes t) /\ nvarray t' = nvarray t
  /\ root t' = root t /\ nil t' = nil t /\ size1 t' = size1 t.
Proof.
  intros H. unfold free_node in H. pinv_all; st_simpl;
    repeat match goal with H : valid (upd _ _ _) _ |- _ => apply valid_upd in H end;
    rewrite ?length_insert; auto 10.
Qed.

(** [new_node] takes the head of the list of deleted nodes when there is one. *)
Lemma new_node_reuse t e n t' :
  new_node e t = Ok (n, t') -> deleted_nodes_head t <> Invalid ->
  n = deleted_nodes_head t /\ valid t' n /\ nd t' n = Node_new e
  /\ length (nodes t') = length (nodes t).
Proof.
  intros H Hh. unfold new_node, try_get_node in H. pinv_all; st_simpl;
    autorewrite with orb in *;
    try (destruct (N.eqb_spec (deleted_nodes_head t) Invalid); [contradiction|discriminate]);
    (split; [reflexivity|split; [assumption|split]]);
    rewrite ?nd_upd_eq by (autorewrite with orb; assumption); rewrite ?length_insert; auto.
Qed.

(** Without deleted node, [new_node] appends unless the vector is full. *)
Lemma new_node_append t e :
  deleted_nodes_head t = Invalid ->
  let n := index_t (N.of_nat (length (nodes t))) in
  new_node e t =
    if n =? max_nodes then Err Capacity
    else Ok (n, with_nvarray
                  (resize (N.to_nat (size_t (size_t (index_t (n + 1)) * N.of_nat nv_per_node)))
                          0%Z (nvarray t))
                  (with_nodes (nodes t ++ [Node_new e]) t)).
Proof.
  intros Hh n. unfold new_node, try_get_node.
  unfold mbind, M_bind, get_state. rewrite Hh, N.eqb_refl. simpl.
  fold n. destruct (n =? max_nodes); reflexivity.
Qed.

Lemma raises_get_state E : raises get_state E.
Proof. intros t e H. discriminate. Qed.
Lemma raises_modify g E : raises (modify g) E.
Proof. intros t e H. discriminate. Qed.
Lemma raisesR_get_node x (E : error -> Prop) : E OutOfBounds -> raisesR (get_node x) E.
Proof.
  intros HE t e H. unfold get_node in H. destruct (at_index _ _); inversion H; subst; auto.
Qed.
Lemma raises_put_node x n (E : error -> Prop) : E OutOfBounds -> raises (put_node x n) E.
Proof.
  intros HE t e H. unfold put_node in H. destruct (in_bounds _ _); inversion H; subst; auto.
Qed.
Lemma raises_modify_node x g (E : error -> Prop) :
  E OutOfBounds -> raises (modify_node x g) E.
Proof.
  intros HE. unfold modify_node. apply raises_bind.
  - apply raises_liftR, raisesR_get_node, HE.
  - intros a. apply raises_put_node, HE.
Qed.
Lemma raises_set_parent x p (E : error -> Prop) :
  E OutOfBounds -> E Inconsistent -> raises (modify_node_r x (set_parent p)) E.
Proof.
  intros HE HI. unfold modify_node_r. apply raises_bind.
  - apply raises_liftR, raisesR_get_node, HE.
  - intros a. apply raises_bind.
    + intros t e H. unfold lift_result, set_parent in H.
      destruct (_ <? _); inversion H; subst; auto.
    + intros n. apply raises_put_node, HE.
Qed.
Lemma raisesR_left_of x (E : error -> Prop) : E OutOfBounds -> raisesR (left_of x) E.
Proof.
  intros HE. unfold left_of. apply raisesR_bind; [apply raisesR_get_node, HE|].
  intros a. apply raisesR_ret.
Qed.

Lemma try_get_node_raises :
  raises try_get_node (fun e => e = Inconsistent \/ e = OutOfBounds).
Proof.
  unfold try_get_node. apply raises_bind; [apply raises_get_state|]. intros t.
  destruct (negb _); [|apply raises_ret].
  destruct (n_del t =? 0); [apply raises_throw; auto|].
  apply raises_bind; [apply raises_modify|]. intros _.
  apply raises_bind; [apply raises_set_parent; auto|]. intros _.
  apply raises_bind; [apply raises_liftR, raisesR_left_of; auto|]. intros l.
  apply raises_bind; [apply raises_modify|]. intros _.
  apply raises_bind; [apply raises_whenM, raises_modify_node; auto|]. intros _.
  apply raises_ret.
Qed.

(** The capacity error: raised exactly when nothing can be reused and the
    vector already has [max_nodes] slots. *)
Lemma new_node_capacity t e :
  N.of_nat (length (nodes t)) < 2 ^ digits ->
  new_node e t = Err Capacity <->
  deleted_nodes_head t = Invalid /\ N.of_nat (length (nodes t)) = max_nodes.
Proof.
  intros Hlen.
  assert (Hix : index_t (N.of_nat (length (nodes t))) = N.of_nat (length (nodes t))).
  { unfold index_t. apply N.mod_small, Hlen. }
  split.
  - intros H. destruct (N.eq_dec (deleted_nodes_head t) Invalid) as [Hh|Hh].
    + split; [assumption|]. rewrite (new_node_append _ _ Hh) in H. simpl in H.
      rewrite Hix in H.
      destruct (N.eqb_spec (N.of_nat (length (nodes t))) max_nodes); [assumption|discriminate].
    + exfalso. unfold new_node in H.
      unfold mbind at 1, M_bind at 1, get_state in H.
      apply M_bind_err in H as [H|(a & s' & E & H)].
      * apply try_get_node_raises in H. destruct H; discriminate.
      * destruct a as [n'|].
        -- apply M_bind_err in H as [H|(a & s'' & E' & H)]; [|discriminate].
           unfold put_node in H. destruct (in_bounds _ _); discriminate.
        -- unfold try_get_node in E. apply M_bind_inv in E as (t0 & s0 & E0 & E).
           apply get_state_inv in E0. inversion E0; subst.
           rewrite (proj2 (N.eqb_neq _ _) Hh) in E. simpl in E.
           destruct (n_del _ =? 0); [discriminate|].
           pinv_all.
  - intros [Hh Hn]. rewrite (new_node_append _ _ Hh). simpl.
    rewrite Hix, Hn, N.eqb_refl. reflexivity.
Qed.

End Alloc2.


(** * Fields of updated states and the rules of [wp] *)

Section NodeFields.
Context `{P : OrbParams}.
Hypothesis PO : params_ok.
Local Open Scope N_scope.

Lemma digits_pos : 0 < digits.
Proof. apply PO. Qed.

Lemma set_parent_eq p n : p <= max_nodes -> set_parent p n = Ok (set_parent' p n).
Proof.
  intros Hp. unfold set_parent. destruct (N.ltb_spec max_nodes p); [lia|reflexivity].
Qed.

Lemma get_parent_set_parent' p n : p <= max_nodes -> get_parent (set_parent' p n) = p.
Proof.
  intros Hp. unfold get_parent, set_parent'; simpl.
  rewrite N.land_lor_distr_l, <- N.land_assoc, (land_redbit_not_redbit digits_pos).
  rewrite N.land_0_r, N.lor_0_r. apply (land_not_redbit digits_pos), Hp.
Qed.

Lemma is_red_set_parent' p n : p <= max_nodes -> is_red (set_parent' p n) = is_red n.
Proof.
  intros Hp. unfold is_red, set_parent'; simpl.
  rewrite N.land_lor_distr_l, (land_redbit_small digits_pos) by exact Hp.
  rewrite N.lor_0_l, <- N.land_assoc, N.land_diag. reflexivity.
Qed.

Lemma nd_upd_gen st x n z :
  nd (upd st x n) z =
    if decide (z = x) then (if in_bounds (nodes st) x then n else nd st x) else nd st z.
Proof.
  destruct (decide (z = x)) as [->|Hne]; [|apply nd_upd_ne, Hne].
  destruct (in_bounds (nodes st) x) eqn:E; [apply nd_upd_eq, E|].
  unfold nd, at_index, upd, in_bounds in *; simpl. rewrite length_insert, E. reflexivity.
Qed.

Lemma valid_le st x : valid st x -> N.of_nat (length (nodes st)) <= max_nodes -> x <= max_nodes.
Proof. unfold valid, in_bounds. rewrite N.ltb_lt. lia. Qed.

End NodeFields.

Ltac attr_other :=
  intros;
  unfold key_of, weight, lf, rt, pr, red, ent, set_lf, set_rt, set_pr, set_col, set_ent;
  rewrite nd_upd_gen;
  repeat match goal with
    | |- context [decide (?z = ?x)] => destruct (decide (z = x)); [subst|]
    | |- context [in_bounds ?l ?x] => destruct (in_bounds l x)
    | |- context [if ?r then set_red else set_black] => destruct r
    end;
  try reflexivity;
  first [ apply get_parent_set_red | apply get_parent_set_black ].

Section StateFields.
Context `{P : OrbParams}.
Hypothesis PO : params_ok.
Local Open Scope N_scope.

Lemma rt_set_lf st x v z : rt (set_lf st x v) z = rt st z.
Proof. attr_other; apply (digits_pos PO). Qed.
Lemma pr_set_lf st x v z : pr (set_lf st x v) z = pr st z.
Proof. attr_other; apply (digits_pos PO). Qed.
Lemma red_set_lf st x v z : red (set_lf st x v) z = red st z.
Proof. attr_other; apply (digits_pos PO). Qed.
Lemma ent_set_lf st x v z : ent (set_lf st x v) z = ent st z.
Proof. attr_other; apply (digits_pos PO). Qed.
Lemma key_of_set_lf st x v z : key_of (set_lf st x v) z = key_of st z.
Proof. attr_other; apply (digits_pos PO). Qed.
Lemma weight_set_lf st x v z : weight (set_lf st x v) z = weight st z.
Proof. attr_other; apply (digits_pos PO). Qed.
Lemma valid_set_lf st x v z : valid (set_lf st x v) z = valid st z.
Proof. apply valid_upd_eq. Qed.
Lemma node_sum_set_lf st x v z : node_sum (set_lf st x v) z = node_sum st z.
Proof. reflexivity. Qed.
Lemma nvarray_set_lf st x v : nvarray (set_lf st x v) = nvarray st.
Proof. reflexivity. Qed.
Lemma length_nodes_set_lf st x v : length (nodes (set_lf st x v)) = length (nodes st).
Proof. apply length_nodes_upd. Qed.
Lemma nil_set_lf st x v : nil (set_lf st x v) = nil st.
Proof. reflexivity. Qed.
Lemma root_set_lf st x v : root (set_lf st x v) = root st.
Proof. reflexivity. Qed.
Lemma size1_set_lf st x v : size1 (set_lf st x v) = size1 st.
Proof. reflexivity. Qed.
Lemma n_del_set_lf st x v : n_del (set_lf st x v) = n_del st.
Proof. reflexivity. Qed.
Lemma deleted_nodes_head_set_lf st x v : deleted_nodes_head (set_lf st x v) = deleted_nodes_head st.
Proof. reflexivity. Qed.
Lemma lf_set_rt st x v z : lf (set_rt st x v) z = lf st z.
Proof. attr_other; apply (digits_pos PO). Qed.
Lemma pr_set_rt st x v z : pr (set_rt st x v) z = pr st z.
Proof. attr_other; apply (digits_pos PO). Qed.
Lemma red_set_rt st x v z : red (set_rt st x v) z = red st z.
Proof. attr_other; apply (digits_pos PO). Qed.
Lemma ent_set_rt st x v z : ent (set_rt st x v) z = ent st z.
Proof. attr_other; apply (digits_pos PO). Qed.
Lemma key_of_set_rt st x v z : key_of (set_rt st x v) z = key_of st z.
Proof. attr_other; apply (digits_pos PO). Qed.
Lemma weight_set_rt st x v z : weight (set_rt st x v) z = weight st z.
Proof. attr_other; apply (digits_pos PO). Qed.
Lemma valid_set_rt st x v z : valid (set_rt st x v) z = valid st z.
Proof. apply valid_upd_eq. Qed.
Lemma node_sum_set_rt st x v z : node_sum (set_rt st x v) z = node_sum st z.
Proof. reflexivity. Qed.
Lemma nvarray_set_rt st x v : nvarray (set_rt st x v) = nvarray st.
Proof. reflexivity. Qed.
Lemma length_nodes_set_rt st x v : length (nodes (set_rt st x v)) = length (nodes st).
Proof. apply length_nodes_upd. Qed.
Lemma nil_set_rt st x v : nil (set_rt st x v) = nil st.
Proof. reflexivity. Qed.
Lemma root_set_rt st x v : root (set_rt st x v) = root st.
Proof. reflexivity. Qed.
Lemma size1_set_rt st x v : size1 (set_rt st x v) = size1 st.
Proof. reflexivity. Qed.
Lemma n_del_set_rt st x v : n_del (set_rt st x v) = n_del st.
Proof. reflexivity. Qed.
Lemma deleted_nodes_head_set_rt st x v : deleted_nodes_head (set_rt st x v) = deleted_nodes_head st.
Proof. reflexivity. Qed.
Lemma lf_set_pr st x v z : lf (set_pr st x v) z = lf st z.
Proof. attr_other; apply (digits_pos PO). Qed.
Lemma rt_set_pr st x v z : rt (set_pr st x v) z = rt st z.
Proof. attr_other; apply (digits_pos PO). Qed.
Lemma ent_set_pr st x v z : ent (set_pr st x v) z = ent st z.
Proof. attr_other; apply (digits_pos PO). Qed.
Lemma key_of_set_pr st x v z : key_of (set_pr st x v) z = key_of st z.
Proof. attr_other; apply (digits_pos PO). Qed.
Lemma weight_set_pr st x v z : weight (set_pr st x v) z = weight st z.
Proof. attr_other; apply (digits_pos PO). Qed.
Lemma valid_set_pr st x v z : valid (set_pr st x v) z = valid st z.
Proof. apply valid_upd_eq. Qed.
Lemma node_sum_set_pr st x v z : node_sum (set_pr st x v) z = node_sum st z.
Proof. reflexivity. Qed.
Lemma nvarray_set_pr st x v : nvarray (set_pr st x v) = nvarray st.
Proof. reflexivity. Qed.
Lemma length_nodes_set_pr st x v : length (nodes (set_pr st x v)) = length (nodes st).
Proof. apply length_nodes_upd. Qed.
Lemma nil_set_pr st x v : nil (set_pr st x v) = nil st.
Proof. reflexivity. Qed.
Lemma root_set_pr st x v : root (set_pr st x v) = root st.
Proof. reflexivity. Qed.
Lemma size1_set_pr st x v : size1 (set_pr st x v) = size1 st.
Proof. reflexivity. Qed.
Lemma n_del_set_pr st x v : n_del (set_pr st x v) = n_del st.
Proof. reflexivity. Qed.
Lemma deleted_nodes_head_set_pr st x v : deleted_nodes_head (set_pr st x v) = deleted_nodes_head st.
Proof. reflexivity. Qed.
Lemma lf_set_col st x v z : lf (set_col st x v) z = lf st z.
Proof. attr_other; apply (digits_pos PO). Qed.
Lemma rt_set_col st x v z : rt (set_col st x v) z = rt st z.
Proof. attr_other; apply (digits_pos PO). Qed.
Lemma pr_set_col st x v z : pr (set_col st x v) z = pr st z.
Proof. attr_other; apply (digits_pos PO). Qed.
Lemma ent_set_col st x v z : ent (set_col st x v) z = ent st z.
Proof. attr_other; apply (digits_pos PO). Qed.
Lemma key_of_set_col st x v z : key_of (set_col st x v) z = key_of st z.
Proof. attr_other; apply (digits_pos PO). Qed.
Lemma weight_set_col st x v z : weight (set_col st x v) z = weight st z.
Proof. attr_other; apply (digits_pos PO). Qed.
Lemma valid_set_col st x v z : valid (set_col st x v) z = valid st z.
Proof. apply valid_upd_eq. Qed.
Lemma node_sum_set_col st x v z : node_sum (set_col st x v) z = node_sum st z.
Proof. reflexivity. Qed.
Lemma nvarray_set_col st x v : nvarray (set_col st x v) = nvarray st.
Proof. reflexivity. Qed.
Lemma length_nodes_set_col st x v : length (nodes (set_col st x v)) = length (nodes st).
Proof. apply length_nodes_upd. Qed.
Lemma nil_set_col st x v : nil (set_col st x v) = nil st.
Proof. reflexivity. Qed.
Lemma root_set_col st x v : root (set_col st x v) = root st.
Proof. reflexivity. Qed.
Lemma size1_set_col st x v : size1 (set_col st x v) = size1 st.
Proof. reflexivity. Qed.
Lemma n_del_set_col st x v : n_del (set_col st x v) = n_del st.
Proof. reflexivity. Qed.
Lemma deleted_nodes_head_set_col st x v : deleted_nodes_head (set_col st x v) = deleted_nodes_head st.
Proof. reflexivity. Qed.
Lemma lf_set_ent st x v z : lf (set_ent st x v) z = lf st z.
Proof. attr_other; apply (digits_pos PO). Qed.
Lemma rt_set_ent st x v z : rt (set_ent st x v) z = rt st z.
Proof. attr_other; apply (digits_pos PO). Qed.
Lemma pr_set_ent st x v z : pr (set_ent st x v) z = pr st z.
Proof. attr_other; apply (digits_pos PO). Qed.
Lemma red_set_ent st x v z : red (set_ent st x v) z = red st z.
Proof. attr_other; apply (digits_pos PO). Qed.
Lemma valid_set_ent st x v z : valid (set_ent st x v) z = valid st z.
Proof. apply valid_upd_eq. Qed.
Lemma node_sum_set_ent st x v z : node_sum (set_ent st x v) z = node_sum st z.
Proof. reflexivity. Qed.
Lemma nvarray_set_ent st x v : nvarray (set_ent st x v) = nvarray st.
Proof. reflexivity. Qed.
Lemma length_nodes_set_ent st x v : length (nodes (set_ent st x v)) = length (nodes st).
Proof. apply length_nodes_upd. Qed.
Lemma nil_set_ent st x v : nil (set_ent st x v) = nil st.
Proof. reflexivity. Qed.
Lemma root_set_ent st x v : root (set_ent st x v) = root st.
Proof. reflexivity. Qed.
Lemma size1_set_ent st x v : size1 (set_ent st x v) = size1 st.
Proof. reflexivity. Qed.
Lemma n_del_set_ent st x v : n_del (set_ent st x v) = n_del st.
Proof. reflexivity. Qed.
Lemma deleted_nodes_head_set_ent st x v : deleted_nodes_head (set_ent st x v) = deleted_nodes_head st.
Proof. reflexivity. Qed.
Lemma lf_set_sum st x v z : lf (set_sum st x v) z = lf st z.
Proof. reflexivity. Qed.
Lemma rt_set_sum st x v z : rt (set_sum st x v) z = rt st z.
Proof. reflexivity. Qed.
Lemma pr_set_sum st x v z : pr (set_sum st x v) z = pr st z.
Proof. reflexivity. Qed.
Lemma red_set_sum st x v z : red (set_sum st x v) z = red st z.
Proof. reflexivity. Qed.
Lemma ent_set_sum st x v z : ent (set_sum st x v) z = ent st z.
Proof. reflexivity. Qed.
Lemma key_of_set_sum st x v z : key_of (set_sum st x v) z = key_of st z.
Proof. reflexivity. Qed.
Lemma weight_set_sum st x v z : weight (set_sum st x v) z = weight st z.
Proof. reflexivity. Qed.
Lemma valid_set_sum st x v z : valid (set_sum st x v) z = valid st z.
Proof. reflexivity. Qed.
Lemma nodes_set_sum st x v : nodes (set_sum st x v) = nodes st.
Proof. reflexivity. Qed.
Lemma nil_set_sum st x v : nil (set_sum st x v) = nil st.
Proof. reflexivity. Qed.
Lemma root_set_sum st x v : root (set_sum st x v) = root st.
Proof. reflexivity. Qed.
Lemma size1_set_sum st x v : size1 (set_sum st x v) = size1 st.
Proof. reflexivity. Qed.
Lemma n_del_set_sum st x v : n_del (set_sum st x v) = n_del st.
Proof. reflexivity. Qed.
Lemma deleted_nodes_head_set_sum st x v : deleted_nodes_head (set_sum st x v) = deleted_nodes_head st.
Proof. reflexivity. Qed.
Lemma lf_with_size1 v st z : lf (with_size1 v st) z = lf st z.
Proof. reflexivity. Qed.
Lemma rt_with_size1 v st z : rt (with_size1 v st) z = rt st z.
Proof. reflexivity. Qed.
Lemma pr_with_size1 v st z : pr (with_size1 v st) z = pr st z.
Proof. reflexivity. Qed.
Lemma red_with_size1 v st z : red (with_size1 v st) z = red st z.
Proof. reflexivity. Qed.
Lemma ent_with_size1 v st z : ent (with_size1 v st) z = ent st z.
Proof. reflexivity. Qed.
Lemma key_of_with_size1 v st z : key_of (with_size1 v st) z = key_of st z.
Proof. reflexivity. Qed.
Lemma weight_with_size1 v st z : weight (with_size1 v st) z = weight st z.
Proof. reflexivity. Qed.
Lemma node_sum_with_size1 v st z : node_sum (with_size1 v st) z = node_sum st z.
Proof. reflexivity. Qed.
Lemma lf_with_n_del v st z : lf (with_n_del v st) z = lf st z.
Proof. reflexivity. Qed.
Lemma rt_with_n_del v st z : rt (with_n_del v st) z = rt st z.
Proof. reflexivity. Qed.
Lemma pr_with_n_del v st z : pr (with_n_del v st) z = pr st z.
Proof. reflexivity. Qed.
Lemma red_with_n_del v st z : red (with_n_del v st) z = red st z.
Proof. reflexivity. Qed.
Lemma ent_with_n_del v st z : ent (with_n_del v st) z = ent st z.
Proof. reflexivity. Qed.
Lemma key_of_with_n_del v st z : key_of (with_n_del v st) z = key_of st z.
Proof. reflexivity. Qed.
Lemma weight_with_n_del v st z : weight (with_n_del v st) z = weight st z.
Proof. reflexivity. Qed.
Lemma node_sum_with_n_del v st z : node_sum (with_n_del v st) z = node_sum st z.
Proof. reflexivity. Qed.
Lemma lf_with_head v st z : lf (with_head v st) z = lf st z.
Proof. reflexivity. Qed.
Lemma rt_with_head v st z : rt (with_head v st) z = rt st z.
Proof. reflexivity. Qed.
Lemma pr_with_head v st z : pr (with_head v st) z = pr st z.
Proof. reflexivity. Qed.
Lemma red_with_head v st z : red (with_head v st) z = red st z.
Proof. reflexivity. Qed.
Lemma ent_with_head v st z : ent (with_head v st) z = ent st z.
Proof. reflexivity. Qed.
Lemma key_of_with_head v st z : key_of (with_head v st) z = key_of st z.
Proof. reflexivity. Qed.
Lemma weight_with_head v st z : weight (with_head v st) z = weight st z.
Proof. reflexivity. Qed.
Lemma node_sum_with_head v st z : node_sum (with_head v st) z = node_sum st z.
Proof. reflexivity. Qed.


Lemma key_of_set_ent st x v z : key_of (set_ent st x v) z = key_of st z.
Proof.
  unfold key_of, ent, set_ent. rewrite nd_upd_gen.
  destruct (decide (z = x)); [subst|reflexivity]. destruct (in_bounds _ _); reflexivity.
Qed.

Lemma lf_set_lf st x v z :
  valid st x -> lf (set_lf st x v) z = if decide (z = x) then v else lf st z.
Proof. intros H. unfold lf, set_lf. rewrite nd_upd by exact H. destruct (decide _); reflexivity. Qed.
Lemma rt_set_rt st x v z :
  valid st x -> rt (set_rt st x v) z = if decide (z = x) then v else rt st z.
Proof. intros H. unfold rt, set_rt. rewrite nd_upd by exact H. destruct (decide _); reflexivity. Qed.
Lemma pr_set_pr st x v z :
  valid st x -> v <= max_nodes ->
  pr (set_pr st x v) z = if decide (z = x) then v else pr st z.
Proof.
  intros H Hv. unfold pr, set_pr. rewrite nd_upd by exact H.
  destruct (decide _); [apply (get_parent_set_parent' PO), Hv|reflexivity].
Qed.
Lemma red_set_pr st x v z : v <= max_nodes -> red (set_pr st x v) z = red st z.
Proof.
  intros Hv. unfold red, set_pr. rewrite nd_upd_gen.
  destruct (decide _); [subst|reflexivity].
  destruct (in_bounds _ _); [apply (is_red_set_parent' PO), Hv|reflexivity].
Qed.
Lemma red_set_col st x v z :
  valid st x -> red (set_col st x v) z = if decide (z = x) then v else red st z.
Proof.
  intros H. unfold red, set_col. rewrite nd_upd by exact H.
  destruct (decide _); [|reflexivity].
  destruct v; [apply (is_red_set_red (digits_pos PO))|apply (is_red_set_black (digits_pos PO))].
Qed.
Lemma ent_set_ent st x v z :
  valid st x ->
  ent (set_ent st x v) z = if decide (z = x) then (key_of st x, v) else ent st z.
Proof. intros H. unfold ent, set_ent. rewrite nd_upd by exact H. destruct (decide _); reflexivity. Qed.

End StateFields.

(** More fields. *)
Section StateFields2.
Context `{P : OrbParams}.
Local Open Scope N_scope.

Lemma nv_ok_set_lf st x v : nv_ok (set_lf st x v) = nv_ok st.
Proof. unfold nv_ok. rewrite length_nodes_set_lf. reflexivity. Qed.
Lemma child_sum_set_lf st x v z : child_sum (set_lf st x v) z = child_sum st z.
Proof. reflexivity. Qed.
Lemma nv_ok_set_rt st x v : nv_ok (set_rt st x v) = nv_ok st.
Proof. unfold nv_ok. rewrite length_nodes_set_rt. reflexivity. Qed.
Lemma child_sum_set_rt st x v z : child_sum (set_rt st x v) z = child_sum st z.
Proof. reflexivity. Qed.
Lemma nv_ok_set_pr st x v : nv_ok (set_pr st x v) = nv_ok st.
Proof. unfold nv_ok. rewrite length_nodes_set_pr. reflexivity. Qed.
Lemma child_sum_set_pr st x v z : child_sum (set_pr st x v) z = child_sum st z.
Proof. reflexivity. Qed.
Lemma nv_ok_set_col st x v : nv_ok (set_col st x v) = nv_ok st.
Proof. unfold nv_ok. rewrite length_nodes_set_col. reflexivity. Qed.
Lemma child_sum_set_col st x v z : child_sum (set_col st x v) z = child_sum st z.
Proof. reflexivity. Qed.
Lemma nv_ok_set_ent st x v : nv_ok (set_ent st x v) = nv_ok st.
Proof. unfold nv_ok. rewrite length_nodes_set_ent. reflexivity. Qed.
Lemma child_sum_set_ent st x v z : child_sum (set_ent st x v) z = child_sum st z.
Proof. reflexivity. Qed.
Lemma nv_ok_with_size1 v st : nv_ok (with_size1 v st) = nv_ok st.
Proof. reflexivity. Qed.
Lemma child_sum_with_size1 v st z : child_sum (with_size1 v st) z = child_sum st z.
Proof. reflexivity. Qed.
Lemma nil_with_size1 v st : nil (with_size1 v st) = nil st.
Proof. reflexivity. Qed.
Lemma root_with_size1 v st : root (with_size1 v st) = root st.
Proof. reflexivity. Qed.
Lemma nvarray_with_size1 v st : nvarray (with_size1 v st) = nvarray st.
Proof. reflexivity. Qed.
Lemma n_del_with_size1 v st : n_del (with_size1 v st) = n_del st.
Proof. reflexivity. Qed.
Lemma deleted_nodes_head_with_size1 v st : deleted_nodes_head (with_size1 v st) = deleted_nodes_head st.
Proof. reflexivity. Qed.
Lemma nodes_with_size1 v st : nodes (with_size1 v st) = nodes st.
Proof. reflexivity. Qed.
Lemma nv_ok_with_n_del v st : nv_ok (with_n_del v st) = nv_ok st.
Proof. reflexivity. Qed.
Lemma child_sum_with_n_del v st z : child_sum (with_n_del v st) z = child_sum st z.
Proof. reflexivity. Qed.
Lemma nil_with_n_del v st : nil (with_n_del v st) = nil st.
Proof. reflexivity. Qed.
Lemma root_with_n_del v st : root (with_n_del v st) = root st.
Proof. reflexivity. Qed.
Lemma nvarray_with_n_del v st : nvarray (with_n_del v st) = nvarray st.
Proof. reflexivity. Qed.
Lemma size1_with_n_del v st : size1 (with_n_del v st) = size1 st.
Proof. reflexivity. Qed.
Lemma deleted_nodes_head_with_n_del v st : deleted_nodes_head (with_n_del v st) = deleted_nodes_head st.
Proof. reflexivity. Qed.
Lemma nodes_with_n_del v st : nodes (with_n_del v st) = nodes st.
Proof. reflexivity. Qed.
Lemma nv_ok_with_head v st : nv_ok (with_head v st) = nv_ok st.
Proof. reflexivity. Qed.
Lemma child_sum_with_head v st z : child_sum (with_head v st) z = child_sum st z.
Proof. reflexivity. Qed.
Lemma nil_with_head v st : nil (with_head v st) = nil st.
Proof. reflexivity. Qed.
Lemma root_with_head v st : root (with_head v st) = root st.
Proof. reflexivity. Qed.
Lemma nvarray_with_head v st : nvarray (with_head v st) = nvarray st.
Proof. reflexivity. Qed.
Lemma size1_with_head v st : size1 (with_head v st) = size1 st.
Proof. reflexivity. Qed.
Lemma n_del_with_head v st : n_del (with_head v st) = n_del st.
Proof. reflexivity. Qed.
Lemma nodes_with_head v st : nodes (with_head v st) = nodes st.
Proof. reflexivity. Qed.

End StateFields2.

Create HintDb attr.
#[global] Hint Rewrite @rt_set_lf @pr_set_lf @red_set_lf @ent_set_lf @key_of_set_lf @weight_set_lf @valid_set_lf @node_sum_set_lf @nvarray_set_lf @length_nodes_set_lf @nil_set_lf @root_set_lf @size1_set_lf @n_del_set_lf @deleted_nodes_head_set_lf @lf_set_rt @pr_set_rt @red_set_rt @ent_set_rt @key_of_set_rt @weight_set_rt @valid_set_rt @node_sum_set_rt @nvarray_set_rt @length_nodes_set_rt @nil_set_rt @root_set_rt @size1_set_rt @n_del_set_rt @deleted_nodes_head_set_rt @lf_set_pr @rt_set_pr @ent_set_pr @key_of_set_pr @weight_set_pr @valid_set_pr @node_sum_set_pr @nvarray_set_pr @length_nodes_set_pr @nil_set_pr @root_set_pr @size1_set_pr @n_del_set_pr @deleted_nodes_head_set_pr @lf_set_col @rt_set_col @ent_set_col @key_of_set_col @weight_set_col @valid_set_col @node_sum_set_col @nvarray_set_col @length_nodes_set_col @nil_set_col @root_set_col @size1_set_col @n_del_set_col @deleted_nodes_head_set_col @lf_set_ent @rt_set_ent @pr_set_ent @red_set_ent @valid_set_ent @node_sum_set_ent @nvarray_set_ent @length_nodes_set_ent @nil_set_ent @root_set_ent @size1_set_ent @n_del_set_ent @deleted_nodes_head_set_ent @lf_set_sum @rt_set_sum @pr_set_sum @red_set_sum @ent_set_sum @key_of_set_sum @weight_set_sum @valid_set_sum @nodes_set_sum @nil_set_sum @root_set_sum @size1_set_sum @n_del_set_sum @deleted_nodes_head_set_sum @lf_with_size1 @rt_with_size1 @pr_with_size1 @red_with_size1 @ent_with_size1 @key_of_with_size1 @weight_with_size1 @valid_with_size1 @node_sum_with_size1 @lf_with_n_del @rt_with_n_del @pr_with_n_del @red_with_n_del @ent_with_n_del @key_of_with_n_del @weight_with_n_del @valid_with_n_del @node_sum_with_n_del @lf_with_head @rt_with_head @pr_with_head @red_with_head @ent_with_head @key_of_with_head @weight_with_head @valid_with_head @node_sum_with_head @nv_ok_set_lf @child_sum_set_lf @nv_ok_set_rt @child_sum_set_rt @nv_ok_set_pr @child_sum_set_pr @nv_ok_set_col @child_sum_set_col @nv_ok_set_ent @child_sum_set_ent @nv_ok_with_size1 @child_sum_with_size1 @nil_with_size1 @root_with_size1 @nvarray_with_size1 @n_del_with_size1 @deleted_nodes_head_with_size1 @nodes_with_size1 @nv_ok_with_n_del @child_sum_with_n_del @nil_with_n_del @root_with_n_del @nvarray_with_n_del @size1_with_n_del @deleted_nodes_head_with_n_del @nodes_with_n_del @nv_ok_with_head @child_sum_with_head @nil_with_head @root_with_head @nvarray_with_head @size1_with_head @n_del_with_head @nodes_with_head @key_of_set_ent : attr.
#[global] Hint Rewrite @valid_upd_eq @length_nodes_upd : attr.

(** ** The stored sums *)

Section Sums.
Context `{P : OrbParams}.
Hypothesis PO : params_ok.
Local Open Scope N_scope.

Lemma max_nodes_lt : max_nodes < 2 ^ 31.
Proof.
  pose proof (po_digits PO) as Hd. unfold max_nodes. rewrite (redbit_eq).
  assert (2 ^ (digits - 1) <= 2 ^ 31) by (apply N.pow_le_mono_r; lia).
  assert (0 < 2 ^ (digits - 1)) by (apply N.neq_0_lt_0, N.pow_nonzero; lia). lia.
Qed.

Lemma sum_base_eq x : x <= max_nodes -> sum_base x = x * N.of_nat nv_per_node.
Proof.
  intros Hx. pose proof max_nodes_lt. pose proof (po_nv PO) as Hn.
  unfold sum_base, size_t.
  rewrite (N.mod_small x) by lia.
  apply N.mod_small.
  assert (x * N.of_nat nv_per_node < 2 ^ 31 * 2 ^ 32) by (apply N.mul_lt_mono; lia).
  change (2 ^ 64) with (2 ^ 31 * 2 ^ 32 * 2). lia.
Qed.

Lemma read_range_take (l : list Z) (base : N) (count : nat) :
  (N.to_nat base + count <= length l)%nat ->
  read_range l base count = Some (take count (drop (N.to_nat base) l)).
Proof.
  revert base. induction count as [|c IH]; intros base Hlen; simpl.
  - reflexivity.
  - unfold at_index, in_bounds.
    destruct (N.ltb_spec base (N.of_nat (length l))) as [Hb|Hb]; [|lia].
    destruct (lookup_lt_is_Some_2 l (N.to_nat base)) as [v Hv]; [lia|].
    rewrite Hv. simpl. rewrite IH by lia. simpl.
    replace (N.to_nat (base + 1)) with (S (N.to_nat base)) by lia.
    rewrite (drop_S _ _ _ Hv). reflexivity.
Qed.

Lemma write_range_app (l : list Z) (base : N) (s : list Z) (count : nat) :
  length s = count -> (N.to_nat base + count <= length l)%nat ->
  write_range l base s count
  = Some (take (N.to_nat base) l ++ s ++ drop (N.to_nat base + count) l).
Proof.
  revert l base s. induction count as [|c IH]; intros l base s Hs Hlen.
  - destruct s; [|discriminate]. simpl. rewrite Nat.add_0_r, take_drop. reflexivity.
  - destruct s as [|v s]; [discriminate|]. simpl in Hs. simpl.
    unfold in_bounds. destruct (N.ltb_spec base (N.of_nat (length l))) as [Hb|Hb]; [|lia].
    rewrite IH; [|lia|rewrite length_insert; lia]. f_equal.
    replace (N.to_nat (base + 1)) with (S (N.to_nat base)) by lia.
    rewrite take_insert_lt by lia.
    rewrite drop_insert_lt by lia.
    assert (Hl : (N.to_nat base < length l)%nat) by lia.
    destruct (lookup_lt_is_Some_2 l (N.to_nat base) Hl) as [w Hw].
    rewrite (take_S_r _ _ _ Hw).
    rewrite insert_app_r_alt by (rewrite length_take; lia).
    rewrite length_take, Nat.min_l, Nat.sub_diag by lia. simpl.
    rewrite <- app_assoc. simpl.
    rewrite Nat.add_succ_r. reflexivity.
Qed.

Lemma slot_bound st x :
  nv_ok st -> valid st x ->
  (N.to_nat x * nv_per_node + nv_per_node <= length (nvarray st))%nat.
Proof.
  intros [Hl Hn] Hx. unfold valid, in_bounds in Hx. apply N.ltb_lt in Hx.
  rewrite Hn. nia.
Qed.

Lemma get_node_sum_eq st x :
  nv_ok st -> valid st x -> get_node_sum x st = Ok (node_sum st x).
Proof.
  intros Hok Hx. pose proof (slot_bound st x Hok Hx) as Hb.
  unfold get_node_sum, node_sum.
  rewrite sum_base_eq by (eapply valid_le; [exact Hx|apply Hok]).
  rewrite read_range_take; rewrite N2Nat.inj_mul, Nat2N.id; [reflexivity|lia].
Qed.

Lemma set_node_sum_eq st x s :
  nv_ok st -> valid st x -> length s = nv_per_node ->
  set_node_sum x s st = Ok (tt, set_sum st x s).
Proof.
  intros Hok Hx Hs. pose proof (slot_bound st x Hok Hx) as Hb.
  unfold set_node_sum, set_sum.
  rewrite sum_base_eq by (eapply valid_le; [exact Hx|apply Hok]).
  rewrite write_range_app; rewrite ?N2Nat.inj_mul, ?Nat2N.id; [reflexivity|exact Hs|lia].
Qed.

Lemma length_nvarray_set_sum st x s :
  nv_ok st -> valid st x -> length s = nv_per_node ->
  length (nvarray (set_sum st x s)) = length (nvarray st).
Proof.
  intros Hok Hx Hs. pose proof (slot_bound st x Hok Hx) as Hb.
  unfold set_sum; simpl. rewrite !length_app, length_take, length_drop. lia.
Qed.

Lemma nv_ok_set_sum st x s :
  nv_ok st -> valid st x -> length s = nv_per_node -> nv_ok (set_sum st x s).
Proof.
  intros Hok Hx Hs. split.
  - apply Hok.
  - rewrite length_nvarray_set_sum by assumption. apply Hok.
Qed.

Lemma node_sum_set_sum st x s z :
  nv_ok st -> valid st x -> valid st z -> length s = nv_per_node ->
  node_sum (set_sum st x s) z = if decide (z = x) then s else node_sum st z.
Proof.
  intros Hok Hx Hz Hs.
  pose proof (slot_bound st x Hok Hx) as Hbx. pose proof (slot_bound st z Hok Hz) as Hbz.
  unfold node_sum, set_sum; simpl.
  set (D := nv_per_node) in *. set (l := nvarray st) in *.
  destruct (decide (z = x)) as [->|Hne].
  - rewrite drop_app_length' by (rewrite length_take; lia).
    rewrite take_app_length' by (symmetry; exact Hs). reflexivity.
  - assert (Hc : (N.to_nat z < N.to_nat x \/ N.to_nat x < N.to_nat z)%nat) by lia.
    destruct Hc as [Hc|Hc].
    + assert ((N.to_nat z * D + D <= N.to_nat x * D)%nat) by nia.
      rewrite drop_app_le by (rewrite length_take; lia).
      rewrite take_app_le by (rewrite length_drop, length_take; lia).
      rewrite skipn_firstn_comm, take_take. f_equal. lia.
    + assert ((N.to_nat x * D + D <= N.to_nat z * D)%nat) by nia.
      rewrite drop_app_ge by (rewrite length_take; lia).
      rewrite length_take, Nat.min_l by lia.
      rewrite drop_app_ge by lia.
      rewrite Hs, drop_drop. do 2 f_equal. lia.
Qed.

Lemma in_range_set_sum st x s :
  nv_ok st -> valid st x ->
  Forall (in_range NVType) (nvarray st) -> Forall (in_range NVType) s ->
  Forall (in_range NVType) (nvarray (set_sum st x s)).
Proof.
  intros Hok Hx Hr Hs. unfold set_sum; simpl.
  rewrite !Forall_app. split; [apply Forall_take, Hr|]. split; [exact Hs|apply Forall_drop, Hr].
Qed.

Lemma in_range_node_sum st x :
  Forall (in_range NVType) (nvarray st) -> Forall (in_range NVType) (node_sum st x).
Proof. intros H. unfold node_sum. apply Forall_take, Forall_drop, H. Qed.

Lemma length_node_sum st x :
  nv_ok st -> valid st x -> length (node_sum st x) = nv_per_node.
Proof.
  intros Hok Hx. pose proof (slot_bound st x Hok Hx).
  unfold node_sum. rewrite length_take, length_drop. lia.
Qed.

End Sums.

(** Nodes other than the one written. *)
Section Untouched.
Context `{P : OrbParams}.
Local Open Scope N_scope.

Lemma nd_set_lf_ne st x v z : z <> x -> nd (set_lf st x v) z = nd st z.
Proof. apply nd_upd_ne. Qed.
Lemma nd_set_rt_ne st x v z : z <> x -> nd (set_rt st x v) z = nd st z.
Proof. apply nd_upd_ne. Qed.
Lemma nd_set_pr_ne st x v z : z <> x -> nd (set_pr st x v) z = nd st z.
Proof. apply nd_upd_ne. Qed.
Lemma nd_set_col_ne st x v z : z <> x -> nd (set_col st x v) z = nd st z.
Proof. apply nd_upd_ne. Qed.
Lemma nd_set_ent_ne st x v z : z <> x -> nd (set_ent st x v) z = nd st z.
Proof. apply nd_upd_ne. Qed.
Lemma nd_set_sum st x s z : nd (set_sum st x s) z = nd st z.
Proof. reflexivity. Qed.

End Untouched.

(** The conditional update of a parent link. *)
Section Conditional.
Context `{P : OrbParams}.
Hypothesis PO : params_ok.
Local Open Scope N_scope.

Lemma lf_set_pr_if st x v z : lf (set_pr_if st x v) z = lf st z.
Proof. unfold set_pr_if. destruct (x =? nil st); [reflexivity|]. apply lf_set_pr. Qed.
Lemma rt_set_pr_if st x v z : rt (set_pr_if st x v) z = rt st z.
Proof. unfold set_pr_if. destruct (x =? nil st); [reflexivity|]. apply rt_set_pr. Qed.
Lemma ent_set_pr_if st x v z : ent (set_pr_if st x v) z = ent st z.
Proof. unfold set_pr_if. destruct (x =? nil st); [reflexivity|]. apply ent_set_pr. Qed.
Lemma key_of_set_pr_if st x v z : key_of (set_pr_if st x v) z = key_of st z.
Proof. unfold set_pr_if. destruct (x =? nil st); [reflexivity|]. apply key_of_set_pr. Qed.
Lemma weight_set_pr_if st x v z : weight (set_pr_if st x v) z = weight st z.
Proof. unfold set_pr_if. destruct (x =? nil st); [reflexivity|]. apply weight_set_pr. Qed.
Lemma node_sum_set_pr_if st x v z : node_sum (set_pr_if st x v) z = node_sum st z.
Proof. unfold set_pr_if. destruct (x =? nil st); [reflexivity|]. apply node_sum_set_pr. Qed.
Lemma child_sum_set_pr_if st x v z : child_sum (set_pr_if st x v) z = child_sum st z.
Proof. unfold set_pr_if. destruct (x =? nil st); [reflexivity|]. apply child_sum_set_pr. Qed.
Lemma valid_set_pr_if st x v z : valid (set_pr_if st x v) z = valid st z.
Proof. unfold set_pr_if. destruct (x =? nil st); [reflexivity|]. apply valid_set_pr. Qed.
Lemma nil_set_pr_if st x v : nil (set_pr_if st x v) = nil st.
Proof. unfold set_pr_if. destruct (x =? nil st); [reflexivity|]. apply nil_set_pr. Qed.
Lemma root_set_pr_if st x v : root (set_pr_if st x v) = root st.
Proof. unfold set_pr_if. destruct (x =? nil st); [reflexivity|]. apply root_set_pr. Qed.
Lemma size1_set_pr_if st x v : size1 (set_pr_if st x v) = size1 st.
Proof. unfold set_pr_if. destruct (x =? nil st); [reflexivity|]. apply size1_set_pr. Qed.
Lemma n_del_set_pr_if st x v : n_del (set_pr_if st x v) = n_del st.
Proof. unfold set_pr_if. destruct (x =? nil st); [reflexivity|]. apply n_del_set_pr. Qed.
Lemma deleted_nodes_head_set_pr_if st x v : deleted_nodes_head (set_pr_if st x v) = deleted_nodes_head st.
Proof. unfold set_pr_if. destruct (x =? nil st); [reflexivity|]. apply deleted_nodes_head_set_pr. Qed.
Lemma nvarray_set_pr_if st x v : nvarray (set_pr_if st x v) = nvarray st.
Proof. unfold set_pr_if. destruct (x =? nil st); [reflexivity|]. apply nvarray_set_pr. Qed.
Lemma nv_ok_set_pr_if st x v : nv_ok (set_pr_if st x v) = nv_ok st.
Proof. unfold set_pr_if. destruct (x =? nil st); [reflexivity|]. apply nv_ok_set_pr. Qed.
Lemma length_nodes_set_pr_if st x v : length (nodes (set_pr_if st x v)) = length (nodes st).
Proof. unfold set_pr_if. destruct (x =? nil st); [reflexivity|]. apply length_nodes_set_pr. Qed.
Lemma nd_set_pr_if_ne st x v z : z <> x -> nd (set_pr_if st x v) z = nd st z.
Proof. intros H. unfold set_pr_if. destruct (x =? nil st); [reflexivity|]. apply nd_set_pr_ne, H. Qed.
Lemma set_pr_if_nil st x v : x = nil st -> set_pr_if st x v = st.
Proof. intros ->. unfold set_pr_if. rewrite N.eqb_refl. reflexivity. Qed.
Lemma set_pr_if_ne st x v : x <> nil st -> set_pr_if st x v = set_pr st x v.
Proof. intros H. unfold set_pr_if. destruct (N.eqb_spec x (nil st)); [contradiction|reflexivity]. Qed.
Lemma pr_set_pr_if_ne st x v z : z <> x -> pr (set_pr_if st x v) z = pr st z.
Proof. intros H. unfold pr. rewrite nd_set_pr_if_ne by exact H. reflexivity. Qed.
Lemma pr_set_pr_if_eq st x v :
  x <> nil st -> valid st x -> v <= max_nodes -> pr (set_pr_if st x v) x = v.
Proof.
  intros Hx Hv Hle. rewrite set_pr_if_ne by exact Hx.
  rewrite (pr_set_pr PO) by assumption. rewrite decide_True; reflexivity.
Qed.
Lemma red_set_pr_if st x v z : v <= max_nodes -> red (set_pr_if st x v) z = red st z.
Proof.
  intros Hv. unfold set_pr_if. destruct (x =? nil st); [reflexivity|].
  apply (red_set_pr PO), Hv.
Qed.

End Conditional.

#[global] Hint Rewrite @lf_set_pr_if @rt_set_pr_if @ent_set_pr_if @key_of_set_pr_if @weight_set_pr_if @node_sum_set_pr_if @child_sum_set_pr_if @valid_set_pr_if @nil_set_pr_if @root_set_pr_if @size1_set_pr_if @n_del_set_pr_if @deleted_nodes_head_set_pr_if @nvarray_set_pr_if @nv_ok_set_pr_if @length_nodes_set_pr_if : attr.

(** The update of the child link that points to a given node. *)
Section ChildLink.
Context `{P : OrbParams}.
Local Open Scope N_scope.

Lemma pr_set_child st q o n z : pr (set_child st q o n) z = pr st z.
Proof. unfold set_child. destruct (o =? rt st q); [apply pr_set_rt|apply pr_set_lf]. Qed.
Lemma red_set_child st q o n z : red (set_child st q o n) z = red st z.
Proof. unfold set_child. destruct (o =? rt st q); [apply red_set_rt|apply red_set_lf]. Qed.
Lemma ent_set_child st q o n z : ent (set_child st q o n) z = ent st z.
Proof. unfold set_child. destruct (o =? rt st q); [apply ent_set_rt|apply ent_set_lf]. Qed.
Lemma key_of_set_child st q o n z : key_of (set_child st q o n) z = key_of st z.
Proof. unfold set_child. destruct (o =? rt st q); [apply key_of_set_rt|apply key_of_set_lf]. Qed.
Lemma weight_set_child st q o n z : weight (set_child st q o n) z = weight st z.
Proof. unfold set_child. destruct (o =? rt st q); [apply weight_set_rt|apply weight_set_lf]. Qed.
Lemma node_sum_set_child st q o n z : node_sum (set_child st q o n) z = node_sum st z.
Proof. unfold set_child. destruct (o =? rt st q); [apply node_sum_set_rt|apply node_sum_set_lf]. Qed.
Lemma child_sum_set_child st q o n z : child_sum (set_child st q o n) z = child_sum st z.
Proof. unfold set_child. destruct (o =? rt st q); [apply child_sum_set_rt|apply child_sum_set_lf]. Qed.
Lemma valid_set_child st q o n z : valid (set_child st q o n) z = valid st z.
Proof. unfold set_child. destruct (o =? rt st q); [apply valid_set_rt|apply valid_set_lf]. Qed.
Lemma nil_set_child st q o n : nil (set_child st q o n) = nil st.
Proof. unfold set_child. destruct (o =? rt st q); [apply nil_set_rt|apply nil_set_lf]. Qed.
Lemma root_set_child st q o n : root (set_child st q o n) = root st.
Proof. unfold set_child. destruct (o =? rt st q); [apply root_set_rt|apply root_set_lf]. Qed.
Lemma size1_set_child st q o n : size1 (set_child st q o n) = size1 st.
Proof. unfold set_child. destruct (o =? rt st q); [apply size1_set_rt|apply size1_set_lf]. Qed.
Lemma n_del_set_child st q o n : n_del (set_child st q o n) = n_del st.
Proof. unfold set_child. destruct (o =? rt st q); [apply n_del_set_rt|apply n_del_set_lf]. Qed.
Lemma deleted_nodes_head_set_child st q o n : deleted_nodes_head (set_child st q o n) = deleted_nodes_head st.
Proof. unfold set_child. destruct (o =? rt st q); [apply deleted_nodes_head_set_rt|apply deleted_nodes_head_set_lf]. Qed.
Lemma nvarray_set_child st q o n : nvarray (set_child st q o n) = nvarray st.
Proof. unfold set_child. destruct (o =? rt st q); [apply nvarray_set_rt|apply nvarray_set_lf]. Qed.
Lemma nv_ok_set_child st q o n : nv_ok (set_child st q o n) = nv_ok st.
Proof. unfold set_child. destruct (o =? rt st q); [apply nv_ok_set_rt|apply nv_ok_set_lf]. Qed.
Lemma length_nodes_set_child st q o n : length (nodes (set_child st q o n)) = length (nodes st).
Proof. unfold set_child. destruct (o =? rt st q); [apply length_nodes_set_rt|apply length_nodes_set_lf]. Qed.
Lemma nd_set_child_ne st q o n z : z <> q -> nd (set_child st q o n) z = nd st z.
Proof. intros H. unfold set_child. destruct (o =? rt st q); [apply nd_set_rt_ne, H|apply nd_set_lf_ne, H]. Qed.
Lemma lf_set_child_ne st q o n z : z <> q -> lf (set_child st q o n) z = lf st z.
Proof. intros H. unfold lf. rewrite nd_set_child_ne by exact H. reflexivity. Qed.
Lemma rt_set_child_ne st q o n z : z <> q -> rt (set_child st q o n) z = rt st z.
Proof. intros H. unfold rt. rewrite nd_set_child_ne by exact H. reflexivity. Qed.
Lemma set_child_right st q o n :
  valid st q -> rt st q = o ->
  rt (set_child st q o n) q = n /\ lf (set_child st q o n) q = lf st q.
Proof.
  intros Hv Hr. unfold set_child. rewrite Hr, N.eqb_refl.
  rewrite rt_set_rt, lf_set_rt by exact Hv. rewrite decide_True by reflexivity. auto.
Qed.
Lemma set_child_left st q o n :
  valid st q -> rt st q <> o ->
  lf (set_child st q o n) q = n /\ rt (set_child st q o n) q = rt st q.
Proof.
  intros Hv Hr. unfold set_child.
  destruct (N.eqb_spec o (rt st q)) as [Eo|Eo]; [congruence|].
  rewrite lf_set_lf, rt_set_lf by exact Hv. rewrite decide_True by reflexivity. auto.
Qed.

End ChildLink.

#[global] Hint Rewrite @pr_set_child @red_set_child @ent_set_child @key_of_set_child @weight_set_child @node_sum_set_child @child_sum_set_child @valid_set_child @nil_set_child @root_set_child @size1_set_child @n_del_set_child @deleted_nodes_head_set_child @nvarray_set_child @nv_ok_set_child @length_nodes_set_child : attr.


(** * Rules of the weakest precondition *)

Section WpRules.
Context `{P : OrbParams}.
Hypothesis PO : params_ok.
Local Open Scope N_scope.
Implicit Types (E : error -> Prop) (st : orbtree).

Lemma wp_ret {A} E (a : A) st Q : Q a st -> wp E (mret a) st Q.
Proof. intros H. exact H. Qed.

Lemma wp_bind {A B} E (m : M orbtree A) (k : A -> M orbtree B) st Q :
  wp E m st (fun a st' => wp E (k a) st' Q) -> wp E (m ≫= k) st Q.
Proof.
  unfold wp, mbind, M_bind. destruct (m st) as [[a st']|e]; auto.
Qed.

Lemma wp_mono {A} E E' (m : M orbtree A) st (Q Q' : A -> orbtree -> Prop) :
  wp E m st Q -> (forall e, E e -> E' e) -> (forall a st', Q a st' -> Q' a st') ->
  wp E' m st Q'.
Proof. unfold wp. destruct (m st) as [[a st']|e]; auto. Qed.

Lemma wp_post {A} E (m : M orbtree A) st (Q Q' : A -> orbtree -> Prop) :
  wp E m st Q -> (forall a st', Q a st' -> Q' a st') -> wp E m st Q'.
Proof. intros H HQ. eapply wp_mono; eauto. Qed.

Lemma wp_ok {A} E (m : M orbtree A) st Q a st' : wp E m st Q -> m st = Ok (a, st') -> Q a st'.
Proof. unfold wp. intros H Hm. rewrite Hm in H. exact H. Qed.

Lemma wp_err {A} E (m : M orbtree A) st Q e : wp E m st Q -> m st = Err e -> E e.
Proof. unfold wp. intros H Hm. rewrite Hm in H. exact H. Qed.

Lemma wp_total {A} (m : M orbtree A) st (Q : A -> orbtree -> Prop) :
  wp (fun _ => False) m st Q -> exists a st', m st = Ok (a, st') /\ Q a st'.
Proof. unfold wp. destruct (m st) as [[a st']|e]; [eauto|contradiction]. Qed.

Lemma wp_intro {A} E (m : M orbtree A) st (Q : A -> orbtree -> Prop) a st' :
  m st = Ok (a, st') -> Q a st' -> wp E m st Q.
Proof. unfold wp. intros ->. auto. Qed.

Lemma wp_get_state E st Q : Q st st -> wp E get_state st Q.
Proof. intros H. exact H. Qed.

Lemma wp_modify E g st Q : Q tt (g st) -> wp E (modify g) st Q.
Proof. intros H. exact H. Qed.

Lemma wp_throw {A} E e st (Q : A -> orbtree -> Prop) : E e -> wp E (throw e) st Q.
Proof. intros H. exact H. Qed.

Lemma wp_whenM E (b : bool) m st Q :
  (b = true -> wp E m st Q) -> (b = false -> Q tt st) -> wp E (whenM b m) st Q.
Proof. destruct b; simpl; intros H1 H2; [apply H1|apply H2]; reflexivity. Qed.

Lemma wp_liftR {A} E (r : R orbtree A) st Q :
  wpR E r st (fun a => Q a st) -> wp E (liftR r) st Q.
Proof. unfold wp, wpR, liftR. destruct (r st); auto. Qed.

Lemma wpR_ret {A} E (a : A) st Q : Q a -> wpR E (mret a) st Q.
Proof. intros H. exact H. Qed.

Lemma wpR_bind {A B} E (m : R orbtree A) (k : A -> R orbtree B) st Q :
  wpR E m st (fun a => wpR E (k a) st Q) -> wpR E (m ≫= k) st Q.
Proof. unfold wpR, mbind, R_bind. destruct (m st); auto. Qed.

Lemma wpR_post {A} E (m : R orbtree A) st (Q Q' : A -> Prop) :
  wpR E m st Q -> (forall a, Q a -> Q' a) -> wpR E m st Q'.
Proof. unfold wpR. destruct (m st); auto. Qed.

Lemma wpR_ok {A} E (m : R orbtree A) st Q a : wpR E m st Q -> m st = Ok a -> Q a.
Proof. unfold wpR. intros H Hm. rewrite Hm in H. exact H. Qed.

Lemma wpR_err {A} E (m : R orbtree A) st Q e : wpR E m st Q -> m st = Err e -> E e.
Proof. unfold wpR. intros H Hm. rewrite Hm in H. exact H. Qed.

Lemma wpR_eq {A} E (m : R orbtree A) st (Q : A -> Prop) a : m st = Ok a -> Q a -> wpR E m st Q.
Proof. unfold wpR. intros ->. auto. Qed.

(** reading the fields of a node *)
Lemma wpR_get_node E x st Q : valid st x -> Q (nd st x) -> wpR E (get_node x) st Q.
Proof. intros Hv H. eapply wpR_eq; [apply get_node_valid, Hv|exact H]. Qed.

Lemma wpR_left_of E x st Q : valid st x -> Q (lf st x) -> wpR E (left_of x) st Q.
Proof. intros Hv H. eapply wpR_eq; [apply left_of_valid, Hv|exact H]. Qed.
Lemma wpR_right_of E x st Q : valid st x -> Q (rt st x) -> wpR E (right_of x) st Q.
Proof. intros Hv H. eapply wpR_eq; [apply right_of_valid, Hv|exact H]. Qed.
Lemma wpR_parent_of E x st Q : valid st x -> Q (pr st x) -> wpR E (parent_of x) st Q.
Proof. intros Hv H. eapply wpR_eq; [apply parent_of_valid, Hv|exact H]. Qed.
Lemma wpR_red_of E x st Q : valid st x -> Q (red st x) -> wpR E (red_of x) st Q.
Proof.
  intros Hv H. eapply wpR_eq; [|exact H].
  unfold red_of. rewrite (R_bind_step _ _ _ _ (get_node_valid _ _ Hv)). reflexivity.
Qed.
Lemma wpR_black_of E x st Q :
  valid st x -> Q (negb (red st x)) -> wpR E (black_of x) st Q.
Proof.
  intros Hv H. eapply wpR_eq; [|exact H].
  unfold black_of. rewrite (R_bind_step _ _ _ _ (get_node_valid _ _ Hv)). reflexivity.
Qed.
Lemma wpR_get_node_key E x st Q :
  valid st x -> Q (key_of st x) -> wpR E (get_node_key x) st Q.
Proof.
  intros Hv H. eapply wpR_eq; [|exact H].
  unfold get_node_key. rewrite (R_bind_step _ _ _ _ (get_node_valid _ _ Hv)). reflexivity.
Qed.
Lemma wpR_get_node_grvalue E x st Q :
  valid st x -> Q (weight st x) -> wpR E (get_node_grvalue x) st Q.
Proof.
  intros Hv H. eapply wpR_eq; [|exact H].
  unfold get_node_grvalue. rewrite (R_bind_step _ _ _ _ (get_node_valid _ _ Hv)). reflexivity.
Qed.
Lemma wpR_node_nil E st Q : Q (nil st) -> wpR E node_nil st Q.
Proof. intros H. exact H. Qed.
Lemma wpR_node_root E st Q : Q (root st) -> wpR E node_root st Q.
Proof. intros H. exact H. Qed.
Lemma wpR_get_node_sum E x st Q :
  nv_ok st -> valid st x -> Q (node_sum st x) -> wpR E (get_node_sum x) st Q.
Proof. intros Hok Hv H. eapply wpR_eq; [apply (get_node_sum_eq PO); assumption|exact H]. Qed.

(** writing the fields of a node *)
Lemma wp_set_left E x v st Q :
  valid st x -> Q tt (set_lf st x v) -> wp E (modify_node x (set_left v)) st Q.
Proof. intros Hv H. eapply wp_intro; [apply modify_node_valid, Hv|exact H]. Qed.
Lemma wp_set_right E x v st Q :
  valid st x -> Q tt (set_rt st x v) -> wp E (modify_node x (set_right v)) st Q.
Proof. intros Hv H. eapply wp_intro; [apply modify_node_valid, Hv|exact H]. Qed.
Lemma wp_set_red E x st Q :
  valid st x -> Q tt (set_col st x true) -> wp E (modify_node x set_red) st Q.
Proof. intros Hv H. eapply wp_intro; [apply modify_node_valid, Hv|exact H]. Qed.
Lemma wp_set_black E x st Q :
  valid st x -> Q tt (set_col st x false) -> wp E (modify_node x set_black) st Q.
Proof. intros Hv H. eapply wp_intro; [apply modify_node_valid, Hv|exact H]. Qed.
Lemma wp_set_value E x v st Q :
  valid st x -> Q tt (set_ent st x v) -> wp E (modify_node x (set_value v)) st Q.
Proof. intros Hv H. eapply wp_intro; [apply modify_node_valid, Hv|exact H]. Qed.
Lemma wp_set_parent E x p st Q :
  valid st x -> p <= max_nodes -> Q tt (set_pr st x p) ->
  wp E (modify_node_r x (set_parent p)) st Q.
Proof.
  intros Hv Hp H. eapply wp_intro; [|exact H].
  apply modify_node_r_valid; [exact Hv|]. apply set_parent_eq, Hp.
Qed.
Lemma wp_set_node_sum E x s st Q :
  nv_ok st -> valid st x -> length s = nv_per_node -> Q tt (set_sum st x s) ->
  wp E (set_node_sum x s) st Q.
Proof.
  intros Hok Hv Hs H. eapply wp_intro; [apply (set_node_sum_eq PO); assumption|exact H].
Qed.

Lemma wp_set_parent_if E c nl p st Q :
  nl = nil st -> (c <> nil st -> valid st c) -> p <= max_nodes ->
  Q tt (set_pr_if st c p) ->
  wp E (whenM (negb (c =? nl)) (modify_node_r c (set_parent p))) st Q.
Proof.
  intros -> Hc Hp H. unfold set_pr_if in H.
  destruct (N.eqb_spec c (nil st)) as [Ec|Ec]; simpl; [exact H|].
  apply wp_set_parent; auto.
Qed.

Lemma wp_set_child E q o n r st Q :
  r = rt st q -> valid st q -> Q tt (set_child st q o n) ->
  wp E (if o =? r then modify_node q (set_right n) else modify_node q (set_left n)) st Q.
Proof.
  intros -> Hv H. unfold set_child in H.
  destruct (o =? rt st q); [apply wp_set_right|apply wp_set_left]; assumption.
Qed.

Lemma wp_put_node E x n st Q :
  valid st x -> Q tt (upd st x n) -> wp E (put_node x n) st Q.
Proof. intros Hv H. eapply wp_intro; [apply put_node_valid, Hv|exact H]. Qed.

(** checked arithmetic on sums *)
Lemma wp_NVAddM (E : error -> Prop) x y st Q :
  length x = length y ->
  Forall (in_range NVType) x -> Forall (in_range NVType) y ->
  E Arithmetic ->
  (Forall (in_range NVType) (vplus x y) -> Q (vplus x y) st) ->
  wp E (NVAddM x y) st Q.
Proof.
  intros Hl Hx Hy HE H. unfold wp, NVAddM, lift_result.
  rewrite (NVAdd_spec _ (po_bits PO)) by assumption.
  destruct (forallb _ _) eqn:Hf; [|exact HE].
  apply H. apply Forall_forall. intros z Hz.
  rewrite forallb_forall in Hf. apply (in_rangeb_spec _), Hf.
  apply list_elem_of_In, Hz.
Qed.

End WpRules.

(** One step of a block: the rule of its first statement. *)
Ltac wp_head PO :=
  lazymatch goal with
  | |- wp _ (mret _) _ _ => apply wp_ret
  | |- wp _ get_state _ _ => apply wp_get_state
  | |- wp _ (modify _) _ _ => apply wp_modify
  | |- wp _ (liftR _) _ _ => apply wp_liftR; wp_head PO
  | |- wp _ (modify_node _ (set_left _)) _ _ => apply wp_set_left
  | |- wp _ (modify_node _ (set_right _)) _ _ => apply wp_set_right
  | |- wp _ (modify_node _ set_red) _ _ => apply wp_set_red
  | |- wp _ (modify_node _ set_black) _ _ => apply wp_set_black
  | |- wp _ (modify_node _ (set_value _)) _ _ => apply wp_set_value
  | |- wp _ (modify_node_r _ (set_parent _)) _ _ => apply wp_set_parent
  | |- wp _ (set_node_sum _ _) _ _ => apply (wp_set_node_sum PO)
  | |- wp _ (put_node _ _) _ _ => apply wp_put_node
  | |- wp _ (throw _) _ _ => apply wp_throw
  | |- wp _ (whenM _ _) _ _ => apply wp_whenM; intros ?
  | |- wpR _ (mret _) _ _ => apply wpR_ret
  | |- wpR _ (left_of _) _ _ => apply wpR_left_of
  | |- wpR _ (right_of _) _ _ => apply wpR_right_of
  | |- wpR _ (parent_of _) _ _ => apply wpR_parent_of
  | |- wpR _ (red_of _) _ _ => apply wpR_red_of
  | |- wpR _ (black_of _) _ _ => apply wpR_black_of
  | |- wpR _ (get_node_key _) _ _ => apply wpR_get_node_key
  | |- wpR _ (get_node_grvalue _) _ _ => apply wpR_get_node_grvalue
  | |- wpR _ (get_node_sum _) _ _ => apply (wpR_get_node_sum PO)
  | |- wpR _ node_nil _ _ => apply wpR_node_nil
  | |- wpR _ node_root _ _ => apply wpR_node_root
  end.

Ltac wp_step PO :=
  lazymatch goal with
  | |- wp _ (_ ≫= _) _ _ => apply wp_bind; wp_head PO
  | |- wpR _ (_ ≫= _) _ _ => apply wpR_bind; wp_head PO
  | |- _ => wp_head PO
  end; cbv beta.

(** Fields of a state that is given by a chain of updates. *)
Ltac attr_side PO :=
  autorewrite with attr;
  first [ assumption
        | eapply valid_le; [eassumption|autorewrite with attr; assumption]
        | reflexivity ].
Ltac attr_rw PO :=
  repeat first
    [ progress autorewrite with attr
    | rewrite (pr_set_col PO)
    | rewrite lf_set_lf by attr_side PO
    | rewrite rt_set_rt by attr_side PO
    | rewrite (pr_set_pr PO) by attr_side PO
    | rewrite (red_set_pr PO) by attr_side PO
    | rewrite (red_set_pr_if PO) by attr_side PO
    | rewrite (red_set_col PO) by attr_side PO
    | rewrite ent_set_ent by attr_side PO ].
(** Decides the comparisons of handles that the fields leave behind. *)
Ltac dec_rw tac :=
  repeat match goal with
    | |- context [decide (?a = ?b)] =>
        first [ rewrite (decide_True (P := a = b)) by tac
              | rewrite (decide_False (P := a = b)) by tac ]
    end.


(** * Shapes, paths and their layout *)

(** Splits a [NoDup] of appended lists into its parts. *)
Ltac nodup_split H :=
  repeat first [rewrite NoDup_app in H | rewrite NoDup_cons in H].

Section Shapes.
Context `{P : OrbParams}.
Local Open Scope N_scope.
Implicit Types (st : orbtree) (t : atree) (C : ctx).

Lemma inorder_plug t C :
  inorder (plug t C) = ctx_before C ++ inorder t ++ ctx_after C.
Proof.
  revert t. induction C as [|[[[] q] s] C IH]; intros t; simpl.
  - rewrite app_nil_r. reflexivity.
  - rewrite IH. simpl. rewrite <- ?app_assoc. reflexivity.
  - rewrite IH. simpl. rewrite <- ?app_assoc. simpl. rewrite <- ?app_assoc. reflexivity.
Qed.

Lemma plug_app t C1 C2 : plug t (C1 ++ C2) = plug (plug t C1) C2.
Proof.
  revert t. induction C1 as [|[[[] q] s] C1 IH]; intros t; simpl; auto.
Qed.

Lemma elem_of_inorder_plug z t C :
  z ∈ inorder (plug t C) <-> z ∈ inorder t \/ z ∈ ctx_handles C.
Proof. rewrite inorder_plug. unfold ctx_handles. set_solver. Qed.

Lemma rep_nil st p t : rep st p t -> nil st ∉ inorder t.
Proof.
  revert p. induction t as [|l IHl x r IHr]; intros p; simpl.
  - set_solver.
  - intros (Hx & _ & _ & _ & _ & Hl & Hr). apply IHl in Hl. apply IHr in Hr. set_solver.
Qed.

Lemma rep_valid st p t z : rep st p t -> z ∈ inorder t -> valid st z.
Proof.
  revert p. induction t as [|l IHl x r IHr]; intros p; simpl.
  - set_solver.
  - intros (Hx & Hv & _ & _ & _ & Hl & Hr) Hz.
    apply elem_of_app in Hz as [Hz|Hz]; [eapply IHl; eauto|].
    apply elem_of_cons in Hz as [->|Hz]; [exact Hv|eapply IHr; eauto].
Qed.

Lemma rep_ctx_nil st C h : rep_ctx st C h -> nil st ∉ ctx_handles C.
Proof.
  unfold ctx_handles. revert h. induction C as [|[[[] q] s] C IH]; intros h; simpl.
  - set_solver.
  - intros (Hq & _ & _ & _ & _ & Hs & HC). apply rep_nil in Hs. apply IH in HC. set_solver.
  - intros (Hq & _ & _ & _ & _ & Hs & HC). apply rep_nil in Hs. apply IH in HC. set_solver.
Qed.

Lemma rep_ctx_valid st C h z : rep_ctx st C h -> z ∈ ctx_handles C -> valid st z.
Proof.
  unfold ctx_handles. revert h. induction C as [|[[[] q] s] C IH]; intros h; simpl.
  - set_solver.
  - intros (Hq & Hv & _ & _ & _ & Hs & HC) Hz.
    assert (Hc : z = q \/ z ∈ inorder s \/ z ∈ ctx_before C ++ ctx_after C) by set_solver.
    destruct Hc as [->|[Hc|Hc]]; [exact Hv|eapply rep_valid; eauto|eapply IH; eauto].
  - intros (Hq & Hv & _ & _ & _ & Hs & HC) Hz.
    assert (Hc : z = q \/ z ∈ inorder s \/ z ∈ ctx_before C ++ ctx_after C) by set_solver.
    destruct Hc as [->|[Hc|Hc]]; [exact Hv|eapply rep_valid; eauto|eapply IH; eauto].
Qed.

(** A tree laid out below the root sentinel splits into the part in the
    hole and the path around it. *)
Lemma rep_plug st t C :
  rep st (root st) (plug t C) /\ rt st (root st) = root_of st (plug t C)
  <-> rep st (hole_parent st C) t /\ rep_ctx st C (root_of st t).
Proof.
  revert t. induction C as [|[[[] q] s] C IH]; intros t; simpl.
  - tauto.
  - rewrite IH. simpl. tauto.
  - rewrite IH. simpl. tauto.
Qed.

Lemma sums_plug st t C :
  sums_ok st (plug t C)
  <-> sums_ok st t /\ ctx_sibs_ok st C /\ ctx_path_ok st C (tsum st t).
Proof.
  revert t. induction C as [|[[[] q] s] C IH]; intros t; simpl.
  - tauto.
  - rewrite IH. simpl. tauto.
  - rewrite IH. simpl. tauto.
Qed.

Lemma tsum_plug_eq st t t' C :
  tsum st t = tsum st t' -> tsum st (plug t C) = tsum st (plug t' C).
Proof.
  revert t t'. induction C as [|[[[] q] s] C IH]; intros t t' H; simpl.
  - exact H.
  - apply IH. simpl. rewrite H. reflexivity.
  - apply IH. simpl. rewrite H. reflexivity.
Qed.

Lemma NoDup_plug_parts t C fl :
  NoDup (inorder (plug t C) ++ fl) ->
  NoDup (inorder t) /\ NoDup (ctx_handles C) /\ NoDup fl.
Proof.
  rewrite inorder_plug. unfold ctx_handles. rewrite !NoDup_app.
  intros ((Hb & Hd1 & Ht & Hd2 & Ha) & Hd3 & Hf).
  repeat split; auto.
  intros z Hz Hz'. apply (Hd1 z Hz). set_solver.
Qed.

(** Every node of a tree is the root of a subtree in some path. *)
Lemma plug_find t z :
  z ∈ inorder t -> exists C l r, t = plug (Nd l z r) C.
Proof.
  induction t as [|l IHl x r IHr]; simpl; [set_solver|].
  intros Hz. apply elem_of_app in Hz as [Hz|Hz].
  - destruct (IHl Hz) as (C & l' & r' & ->).
    exists (C ++ [(SL, x, r)]), l', r'. rewrite plug_app. reflexivity.
  - apply elem_of_cons in Hz as [->|Hz].
    + exists [], l, r. reflexivity.
    + destruct (IHr Hz) as (C & l' & r' & ->).
      exists (C ++ [(SR, x, l)]), l', r'. rewrite plug_app. reflexivity.
Qed.

(** ** States that agree on the nodes of a shape *)

Lemma rep_frame st st' p t :
  nil st' = nil st -> (forall z, valid st z -> valid st' z) ->
  (forall z, z ∈ inorder t -> nd st' z = nd st z) ->
  rep st p t -> rep st' p t.
Proof.
  intros Hn Hv. revert p. induction t as [|l IHl x r IHr]; intros p Hs; simpl; [auto|].
  intros (Hx & Hvx & Hp & Hl & Hr & Hrl & Hrr).
  assert (Hnd : nd st' x = nd st x) by (apply Hs; simpl; set_solver).
  unfold pr, lf, rt in *. rewrite Hnd.
  assert (Hl' : root_of st' l = root_of st l) by (destruct l; simpl; congruence).
  assert (Hr' : root_of st' r = root_of st r) by (destruct r; simpl; congruence).
  rewrite Hl', Hr', Hn. repeat split; auto.
  - apply IHl; [|exact Hrl]. intros z Hz. apply Hs. simpl. set_solver.
  - apply IHr; [|exact Hrr]. intros z Hz. apply Hs. simpl. set_solver.
Qed.

Lemma root_of_frame st st' t : nil st' = nil st -> root_of st' t = root_of st t.
Proof. intros H. destruct t; simpl; congruence. Qed.

Lemma hole_parent_frame st st' C : root st' = root st -> hole_parent st' C = hole_parent st C.
Proof. intros H. destruct C as [|[[? ?] ?] ?]; simpl; congruence. Qed.

Lemma rep_ctx_frame st st' C h :
  nil st' = nil st -> root st' = root st -> (forall z, valid st z -> valid st' z) ->
  rt st' (root st) = rt st (root st) ->
  (forall z, z ∈ ctx_handles C -> nd st' z = nd st z) ->
  rep_ctx st C h -> rep_ctx st' C h.
Proof.
  intros Hn Hr Hv Hrt. unfold ctx_handles.
  revert h. induction C as [|[[[] q] s] C IH]; intros h Hs; simpl.
  - rewrite Hr. congruence.
  - intros (Hq & Hvq & Hp & Hl & Hrr & Hrs & HC).
    assert (Hnd : nd st' q = nd st q) by (apply Hs; simpl; set_solver).
    unfold pr, lf, rt in *. rewrite Hnd, Hn, (root_of_frame st st') by exact Hn.
    rewrite (hole_parent_frame st st') by exact Hr.
    repeat split; auto.
    + eapply rep_frame; eauto. intros z Hz. apply Hs. simpl. set_solver.
    + apply IH; [|exact HC]. intros z Hz. apply Hs. simpl. set_solver.
  - intros (Hq & Hvq & Hp & Hl & Hrr & Hrs & HC).
    assert (Hnd : nd st' q = nd st q) by (apply Hs; simpl; set_solver).
    unfold pr, lf, rt in *. rewrite Hnd, Hn, (root_of_frame st st') by exact Hn.
    rewrite (hole_parent_frame st st') by exact Hr.
    repeat split; auto.
    + eapply rep_frame; eauto. intros z Hz. apply Hs. simpl. set_solver.
    + apply IH; [|exact HC]. intros z Hz. apply Hs. simpl. set_solver.
Qed.

Lemma tsum_frame st st' t :
  (forall z, z ∈ inorder t -> weight st' z = weight st z) -> tsum st' t = tsum st t.
Proof.
  induction t as [|l IHl x r IHr]; intros Hs; simpl; [reflexivity|].
  rewrite IHl, IHr, Hs; [reflexivity|simpl; set_solver|..];
    intros z Hz; apply Hs; simpl; set_solver.
Qed.

Lemma sums_ok_frame st st' t :
  (forall z, z ∈ inorder t -> weight st' z = weight st z /\ node_sum st' z = node_sum st z) ->
  sums_ok st t -> sums_ok st' t.
Proof.
  induction t as [|l IHl x r IHr]; intros Hs; simpl; [auto|].
  intros (Hx & Hl & Hr).
  assert (Hwl : tsum st' l = tsum st l).
  { apply tsum_frame. intros z Hz. apply Hs. simpl. set_solver. }
  assert (Hwr : tsum st' r = tsum st r).
  { apply tsum_frame. intros z Hz. apply Hs. simpl. set_solver. }
  destruct (Hs x) as [Hw Hn]; [simpl; set_solver|].
  rewrite Hwl, Hwr, Hw, Hn. repeat split; auto.
  - apply IHl; [|exact Hl]. intros z Hz. apply Hs. simpl. set_solver.
  - apply IHr; [|exact Hr]. intros z Hz. apply Hs. simpl. set_solver.
Qed.

Lemma ctx_sibs_ok_frame st st' C :
  (forall z, z ∈ ctx_handles C -> weight st' z = weight st z /\ node_sum st' z = node_sum st z) ->
  ctx_sibs_ok st C -> ctx_sibs_ok st' C.
Proof.
  unfold ctx_handles. induction C as [|[[sd q] s] C IH]; intros Hs; simpl; [auto|].
  intros [Hq HC]. split.
  - eapply sums_ok_frame; [|exact Hq]. intros z Hz. apply Hs. destruct sd; simpl; set_solver.
  - apply IH; [|exact HC]. intros z Hz. apply Hs. destruct sd; simpl; set_solver.
Qed.

Lemma frame_sum_frame st st' sd q s hs :
  weight st' q = weight st q ->
  (forall z, z ∈ inorder s -> weight st' z = weight st z) ->
  frame_sum st' sd q s hs = frame_sum st sd q s hs.
Proof.
  intros Hq Hs. unfold frame_sum. rewrite Hq, (tsum_frame st st' s) by exact Hs. reflexivity.
Qed.

Lemma ctx_path_ok_frame st st' C hs :
  (forall z, z ∈ ctx_handles C -> weight st' z = weight st z /\ node_sum st' z = node_sum st z) ->
  ctx_path_ok st C hs -> ctx_path_ok st' C hs.
Proof.
  unfold ctx_handles. revert hs. induction C as [|[[sd q] s] C IH]; intros hs Hs; simpl; [auto|].
  intros [Hq HC].
  assert (Hf : frame_sum st' sd q s hs = frame_sum st sd q s hs).
  { apply frame_sum_frame.
    - apply Hs. destruct sd; simpl; set_solver.
    - intros z Hz. apply Hs. destruct sd; simpl; set_solver. }
  destruct (Hs q) as [_ Hn]; [destruct sd; simpl; set_solver|].
  rewrite Hf, Hn. split; [exact Hq|].
  apply IH; [|exact HC]. intros z Hz. apply Hs. destruct sd; simpl; set_solver.
Qed.

Lemma keys_sorted_frame st st' l :
  (forall z, z ∈ l -> key_of st' z = key_of st z) -> keys_sorted st l -> keys_sorted st' l.
Proof.
  unfold keys_sorted. induction l as [|a l IH]; intros Hs H; [constructor|].
  inversion H as [|? ? Hl Ha]; subst. constructor.
  - apply IH; [|exact Hl]. intros z Hz. apply Hs. set_solver.
  - rewrite Forall_forall in *. intros z Hz.
    rewrite (Hs a), (Hs z) by set_solver. apply Ha, Hz.
Qed.

Lemma free_chain_frame st st' h fl :
  (forall z, valid st z -> valid st' z) ->
  (forall z, z ∈ fl -> lf st' z = lf st z) ->
  free_chain st h fl -> free_chain st' h fl.
Proof.
  intros Hv. revert h. induction fl as [|a fl IH]; intros h Hs; simpl; [auto|].
  intros (-> & Hva & Hc). rewrite Hs by set_solver. repeat split; auto.
  apply IH; [|exact Hc]. intros z Hz. apply Hs. set_solver.
Qed.

Lemma free_chain_valid st h fl z : free_chain st h fl -> z ∈ fl -> valid st z.
Proof.
  revert h. induction fl as [|a fl IH]; intros h; simpl; [set_solver|].
  intros (-> & Hva & Hc) Hz. apply elem_of_cons in Hz as [->|Hz]; [exact Hva|eauto].
Qed.

(** The parent of the hole: the root sentinel or a node of the path, with
    the hole in one of its child links. *)
Lemma hole_parent_link st C h :
  rep_ctx st C h -> valid st (root st) -> h <> nil st -> h ∉ ctx_handles C ->
  valid st (hole_parent st C)
  /\ (hole_parent st C = root st \/ hole_parent st C ∈ ctx_handles C)
  /\ (rt st (hole_parent st C) = h
      \/ (rt st (hole_parent st C) <> h /\ lf st (hole_parent st C) = h)).
Proof.
  unfold ctx_handles. destruct C as [|[[[] q] s] C]; simpl.
  - intros H Hr _ _. auto.
  - intros (Hq & Hv & Hp & Hl & Hr & Hs & HC) _ Hh Hn.
    split; [exact Hv|]. split; [right; set_solver|]. right. split; [|exact Hl].
    rewrite Hr. destruct s as [|sl sx sr]; simpl in *; [congruence|]. set_solver.
  - intros (Hq & Hv & Hp & Hr & Hl & Hs & HC) _ Hh Hn.
    split; [exact Hv|]. split; [right; set_solver|]. left. exact Hr.
Qed.

(** Another subtree put into the hole. *)
Lemma rep_ctx_rehole st st' C h h' :
  rep_ctx st C h -> h <> nil st -> h ∉ ctx_handles C -> NoDup (ctx_handles C) ->
  root st ∉ ctx_handles C ->
  nil st' = nil st -> root st' = root st -> (forall z, valid st z -> valid st' z) ->
  (forall z, z ∈ ctx_handles C -> z <> hole_parent st C -> nd st' z = nd st z) ->
  (hole_parent st C <> root st -> rt st' (root st) = rt st (root st)) ->
  pr st' (hole_parent st C) = pr st (hole_parent st C) ->
  (rt st (hole_parent st C) = h ->
   rt st' (hole_parent st C) = h' /\ lf st' (hole_parent st C) = lf st (hole_parent st C)) ->
  (rt st (hole_parent st C) <> h ->
   lf st' (hole_parent st C) = h' /\ rt st' (hole_parent st C) = rt st (hole_parent st C)) ->
  rep_ctx st' C h'.
Proof.
  unfold ctx_handles.
  intros HC Hh Hn Hnd Hrf Hnil Hroot Hval Hsame Hrt Hpr Hright Hleft.
  destruct C as [|[[[] q] s] C]; simpl in *.
  - rewrite Hroot. apply Hright, HC.
  - destruct HC as (Hq & Hv & Hp & Hl & Hr & Hs & HC).
    rewrite Hnil, (root_of_frame st st'), (hole_parent_frame st st') by assumption.
    assert (Hne : rt st q <> h).
    { rewrite Hr. destruct s as [|sl sx sr]; simpl in *; [congruence|]. set_solver. }
    destruct (Hleft Hne) as [Hl' Hr'].
    nodup_split Hnd.
    repeat split; auto; try congruence.
    + eapply rep_frame; eauto. intros z Hz. apply Hsame; set_solver.
    + eapply rep_ctx_frame; eauto.
      * apply Hrt. set_solver.
      * intros z Hz. apply Hsame; unfold ctx_handles in *; set_solver.
  - destruct HC as (Hq & Hv & Hp & Hr & Hl & Hs & HC).
    rewrite Hnil, (root_of_frame st st'), (hole_parent_frame st st') by assumption.
    destruct (Hright Hr) as [Hr' Hl'].
    nodup_split Hnd.
    repeat split; auto; try congruence.
    + eapply rep_frame; eauto. intros z Hz. apply Hsame; set_solver.
    + eapply rep_ctx_frame; eauto.
      * apply Hrt. set_solver.
      * intros z Hz. apply Hsame; unfold ctx_handles in *; set_solver.
Qed.

(** States that agree on the links. *)
Lemma rep_ext st st' p t :
  nil st' = nil st -> (forall z, valid st z -> valid st' z) ->
  (forall z, z ∈ inorder t ->
     lf st' z = lf st z /\ rt st' z = rt st z /\ pr st' z = pr st z) ->
  rep st p t -> rep st' p t.
Proof.
  intros Hn Hv. revert p. induction t as [|l IHl x r IHr]; intros p Hs; simpl; [auto|].
  intros (Hx & Hvx & Hp & Hl & Hr & Hrl & Hrr).
  destruct (Hs x) as (H1 & H2 & H3); [simpl; set_solver|].
  rewrite H1, H2, H3, Hn, !(root_of_frame st st') by exact Hn.
  repeat split; auto.
  - apply IHl; [|exact Hrl]. intros z Hz. apply Hs. simpl. set_solver.
  - apply IHr; [|exact Hrr]. intros z Hz. apply Hs. simpl. set_solver.
Qed.

(** Another subtree put into the hole, the side of the hole being known
    from the path. *)
Lemma rep_ctx_relink st st' C h h' :
  rep_ctx st C h -> NoDup (ctx_handles C) -> root st ∉ ctx_handles C ->
  nil st' = nil st -> root st' = root st -> (forall z, valid st z -> valid st' z) ->
  (forall z, z ∈ ctx_handles C -> z <> hole_parent st C -> nd st' z = nd st z) ->
  (hole_parent st C <> root st -> rt st' (root st) = rt st (root st)) ->
  pr st' (hole_parent st C) = pr st (hole_parent st C) ->
  match C with
  | [] => rt st' (root st) = h'
  | (SL, q, _) :: _ => lf st' q = h' /\ rt st' q = rt st q
  | (SR, q, _) :: _ => rt st' q = h' /\ lf st' q = lf st q
  end ->
  rep_ctx st' C h'.
Proof.
  unfold ctx_handles.
  intros HC Hnd Hrf Hnil Hroot Hval Hsame Hrt Hpr Hlink.
  destruct C as [|[[[] q] s] C]; simpl in *.
  - rewrite Hroot. exact Hlink.
  - destruct HC as (Hq & Hv & Hp & Hl & Hr & Hs & HC). destruct Hlink as [Hl' Hr'].
    rewrite Hnil, (root_of_frame st st'), (hole_parent_frame st st') by assumption.
    nodup_split Hnd.
    repeat split; auto; try congruence.
    + eapply rep_frame; eauto. intros z Hz. apply Hsame; set_solver.
    + eapply rep_ctx_frame; eauto.
      * apply Hrt. set_solver.
      * intros z Hz. apply Hsame; unfold ctx_handles in *; set_solver.
  - destruct HC as (Hq & Hv & Hp & Hr & Hl & Hs & HC). destruct Hlink as [Hr' Hl'].
    rewrite Hnil, (root_of_frame st st'), (hole_parent_frame st st') by assumption.
    nodup_split Hnd.
    repeat split; auto; try congruence.
    + eapply rep_frame; eauto. intros z Hz. apply Hsame; set_solver.
    + eapply rep_ctx_frame; eauto.
      * apply Hrt. set_solver.
      * intros z Hz. apply Hsame; unfold ctx_handles in *; set_solver.
Qed.

(** A subtree hung below another parent. *)
Lemma rep_reparent st st' p p' t :
  rep st p t -> NoDup (inorder t) ->
  nil st' = nil st -> (forall z, valid st z -> valid st' z) ->
  (forall z, z ∈ inorder t -> z <> root_of st t -> nd st' z = nd st z) ->
  (root_of st t <> nil st ->
   lf st' (root_of st t) = lf st (root_of st t)
   /\ rt st' (root_of st t) = rt st (root_of st t)
   /\ pr st' (root_of st t) = p') ->
  rep st' p' t.
Proof.
  intros Hrep Hnd Hnil Hval Hsame Hroot.
  destruct t as [|l x r]; simpl in *; [auto|].
  destruct Hrep as (Hx & Hv & Hp & Hl & Hr & Hrl & Hrr).
  destruct (Hroot Hx) as (Hl' & Hr' & Hp').
  rewrite Hnil, !(root_of_frame st st') by assumption.
  nodup_split Hnd.
  repeat split; auto; try congruence.
  - eapply rep_frame; eauto. intros z Hz. apply Hsame; set_solver.
  - eapply rep_frame; eauto. intros z Hz. apply Hsame; set_solver.
Qed.

(** The invariant after a restructuring that keeps the nodes in order. *)
Lemma shape_inv_rebuild st st' T T' fl :
  shape_inv st T fl ->
  nil st' = nil st -> root st' = root st ->
  length (nodes st') = length (nodes st) ->
  n_del st' = n_del st ->
  deleted_nodes_head st' = deleted_nodes_head st ->
  (forall z, valid st z -> valid st' z) ->
  (forall z, z ∈ fl -> lf st' z = lf st z) ->
  red st' (nil st) = false ->
  lf st' (root st) = nil st ->
  rep st' (root st) T' -> rt st' (root st) = root_of st T' ->
  inorder T' = inorder T ->
  (forall z, z ∈ inorder T -> key_of st' z = key_of st z) ->
  length (nvarray st') = length (nvarray st) ->
  Forall (in_range NVType) (nvarray st') ->
  sums_ok st' T' ->
  shape_inv st' T' fl.
Proof.
  intros [ti_len ti_root_valid ti_nil_valid ti_root_nil ti_nil_black ti_root_left ti_root_right ti_rep ti_nodup ti_root_fresh ti_nil_fresh ti_nv_len ti_nv_range ti_sums ti_free ti_ndel ti_sorted] Hnil Hroot Hlen Hnd Hhd Hval Hfl Hred Hlf Hrep Hrt Hin Hkey Hnvl Hnvr Hsum.
  split; rewrite ?Hnil, ?Hroot, ?Hlen, ?Hnd, ?Hhd, ?Hin, ?Hnvl,
    ?(root_of_frame st st') by assumption; auto.
  - eapply free_chain_frame; eauto.
  - eapply keys_sorted_frame; [|eassumption]. intros z Hz. apply Hkey, Hz.
Qed.

Lemma rep_root_valid st p t :
  rep st p t -> root_of st t <> nil st -> valid st (root_of st t).
Proof. destruct t; simpl; [congruence|tauto]. Qed.

Lemma node_sum_ext st st' z : nvarray st' = nvarray st -> node_sum st' z = node_sum st z.
Proof. unfold node_sum. intros ->. reflexivity. Qed.

Lemma child_sum_ext st st' z :
  nil st' = nil st -> nvarray st' = nvarray st -> child_sum st' z = child_sum st z.
Proof. unfold child_sum, node_sum. intros -> ->. reflexivity. Qed.

Lemma weight_ext st st' z : ent st' z = ent st z -> weight st' z = weight st z.
Proof. unfold weight. intros ->. reflexivity. Qed.

Lemma key_of_ext st st' z : ent st' z = ent st z -> key_of st' z = key_of st z.
Proof. unfold key_of. intros ->. reflexivity. Qed.

(** The invariant does not depend on colours, except that [nil] is black. *)
Lemma shape_inv_ext st st' T fl :
  shape_inv st T fl ->
  nil st' = nil st -> root st' = root st ->
  n_del st' = n_del st -> deleted_nodes_head st' = deleted_nodes_head st ->
  length (nodes st') = length (nodes st) -> nvarray st' = nvarray st ->
  (forall z, lf st' z = lf st z /\ rt st' z = rt st z /\ pr st' z = pr st z
             /\ ent st' z = ent st z) ->
  red st' (nil st) = false ->
  shape_inv st' T fl.
Proof.
  intros HI Hnil Hroot Hdel Hhd Hlen Hnv Hsame Hred.
  assert (Hval : forall z, valid st z -> valid st' z).
  { intros z. unfold valid, in_bounds. rewrite Hlen. auto. }
  eapply shape_inv_rebuild; try exact HI; try assumption.
  - intros z _. apply Hsame.
  - rewrite (proj1 (Hsame _)). apply HI.
  - eapply rep_ext; [exact Hnil|exact Hval| |apply HI]. intros z _.
    destruct (Hsame z) as (? & ? & ? & ?). auto.
  - rewrite (proj1 (proj2 (Hsame _))). apply HI.
  - reflexivity.
  - intros z _. apply key_of_ext, Hsame.
  - rewrite Hnv. reflexivity.
  - rewrite Hnv. apply HI.
  - eapply sums_ok_frame; [|apply HI]. intros z _. split.
    + apply weight_ext, Hsame.
    + apply node_sum_ext, Hnv.
Qed.

Lemma root_of_cases st t : root_of st t = nil st \/ root_of st t ∈ inorder t.
Proof. destruct t; simpl; [auto|right; set_solver]. Qed.

End Shapes.

(** ** Handles that differ because they sit at different places

    The number of occurrences of a handle in a duplicate-free list is at
    most one; membership in the parts of the list is then a matter of
    linear arithmetic. *)
Section Counting.

Lemma NoDup_count (l : list N) z : NoDup l -> (count_occ N.eq_dec l z <= 1)%nat.
Proof.
  intros H. apply NoDup_ListNoDup in H. rewrite (NoDup_count_occ N.eq_dec) in H. apply H.
Qed.

Lemma elem_count (l : list N) z : z ∈ l <-> (1 <= count_occ N.eq_dec l z)%nat.
Proof. rewrite list_elem_of_In, (count_occ_In N.eq_dec). lia. Qed.

Lemma count_cons x (l : list N) z :
  count_occ N.eq_dec (x :: l) z
  = ((if N.eq_dec x z then 1 else 0) + count_occ N.eq_dec l z)%nat.
Proof. simpl. destruct (N.eq_dec x z); reflexivity. Qed.

Lemma count_nil z : count_occ N.eq_dec [] z = 0%nat.
Proof. reflexivity. Qed.

End Counting.

Ltac count_all z :=
  repeat match goal with
    | H : NoDup ?l |- _ => apply (fun h => NoDup_count l z h) in H
    end;
  repeat progress (rewrite ?elem_count, ?count_occ_app, ?count_cons, ?count_nil in *);
  repeat match goal with
    | H : context [N.eq_dec ?a ?b] |- _ => destruct (N.eq_dec a b)
    | |- context [N.eq_dec ?a ?b] => destruct (N.eq_dec a b)
    end;
  solve [lia | congruence].

(** To be called in a context cleared of everything but the facts on
    membership. *)
Ltac distinct :=
  lazymatch goal with
  | |- ?a <> ?b =>
      let E := fresh in intros E;
      first [ is_var a; subst a; count_all b
            | is_var b; subst b; count_all a
            | rewrite E in *; count_all b ]
  | |- ?a ∉ ?l => let E := fresh in intros E; count_all a
  end.

Section Paths.

Lemma path_nodes_handles C z : z ∈ path_nodes C -> z ∈ ctx_handles C.
Proof.
  unfold path_nodes, ctx_handles. induction C as [|[[[] q] s] C IH]; simpl.
  - intros H. inversion H.
  - intros H. apply elem_of_cons in H as [->|H]; [set_solver|]. apply IH in H. set_solver.
  - intros H. apply elem_of_cons in H as [->|H]; [set_solver|]. apply IH in H. set_solver.
Qed.

Lemma ctx_handles_cons sd q s C z :
  z ∈ ctx_handles ((sd, q, s) :: C) <-> z = q \/ z ∈ inorder s \/ z ∈ ctx_handles C.
Proof. unfold ctx_handles. destruct sd; simpl; set_solver. Qed.

Lemma NoDup_ctx_handles_cons sd q s C :
  NoDup (ctx_handles ((sd, q, s) :: C)) ->
  q ∉ inorder s /\ q ∉ ctx_handles C /\ NoDup (inorder s) /\ NoDup (ctx_handles C)
  /\ (forall z, z ∈ inorder s -> z ∉ ctx_handles C).
Proof.
  unfold ctx_handles. intros H.
  assert (H1 : forall z, (count_occ N.eq_dec (ctx_handles ((sd, q, s) :: C)) z <= 1)%nat).
  { intros z. apply NoDup_count. exact H. }
  unfold ctx_handles in H1.
  assert (H2 : forall z,
    ((if N.eq_dec q z then 1 else 0) + count_occ N.eq_dec (inorder s) z
     + count_occ N.eq_dec (ctx_before C ++ ctx_after C) z <= 1)%nat).
  { intros z. specialize (H1 z). destruct sd; simpl in H1;
      repeat progress (rewrite ?count_occ_app, ?count_cons, ?count_nil in * );
      destruct (N.eq_dec q z); lia. }
  clear H H1. repeat split.
  - intros Hin. apply elem_count in Hin. specialize (H2 q).
    destruct (N.eq_dec q q); [lia|congruence].
  - intros Hin. apply elem_count in Hin. specialize (H2 q).
    destruct (N.eq_dec q q); [lia|congruence].
  - apply NoDup_ListNoDup, (NoDup_count_occ N.eq_dec). intros z. specialize (H2 z). lia.
  - apply NoDup_ListNoDup, (NoDup_count_occ N.eq_dec). intros z. specialize (H2 z). lia.
  - intros z Hz Hin. apply elem_count in Hz, Hin. specialize (H2 z). lia.
Qed.

End Paths.


(** * Sums of weights *)

Section VectorSums.

Lemma vplus_comm x y : vplus x y = vplus y x.
Proof.
  unfold vplus. revert y. induction x as [|a x IH]; intros [|b y]; simpl; auto.
  rewrite IH, Z.add_comm. reflexivity.
Qed.

Lemma vplus_assoc x y z : vplus x (vplus y z) = vplus (vplus x y) z.
Proof.
  unfold vplus. revert y z. induction x as [|a x IH]; intros [|b y] [|c z]; simpl; auto.
  rewrite IH, Z.add_assoc. reflexivity.
Qed.

Lemma vplus_rotate wx wy ta tb tc :
  vplus (vplus wy (vplus (vplus wx ta) tb)) tc
  = vplus (vplus wx ta) (vplus (vplus wy tb) tc).
Proof.
  rewrite (vplus_comm wy), <- !vplus_assoc. f_equal. f_equal.
  rewrite !vplus_assoc. f_equal. apply vplus_comm.
Qed.

Lemma vplus_rotate_r wx wy ta tb tc :
  vplus (vplus wy tc) (vplus (vplus wx tb) ta)
  = vplus (vplus wx (vplus (vplus wy tc) tb)) ta.
Proof.
  rewrite !vplus_assoc. f_equal. f_equal.
  rewrite (vplus_comm _ wx), vplus_assoc. reflexivity.
Qed.

Lemma length_vplus x y : length (vplus x y) = Nat.min (length x) (length y).
Proof. unfold vplus. apply length_zip_with. Qed.

Lemma length_vplus_eq x y n : length x = n -> length y = n -> length (vplus x y) = n.
Proof. intros Hx Hy. rewrite length_vplus, Hx, Hy. apply Nat.min_id. Qed.

Lemma length_vminus x y : length (vminus x y) = Nat.min (length x) (length y).
Proof. unfold vminus. apply length_zip_with. Qed.

Lemma length_vzero n : length (vzero n) = n.
Proof. apply length_replicate. Qed.

Lemma vplus_zero_r x n : (length x <= n)%nat -> vplus x (vzero n) = x.
Proof.
  unfold vplus, vzero. revert n. induction x as [|a x IH]; intros [|n] H; simpl in *;
    try reflexivity; try lia.
  rewrite IH by lia. rewrite Z.add_0_r. reflexivity.
Qed.

Lemma vplus_zero_l x n : (length x <= n)%nat -> vplus (vzero n) x = x.
Proof. intros H. rewrite vplus_comm. apply vplus_zero_r, H. Qed.

Lemma vminus_vplus x y : (length x <= length y)%nat -> vminus (vplus x y) y = x.
Proof.
  unfold vplus, vminus. revert y. induction x as [|a x IH]; intros [|b y] H; simpl in *;
    try reflexivity; try lia.
  rewrite IH by lia. f_equal. lia.
Qed.

Lemma vplus_vminus x y : (length x <= length y)%nat -> vplus (vminus x y) y = x.
Proof.
  unfold vplus, vminus. revert y. induction x as [|a x IH]; intros [|b y] H; simpl in *;
    try reflexivity; try lia.
  rewrite IH by lia. f_equal. lia.
Qed.

Lemma vminus_vplus_l x y z : vminus (vplus x y) z = vplus (vminus x z) y.
Proof.
  unfold vplus, vminus. revert y z. induction x as [|a x IH]; intros [|b y] [|c z]; simpl; auto.
  rewrite IH. f_equal. lia.
Qed.

Lemma vminus_vplus_r x y z : vminus (vplus x y) z = vplus x (vminus y z).
Proof.
  unfold vplus, vminus. revert y z. induction x as [|a x IH]; intros [|b y] [|c z]; simpl; auto.
  rewrite IH. f_equal. lia.
Qed.

Lemma in_range_vzero k n : (0 < ik_bits k)%N -> Forall (in_range k) (vzero n).
Proof. intros Hk. apply Forall_replicate, in_range_zero, Hk. Qed.

End VectorSums.

Section TreeSums.
Context `{P : OrbParams}.
Hypothesis PO : params_ok.
Local Open Scope N_scope.

Lemma length_weight st x : length (weight st x) = nv_per_node.
Proof. apply (po_len PO). Qed.

Lemma in_range_weight st x : Forall (in_range NVType) (weight st x).
Proof. apply (po_range PO). Qed.

Lemma length_tsum st t : length (tsum st t) = nv_per_node.
Proof.
  induction t as [|l IHl x r IHr]; simpl.
  - apply length_vzero.
  - rewrite !length_vplus, IHl, IHr, length_weight. lia.
Qed.

Lemma length_child_sum st c :
  nv_ok st -> (c <> nil st -> valid st c) -> length (child_sum st c) = nv_per_node.
Proof.
  intros Hok Hc. unfold child_sum. destruct (N.eqb_spec c (nil st)).
  - apply length_vzero.
  - apply length_node_sum; auto.
Qed.

Lemma in_range_child_sum st c :
  Forall (in_range NVType) (nvarray st) -> Forall (in_range NVType) (child_sum st c).
Proof.
  intros H. unfold child_sum. destruct (c =? nil st).
  - apply in_range_vzero, (po_bits PO).
  - apply in_range_node_sum, H.
Qed.

Lemma length_usum st n :
  nv_ok st -> (lf st n <> nil st -> valid st (lf st n)) ->
  (rt st n <> nil st -> valid st (rt st n)) -> length (usum st n) = nv_per_node.
Proof.
  intros Hok Hl Hr. unfold usum.
  rewrite !length_vplus, length_weight, !length_child_sum by assumption. lia.
Qed.

(** the sum stored for the root of a subtree *)
Lemma child_sum_root st p t :
  rep st p t -> sums_ok st t -> child_sum st (root_of st t) = tsum st t.
Proof.
  unfold child_sum. destruct t as [|l x r]; simpl.
  - rewrite N.eqb_refl. reflexivity.
  - intros (Hx & _) (Hs & _). destruct (N.eqb_spec x (nil st)); [contradiction|exact Hs].
Qed.

Lemma wp_update_sum (E : error -> Prop) n st Q :
  nv_ok st -> Forall (in_range NVType) (nvarray st) -> valid st n ->
  (lf st n <> nil st -> valid st (lf st n)) ->
  (rt st n <> nil st -> valid st (rt st n)) ->
  E Arithmetic ->
  (Forall (in_range NVType) (usum st n) -> Q tt (set_sum st n (usum st n))) ->
  wp E (update_sum n) st Q.
Proof.
  intros Hok Hr Hv Hl Hrt HE HQ. unfold update_sum.
  wp_step PO; [exact Hv|].
  wp_step PO.
  wp_step PO; [exact Hv|].
  unfold usum, child_sum in HQ.
  apply wp_bind.
  destruct (N.eqb_spec (lf st n) (nil st)) as [El|El]; simpl.
  - apply wp_ret.
    rewrite vplus_zero_r in HQ by (rewrite length_weight; lia).
    wp_step PO; [exact Hv|].
    apply wp_bind.
    destruct (N.eqb_spec (rt st n) (nil st)) as [Er|Er]; simpl.
    + apply wp_ret.
      rewrite vplus_zero_r in HQ by (rewrite length_weight; lia).
      apply (wp_set_node_sum PO); auto using length_weight.
      apply HQ, in_range_weight.
    + wp_step PO; [exact Hok|auto|].
      apply (wp_NVAddM PO); auto using in_range_weight, in_range_node_sum.
      { rewrite length_weight, length_node_sum; auto. }
      intros Hs. apply (wp_set_node_sum PO); auto.
      rewrite length_vplus, length_weight, length_node_sum; auto. lia.
  - wp_step PO; [exact Hok|auto|].
    apply (wp_NVAddM PO); auto using in_range_weight, in_range_node_sum.
    { rewrite length_weight, length_node_sum; auto. }
    intros Hs1.
    wp_step PO; [exact Hv|].
    apply wp_bind.
    destruct (N.eqb_spec (rt st n) (nil st)) as [Er|Er]; simpl.
    + apply wp_ret.
      rewrite vplus_zero_r in HQ
        by (rewrite length_vplus, length_weight, length_node_sum; auto; lia).
      apply (wp_set_node_sum PO); auto.
      rewrite length_vplus, length_weight, length_node_sum; auto. lia.
    + wp_step PO; [exact Hok|auto|].
      apply (wp_NVAddM PO); auto using in_range_node_sum.
      { rewrite length_vplus, length_weight, !length_node_sum; auto. lia. }
      intros Hs. apply (wp_set_node_sum PO); auto.
      rewrite !length_vplus, length_weight, !length_node_sum; auto. lia.
Qed.

End TreeSums.

(** Lengths of sums of weights. *)
Ltac len_solve PO :=
  repeat apply length_vplus_eq;
  first [ apply (length_weight PO) | apply (length_tsum PO) | apply length_vzero
        | assumption ].


(** * Rotations *)

Section Rotations.
Context `{P : OrbParams}.
Hypothesis PO : params_ok.
Local Open Scope N_scope.

Lemma rotate_left_inv (E : error -> Prop) st C a x b y c fl :
  shape_inv st (plug (Nd a x (Nd b y c)) C) fl -> E Arithmetic ->
  wp E (rotate_left x) st (fun _ st' =>
    shape_inv st' (plug (Nd (Nd a x b) y c) C) fl /\ same_data st st').
Proof.
  intros HI HE. assert (HI0 := HI).
  destruct HI as [Hlen Hrv Hnv Hrn Hnb Hrl Hrr Hrep0 Hnd Hrf Hnf Hnvl Hnvr Hsums Hfree
                    Hndel Hsort].
  destruct (proj1 (rep_plug _ _ _) (conj Hrep0 Hrr)) as [Hrep Hctx].
  simpl in Hrep.
  destruct Hrep as (Hxn & Hxv & Hxp & Hxl & Hxr & Hra & Hyn & Hyv & Hyp & Hyl & Hyr & Hrb & Hrc).
  assert (Hnd0 := Hnd). rewrite inorder_plug in Hnd, Hrf. simpl in Hnd, Hrf.
  apply sums_plug in Hsums as (Hsum & Hsibs & Hpath). simpl in Hsum.
  destruct Hsum as (Hsx & Hsa & Hsy & Hsb & Hsc).
  assert (Hq := hole_parent_link st C x Hctx Hrv Hxn).
  assert (Hxc : x ∉ ctx_handles C) by (unfold ctx_handles; clear - Hnd; distinct).
  destruct (Hq Hxc) as (Hqv & Hqin & Hqlink). clear Hq.
  remember (hole_parent st C) as q eqn:Eq.
  assert (Hok : nv_ok st) by (split; assumption).
  assert (Hbv : root_of st b <> nil st -> valid st (root_of st b)).
  { intros Hne. eapply rep_root_valid; eauto. }
  assert (Hxy : x <> y) by (clear - Hnd; distinct).
  assert (Hqn : q <> nil st).
  { destruct Hqin as [->|Hqin]; [exact Hrn|]. intros ->.
    exact (rep_ctx_nil _ _ _ Hctx Hqin). }
  assert (Hzq : forall z,
    z ∈ inorder a \/ z ∈ inorder b \/ z ∈ inorder c \/ z ∈ fl \/ z = x \/ z = y -> z <> q).
  { intros z Hz. destruct Hqin as [->|Hqin]; [clear - Hz Hrf; distinct|].
    unfold ctx_handles in Hqin. clear - Hz Hqin Hnd. distinct. }
  assert (Hzb : forall z,
    z ∈ inorder a \/ z ∈ inorder c \/ z ∈ fl \/ z ∈ ctx_handles C \/ z = x \/ z = y ->
    z <> root_of st b).
  { intros z Hz. destruct (root_of_cases st b) as [Hb|Hb].
    - rewrite Hb. intros ->. pose proof (rep_nil _ _ _ Hra). pose proof (rep_nil _ _ _ Hrc).
      pose proof (rep_ctx_nil _ _ _ Hctx). pose proof Hnf. intuition congruence.
    - unfold ctx_handles in Hz. clear - Hz Hb Hnd. distinct. }
  assert (Hzx : forall z,
    z ∈ inorder a \/ z ∈ inorder b \/ z ∈ inorder c \/ z ∈ fl \/ z ∈ ctx_handles C ->
    z <> x /\ z <> y).
  { intros z Hz. unfold ctx_handles in Hz. split; clear - Hz Hnd; distinct. }
  assert (Hqx : q <> x) by (intros Heq; apply (Hzq x); auto 10).
  assert (Hqy : q <> y) by (intros Heq; apply (Hzq y); auto 10).
  assert (Hbx : root_of st b <> x) by (intros Heq; apply (Hzb x); auto 10).
  assert (Hby : root_of st b <> y) by (intros Heq; apply (Hzb y); auto 10).
  assert (Hqb : q <> root_of st b).
  { destruct Hqin as [Hq|Hqin]; [|apply Hzb; auto 10].
    destruct (root_of_cases st b) as [Hb|Hb]; [congruence|]. rewrite Hq.
    clear - Hb Hrf. distinct. }
  destruct (NoDup_plug_parts _ _ _ Hnd0) as (Hndt & HndC & Hndf).
  assert (Hndb : NoDup (inorder b)).
  { clear - Hndt. simpl in Hndt. nodup_split Hndt. tauto. }
  assert (Hrx : root st <> x /\ root st <> y) by (split; clear - Hrf; distinct).
  assert (Hrtb : root st <> root_of st b).
  { destruct (root_of_cases st b) as [Hb|Hb]; [congruence|]. clear - Hb Hrf. distinct. }
  assert (HrC : root st ∉ ctx_handles C).
  { unfold ctx_handles. clear - Hrf. distinct. }
  remember (root_of st b) as rb eqn:Erb.
  unfold rotate_left.
  wp_step PO.
  wp_step PO; [exact Hxv|]. rewrite Hxr.
  wp_step PO; [exact Hyv|]. rewrite Hyl.
  wp_step PO; [exact Hxv|].
  wp_step PO; [attr_side PO|]. attr_rw PO. dec_rw ltac:(reflexivity).
  apply wp_bind. apply wp_set_parent_if; [attr_side PO|attr_rw PO; exact Hbv|attr_side PO|].
  wp_step PO; [attr_side PO|]. attr_rw PO. rewrite pr_set_pr_if_ne by congruence.
  attr_rw PO. rewrite Hxp.
  wp_step PO; [attr_side PO|attr_side PO|].
  wp_step PO; [attr_side PO|].
  apply wp_bind. apply wp_set_child; [reflexivity|attr_side PO|].
  wp_step PO; [attr_side PO|].
  wp_step PO; [attr_side PO|attr_side PO|].
  set (st1 := set_pr _ x y).
  assert (Hnil1 : nil st1 = nil st) by (unfold st1; attr_rw PO; reflexivity).
  assert (Hroot1 : root st1 = root st) by (unfold st1; attr_rw PO; reflexivity).
  assert (Hval1 : forall z, valid st1 z = valid st z) by (intros z; unfold st1; attr_rw PO; reflexivity).
  assert (Hok1 : nv_ok st1) by (unfold st1; attr_rw PO; exact Hok).
  assert (Hnv1 : nvarray st1 = nvarray st) by (unfold st1; attr_rw PO; reflexivity).
  assert (Hlen1 : length (nodes st1) = length (nodes st)) by (unfold st1; attr_rw PO; reflexivity).
  assert (Hsz1 : size1 st1 = size1 st) by (unfold st1; attr_rw PO; reflexivity).
  assert (Hdel1 : n_del st1 = n_del st) by (unfold st1; attr_rw PO; reflexivity).
  assert (Hhd1 : deleted_nodes_head st1 = deleted_nodes_head st)
    by (unfold st1; attr_rw PO; reflexivity).
  assert (Hlf1x : lf st1 x = root_of st a).
  { unfold st1. attr_rw PO. dec_rw ltac:(congruence). rewrite lf_set_child_ne by congruence.
    attr_rw PO. exact Hxl. }
  assert (Hnd1 : forall z, z <> x -> z <> y -> z <> rb -> z <> q -> nd st1 z = nd st z).
  { intros z H1 H2 H3 H4. unfold st1.
    rewrite nd_set_pr_ne, nd_set_lf_ne, nd_set_child_ne, nd_set_pr_ne, nd_set_pr_if_ne,
      nd_set_rt_ne by assumption. reflexivity. }
  assert (Hrt1x : rt st1 x = rb).
  { unfold st1. attr_rw PO. rewrite rt_set_child_ne by congruence.
    attr_rw PO. dec_rw ltac:(congruence). reflexivity. }
  assert (Hpr1x : pr st1 x = y).
  { unfold st1. attr_rw PO. dec_rw ltac:(congruence). reflexivity. }
  assert (Hlf1y : lf st1 y = x).
  { unfold st1. attr_rw PO. dec_rw ltac:(congruence). reflexivity. }
  assert (Hrt1y : rt st1 y = root_of st c).
  { unfold st1. attr_rw PO. rewrite rt_set_child_ne by congruence.
    attr_rw PO. dec_rw ltac:(congruence). exact Hyr. }
  assert (Hpr1y : pr st1 y = q).
  { unfold st1. attr_rw PO. dec_rw ltac:(congruence). reflexivity. }
  assert (Hred1 : forall z, red st1 z = red st z).
  { intros z. unfold st1. attr_rw PO. reflexivity. }
  assert (Hent1 : forall z, ent st1 z = ent st z).
  { intros z. unfold st1. attr_rw PO. reflexivity. }
  assert (Hb1 : rb <> nil st -> lf st1 rb = lf st rb /\ rt st1 rb = rt st rb /\ pr st1 rb = x).
  { intros Hne. pose proof (Hbv Hne) as Hbv'.
    unfold st1. attr_rw PO. rewrite lf_set_child_ne, rt_set_child_ne by congruence.
    attr_rw PO. dec_rw ltac:(congruence).
    rewrite (pr_set_pr_if_eq PO) by attr_side PO. auto. }
  assert (Hq1 : pr st1 q = pr st q
    /\ (rt st q = x -> rt st1 q = y /\ lf st1 q = lf st q)
    /\ (rt st q <> x -> lf st1 q = y /\ rt st1 q = rt st q)).
  { unfold st1. attr_rw PO. dec_rw ltac:(congruence).
    rewrite pr_set_pr_if_ne by congruence. attr_rw PO.
    set (st0 := set_pr _ y q).
    assert (Hv0 : valid st0 q) by (unfold st0; attr_side PO).
    assert (Hr0 : rt st0 q = rt st q).
    { unfold st0. attr_rw PO. dec_rw ltac:(congruence). reflexivity. }
    assert (Hl0 : lf st0 q = lf st q).
    { unfold st0. attr_rw PO. dec_rw ltac:(congruence). reflexivity. }
    split; [reflexivity|]. split; intros Hc.
    - rewrite <- Hl0. apply set_child_right; congruence.
    - rewrite <- Hr0. apply set_child_left; congruence. }
  clearbody st1.
  assert (Hca : child_sum st (root_of st a) = tsum st a) by (eapply child_sum_root; eauto).
  assert (Hcb : child_sum st rb = tsum st b) by (subst rb; eapply child_sum_root; eauto).
  assert (Hcc : child_sum st (root_of st c) = tsum st c) by (eapply child_sum_root; eauto).
  assert (Hu1 : usum st1 x = vplus (vplus (weight st x) (tsum st a)) (tsum st b)).
  { unfold usum. rewrite Hlf1x, Hrt1x, !(child_sum_ext st st1), (weight_ext st st1) by auto.
    rewrite Hca, Hcb. reflexivity. }
  apply wp_bind. apply (wp_update_sum PO); auto.
  { rewrite Hnv1. exact Hnvr. }
  { rewrite Hval1. exact Hxv. }
  { rewrite Hlf1x, Hnil1, Hval1. eapply rep_root_valid; eauto. }
  { rewrite Hrt1x, Hnil1, Hval1. exact Hbv. }
  intros Hr1. rewrite Hu1 in *.
  set (sx := vplus (vplus (weight st x) (tsum st a)) (tsum st b)) in *.
  assert (Hlsx : length sx = nv_per_node).
  { unfold sx. len_solve PO. }
  set (st2 := set_sum st1 x sx).
  assert (Hv1x : valid st1 x) by (rewrite Hval1; exact Hxv).
  assert (Hok2 : nv_ok st2) by (apply nv_ok_set_sum; assumption).
  assert (Hns2 : forall z, valid st z -> node_sum st2 z = if decide (z = x) then sx else node_sum st z).
  { intros z Hz. unfold st2. rewrite node_sum_set_sum by (rewrite ?Hval1; assumption).
    destruct (decide _); [reflexivity|]. apply node_sum_ext, Hnv1. }
  assert (Hvc : root_of st c <> nil st -> valid st (root_of st c)).
  { intros Hne. eapply rep_root_valid; eauto. }
  assert (Hcx : root_of st c <> x).
  { destruct (root_of_cases st c) as [Hc|Hc]; [congruence|]. apply Hzx. auto. }
  assert (Hu2 : usum st2 y = vplus (vplus (weight st y) sx) (tsum st c)).
  { unfold usum. change (lf st2 y) with (lf st1 y). change (rt st2 y) with (rt st1 y).
    change (weight st2 y) with (weight st1 y).
    rewrite Hlf1y, Hrt1y, (weight_ext st st1) by auto. f_equal; [f_equal|].
    - unfold child_sum. change (nil st2) with (nil st1). rewrite Hnil1.
      destruct (N.eqb_spec x (nil st)); [contradiction|].
      rewrite Hns2 by exact Hxv. rewrite decide_True; reflexivity.
    - rewrite <- Hcc. unfold child_sum. change (nil st2) with (nil st1). rewrite Hnil1.
      destruct (N.eqb_spec (root_of st c) (nil st)) as [Ec|Ec]; [reflexivity|].
      rewrite Hns2 by auto. rewrite decide_False by exact Hcx. reflexivity. }
  apply (wp_update_sum PO); auto.
  { apply in_range_set_sum; auto. rewrite Hnv1. exact Hnvr. }
  { change (valid st1 y). rewrite Hval1. exact Hyv. }
  { change (lf st1 y <> nil st1 -> valid st1 (lf st1 y)). rewrite Hlf1y. auto. }
  { change (rt st1 y <> nil st1 -> valid st1 (rt st1 y)). rewrite Hrt1y, Hnil1, Hval1. exact Hvc. }
  intros Hr2. rewrite Hu2 in *.
  set (sy := vplus (vplus (weight st y) sx) (tsum st c)) in *.
  assert (Hlsy : length sy = nv_per_node) by (unfold sy; len_solve PO).
  set (st3 := set_sum st2 y sy).
  assert (Hv2y : valid st2 y) by (change (valid st1 y); rewrite Hval1; exact Hyv).
  assert (Hns3 : forall z, valid st z ->
    node_sum st3 z = if decide (z = y) then sy else if decide (z = x) then sx
                     else node_sum st z).
  { intros z Hz. unfold st3. rewrite node_sum_set_sum; auto.
    - destruct (decide _); [reflexivity|]. apply Hns2, Hz.
    - change (valid st1 z). rewrite Hval1. exact Hz. }
  assert (Hnd3 : forall z, nd st3 z = nd st1 z) by reflexivity.
  assert (Hw3 : forall z, weight st3 z = weight st z).
  { intros z. change (weight st1 z = weight st z). apply weight_ext, Hent1. }
  assert (Hval3 : forall z, valid st z -> valid st3 z).
  { intros z Hz. change (valid st1 z). rewrite Hval1. exact Hz. }
  assert (Hnil3 : nil st3 = nil st) by exact Hnil1.
  assert (Hroot3 : root st3 = root st) by exact Hroot1.
  assert (Hlen3 : length (nodes st3) = length (nodes st)) by exact Hlen1.
  assert (Hsz3 : size1 st3 = size1 st) by exact Hsz1.
  assert (Hdel3 : n_del st3 = n_del st) by exact Hdel1.
  assert (Hhd3 : deleted_nodes_head st3 = deleted_nodes_head st) by exact Hhd1.
  assert (Hnvl3 : length (nvarray st3) = length (nvarray st)).
  { unfold st3. rewrite length_nvarray_set_sum by assumption.
    unfold st2. rewrite length_nvarray_set_sum by assumption. rewrite Hnv1. reflexivity. }
  assert (Hnvr3 : Forall (in_range NVType) (nvarray st3)).
  { unfold st3. apply in_range_set_sum; auto.
    unfold st2. apply in_range_set_sum; auto. rewrite Hnv1. exact Hnvr. }
  clearbody st3. clear Hns2 Hok2 Hv2y Hu2. clearbody st2.
  assert (Hfr : forall z,
    z ∈ inorder a \/ z ∈ inorder c \/ z ∈ fl \/ (z ∈ ctx_handles C /\ z <> q)
    \/ (z ∈ inorder b /\ z <> rb) -> nd st3 z = nd st z).
  { intros z Hz. rewrite Hnd3. apply Hnd1.
    - apply Hzx. clear - Hz. tauto.
    - apply Hzx. clear - Hz. tauto.
    - destruct Hz as [Hz|[Hz|[Hz|[[Hz _]|[_ Hz]]]]]; auto; apply Hzb; auto.
    - destruct Hz as [Hz|[Hz|[Hz|[[_ Hz]|[Hz _]]]]]; auto; apply Hzq; auto. }
  assert (Hrt3 : forall t, root_of st3 t = root_of st t).
  { intros t. apply root_of_frame, Hnil3. }
  destruct Hq1 as (Hq1p & Hq1r & Hq1l).
  assert (Hx3 : pr st3 x = y /\ lf st3 x = root_of st a /\ rt st3 x = rb).
  { unfold pr, lf, rt. rewrite Hnd3. auto. }
  assert (Hy3 : pr st3 y = q /\ lf st3 y = x /\ rt st3 y = root_of st c).
  { unfold pr, lf, rt. rewrite Hnd3. auto. }
  assert (Hrep3 : rep st3 (root st3) (plug (Nd (Nd a x b) y c) C)
                  /\ rt st3 (root st3) = root_of st3 (plug (Nd (Nd a x b) y c) C)).
  { apply rep_plug.
    rewrite (hole_parent_frame st st3), <- Eq by exact Hroot3. split.
    - simpl. rewrite !Hrt3, Hnil3, <- Erb.
      destruct Hx3 as (? & ? & ?). destruct Hy3 as (? & ? & ?).
      repeat split; auto.
      + eapply rep_frame; [exact Hnil3|exact Hval3| |exact Hra]. intros z Hz. apply Hfr. auto.
      + eapply rep_reparent; [exact Hrb|exact Hndb|exact Hnil3|exact Hval3| |].
        * intros z Hz Hne. apply Hfr. subst rb. auto 10.
        * rewrite <- Erb. intros Hne'. destruct (Hb1 Hne') as (Hb1a & Hb1b & Hb1c).
          repeat split; unfold pr, lf, rt; rewrite Hnd3; assumption.
      + eapply rep_frame; [exact Hnil3|exact Hval3| |exact Hrc]. intros z Hz. apply Hfr. auto.
    - simpl. eapply (rep_ctx_rehole st st3 C x y); rewrite <- ?Eq; auto.
      + intros z Hz Hne. apply Hfr. auto 10.
      + intros Hne. unfold rt. rewrite Hnd3.
        rewrite Hnd1; [reflexivity|apply Hrx|apply Hrx|exact Hrtb|congruence].
      + unfold pr. rewrite Hnd3. exact Hq1p.
      + unfold rt, lf. rewrite Hnd3. exact Hq1r.
      + unfold rt, lf. rewrite Hnd3. exact Hq1l. }
  rewrite Hroot3, Hrt3 in Hrep3. destruct Hrep3 as [Hrep3 Hrr3].
  assert (Hsame : forall z, z ∈ ctx_handles C ->
    weight st3 z = weight st z /\ node_sum st3 z = node_sum st z).
  { intros z Hz. split; [apply Hw3|].
    rewrite Hns3 by (eapply rep_ctx_valid; eauto).
    destruct (Hzx z) as [Hz1 Hz2]; [auto 10|].
    rewrite !decide_False by assumption. reflexivity. }
  assert (Hsame' : forall t, (forall z, z ∈ inorder t -> z <> x /\ z <> y /\ valid st z) ->
    forall z, z ∈ inorder t -> weight st3 z = weight st z /\ node_sum st3 z = node_sum st z).
  { intros t Ht z Hz. destruct (Ht z Hz) as (H1 & H2 & H3). split; [apply Hw3|].
    rewrite Hns3 by exact H3. rewrite !decide_False by assumption. reflexivity. }
  assert (Hts : forall t, tsum st3 t = tsum st t).
  { intros t. apply tsum_frame. intros z _. apply Hw3. }
  split.
  - eapply shape_inv_rebuild with (st := st); [exact HI0|try assumption..].
    + intros z Hz. unfold lf. rewrite Hfr by auto. reflexivity.
    + unfold red. rewrite Hnd3. rewrite <- Hnb. apply Hred1.
    + unfold lf. rewrite Hnd3. change (lf st1 (root st) = nil st).
      destruct (decide (q = root st)) as [Hqr|Hqr].
      * rewrite <- Hqr.
        assert (Hx : rt st q = x).
        { destruct Hqlink as [Hx|[_ Hx]]; [exact Hx|]. rewrite Hqr, Hrl in Hx. congruence. }
        rewrite (proj2 (Hq1r Hx)), Hqr. exact Hrl.
      * unfold lf. rewrite Hnd1; [exact Hrl|apply Hrx|apply Hrx|exact Hrtb|congruence].
    + rewrite !inorder_plug. f_equal. f_equal. simpl. rewrite <- app_assoc. reflexivity.
    + intros z _. apply key_of_ext. unfold ent. rewrite Hnd3. apply Hent1.
    + apply sums_plug. rewrite Hts. split; [|split].
      * simpl. rewrite !Hts, !Hw3.
        rewrite !Hns3 by assumption.
        rewrite decide_True by reflexivity.
        rewrite (decide_False (P := x = y)) by exact Hxy.
        rewrite decide_True by reflexivity.
        split; [reflexivity|]. split; [split; [reflexivity|split]|].
        -- eapply sums_ok_frame; [|exact Hsa]. apply Hsame'. intros z Hz.
           destruct (Hzx z); [auto|]. repeat split; auto.
           eapply rep_valid; [exact Hra|exact Hz].
        -- eapply sums_ok_frame; [|exact Hsb]. apply Hsame'. intros z Hz.
           destruct (Hzx z); [auto|]. repeat split; auto.
           eapply rep_valid; [exact Hrb|exact Hz].
        -- eapply sums_ok_frame; [|exact Hsc]. apply Hsame'. intros z Hz.
           destruct (Hzx z); [auto|]. repeat split; auto.
           eapply rep_valid; [exact Hrc|exact Hz].
      * eapply ctx_sibs_ok_frame; [exact Hsame|exact Hsibs].
      * eapply ctx_path_ok_frame; [exact Hsame|].
        replace (tsum st (Nd (Nd a x b) y c)) with (tsum st (Nd a x (Nd b y c))); [exact Hpath|].
        simpl. symmetry. apply vplus_rotate.
  - repeat split.
    + intros z. unfold red. rewrite Hnd3. apply Hred1.
    + intros z. unfold ent. rewrite Hnd3. apply Hent1.
    + exact Hlen3.
    + exact Hnil3.
    + exact Hroot3.
    + exact Hsz3.
Qed.

Lemma rotate_right_inv (E : error -> Prop) st C a x b y c fl :
  shape_inv st (plug (Nd (Nd c y b) x a) C) fl -> E Arithmetic ->
  wp E (rotate_right x) st (fun _ st' =>
    shape_inv st' (plug (Nd c y (Nd b x a)) C) fl /\ same_data st st').
Proof.
  intros HI HE. assert (HI0 := HI).
  destruct HI as [Hlen Hrv Hnv Hrn Hnb Hrl Hrr Hrep0 Hnd Hrf Hnf Hnvl Hnvr Hsums Hfree
                    Hndel Hsort].
  destruct (proj1 (rep_plug _ _ _) (conj Hrep0 Hrr)) as [Hrep Hctx].
  simpl in Hrep.
  destruct Hrep as (Hxn & Hxv & Hxp & Hxr & Hxl & (Hyn & Hyv & Hyp & Hyr & Hyl & Hrc & Hrb) & Hra).
  assert (Hnd0 := Hnd). rewrite inorder_plug in Hnd, Hrf. simpl in Hnd, Hrf.
  apply sums_plug in Hsums as (Hsum & Hsibs & Hpath). simpl in Hsum.
  destruct Hsum as (Hsx & (Hsy & Hsc & Hsb) & Hsa).
  assert (Hq := hole_parent_link st C x Hctx Hrv Hxn).
  assert (Hxc : x ∉ ctx_handles C) by (unfold ctx_handles; clear - Hnd; distinct).
  destruct (Hq Hxc) as (Hqv & Hqin & Hqlink). clear Hq.
  remember (hole_parent st C) as q eqn:Eq.
  assert (Hok : nv_ok st) by (split; assumption).
  assert (Hbv : root_of st b <> nil st -> valid st (root_of st b)).
  { intros Hne. eapply rep_root_valid; eauto. }
  assert (Hxy : x <> y) by (clear - Hnd; distinct).
  assert (Hqn : q <> nil st).
  { destruct Hqin as [->|Hqin]; [exact Hrn|]. intros ->.
    exact (rep_ctx_nil _ _ _ Hctx Hqin). }
  assert (Hzq : forall z,
    z ∈ inorder a \/ z ∈ inorder b \/ z ∈ inorder c \/ z ∈ fl \/ z = x \/ z = y -> z <> q).
  { intros z Hz. destruct Hqin as [->|Hqin]; [clear - Hz Hrf; distinct|].
    unfold ctx_handles in Hqin. clear - Hz Hqin Hnd. distinct. }
  assert (Hzb : forall z,
    z ∈ inorder a \/ z ∈ inorder c \/ z ∈ fl \/ z ∈ ctx_handles C \/ z = x \/ z = y ->
    z <> root_of st b).
  { intros z Hz. destruct (root_of_cases st b) as [Hb|Hb].
    - rewrite Hb. intros ->. pose proof (rep_nil _ _ _ Hra). pose proof (rep_nil _ _ _ Hrc).
      pose proof (rep_ctx_nil _ _ _ Hctx). pose proof Hnf. intuition congruence.
    - unfold ctx_handles in Hz. clear - Hz Hb Hnd. distinct. }
  assert (Hzx : forall z,
    z ∈ inorder a \/ z ∈ inorder b \/ z ∈ inorder c \/ z ∈ fl \/ z ∈ ctx_handles C ->
    z <> x /\ z <> y).
  { intros z Hz. unfold ctx_handles in Hz. split; clear - Hz Hnd; distinct. }
  assert (Hqx : q <> x) by (intros Heq; apply (Hzq x); auto 10).
  assert (Hqy : q <> y) by (intros Heq; apply (Hzq y); auto 10).
  assert (Hbx : root_of st b <> x) by (intros Heq; apply (Hzb x); auto 10).
  assert (Hby : root_of st b <> y) by (intros Heq; apply (Hzb y); auto 10).
  assert (Hqb : q <> root_of st b).
  { destruct Hqin as [Hq|Hqin]; [|apply Hzb; auto 10].
    destruct (root_of_cases st b) as [Hb|Hb]; [congruence|]. rewrite Hq.
    clear - Hb Hrf. distinct. }
  destruct (NoDup_plug_parts _ _ _ Hnd0) as (Hndt & HndC & Hndf).
  assert (Hndb : NoDup (inorder b)).
  { clear - Hndt. simpl in Hndt. nodup_split Hndt. tauto. }
  assert (Hrx : root st <> x /\ root st <> y) by (split; clear - Hrf; distinct).
  assert (Hrtb : root st <> root_of st b).
  { destruct (root_of_cases st b) as [Hb|Hb]; [congruence|]. clear - Hb Hrf. distinct. }
  assert (HrC : root st ∉ ctx_handles C).
  { unfold ctx_handles. clear - Hrf. distinct. }
  remember (root_of st b) as rb eqn:Erb.
  unfold rotate_right.
  wp_step PO.
  wp_step PO; [exact Hxv|]. rewrite Hxr.
  wp_step PO; [exact Hyv|]. rewrite Hyl.
  wp_step PO; [exact Hxv|].
  wp_step PO; [attr_side PO|]. attr_rw PO. dec_rw ltac:(reflexivity).
  apply wp_bind. apply wp_set_parent_if; [attr_side PO|attr_rw PO; exact Hbv|attr_side PO|].
  wp_step PO; [attr_side PO|]. attr_rw PO. rewrite pr_set_pr_if_ne by congruence.
  attr_rw PO. rewrite Hxp.
  wp_step PO; [attr_side PO|attr_side PO|].
  wp_step PO; [attr_side PO|].
  apply wp_bind. apply wp_set_child; [reflexivity|attr_side PO|].
  wp_step PO; [attr_side PO|].
  wp_step PO; [attr_side PO|attr_side PO|].
  set (st1 := set_pr _ x y).
  assert (Hnil1 : nil st1 = nil st) by (unfold st1; attr_rw PO; reflexivity).
  assert (Hroot1 : root st1 = root st) by (unfold st1; attr_rw PO; reflexivity).
  assert (Hval1 : forall z, valid st1 z = valid st z) by (intros z; unfold st1; attr_rw PO; reflexivity).
  assert (Hok1 : nv_ok st1) by (unfold st1; attr_rw PO; exact Hok).
  assert (Hnv1 : nvarray st1 = nvarray st) by (unfold st1; attr_rw PO; reflexivity).
  assert (Hlen1 : length (nodes st1) = length (nodes st)) by (unfold st1; attr_rw PO; reflexivity).
  assert (Hsz1 : size1 st1 = size1 st) by (unfold st1; attr_rw PO; reflexivity).
  assert (Hdel1 : n_del st1 = n_del st) by (unfold st1; attr_rw PO; reflexivity).
  assert (Hhd1 : deleted_nodes_head st1 = deleted_nodes_head st)
    by (unfold st1; attr_rw PO; reflexivity).
  assert (Hrt1x : rt st1 x = root_of st a).
  { unfold st1. attr_rw PO. dec_rw ltac:(congruence). rewrite rt_set_child_ne by congruence.
    attr_rw PO. exact Hxl. }
  assert (Hnd1 : forall z, z <> x -> z <> y -> z <> rb -> z <> q -> nd st1 z = nd st z).
  { intros z H1 H2 H3 H4. unfold st1.
    rewrite nd_set_pr_ne, nd_set_rt_ne, nd_set_child_ne, nd_set_pr_ne, nd_set_pr_if_ne,
      nd_set_lf_ne by assumption. reflexivity. }
  assert (Hlf1x : lf st1 x = rb).
  { unfold st1. attr_rw PO. rewrite lf_set_child_ne by congruence.
    attr_rw PO. dec_rw ltac:(congruence). reflexivity. }
  assert (Hpr1x : pr st1 x = y).
  { unfold st1. attr_rw PO. dec_rw ltac:(congruence). reflexivity. }
  assert (Hrt1y : rt st1 y = x).
  { unfold st1. attr_rw PO. dec_rw ltac:(congruence). reflexivity. }
  assert (Hlf1y : lf st1 y = root_of st c).
  { unfold st1. attr_rw PO. rewrite lf_set_child_ne by congruence.
    attr_rw PO. dec_rw ltac:(congruence). exact Hyr. }
  assert (Hpr1y : pr st1 y = q).
  { unfold st1. attr_rw PO. dec_rw ltac:(congruence). reflexivity. }
  assert (Hred1 : forall z, red st1 z = red st z).
  { intros z. unfold st1. attr_rw PO. reflexivity. }
  assert (Hent1 : forall z, ent st1 z = ent st z).
  { intros z. unfold st1. attr_rw PO. reflexivity. }
  assert (Hb1 : rb <> nil st -> rt st1 rb = rt st rb /\ lf st1 rb = lf st rb /\ pr st1 rb = x).
  { intros Hne. pose proof (Hbv Hne) as Hbv'.
    unfold st1. attr_rw PO. rewrite rt_set_child_ne, lf_set_child_ne by congruence.
    attr_rw PO. dec_rw ltac:(congruence).
    rewrite (pr_set_pr_if_eq PO) by attr_side PO. auto. }
  assert (Hq1 : pr st1 q = pr st q
    /\ (rt st q = x -> rt st1 q = y /\ lf st1 q = lf st q)
    /\ (rt st q <> x -> lf st1 q = y /\ rt st1 q = rt st q)).
  { unfold st1. attr_rw PO. dec_rw ltac:(congruence).
    rewrite pr_set_pr_if_ne by congruence. attr_rw PO.
    set (st0 := set_pr _ y q).
    assert (Hv0 : valid st0 q) by (unfold st0; attr_side PO).
    assert (Hr0 : rt st0 q = rt st q).
    { unfold st0. attr_rw PO. dec_rw ltac:(congruence). reflexivity. }
    assert (Hl0 : lf st0 q = lf st q).
    { unfold st0. attr_rw PO. dec_rw ltac:(congruence). reflexivity. }
    split; [reflexivity|]. split; intros Hc.
    - rewrite <- Hl0. apply set_child_right; congruence.
    - rewrite <- Hr0. apply set_child_left; congruence. }
  clearbody st1.
  assert (Hca : child_sum st (root_of st a) = tsum st a) by (eapply child_sum_root; eauto).
  assert (Hcb : child_sum st rb = tsum st b) by (subst rb; eapply child_sum_root; eauto).
  assert (Hcc : child_sum st (root_of st c) = tsum st c) by (eapply child_sum_root; eauto).
  assert (Hu1 : usum st1 x = vplus (vplus (weight st x) (tsum st b)) (tsum st a)).
  { unfold usum. rewrite Hrt1x, Hlf1x, !(child_sum_ext st st1), (weight_ext st st1) by auto.
    rewrite Hca, Hcb. reflexivity. }
  apply wp_bind. apply (wp_update_sum PO); auto.
  { rewrite Hnv1. exact Hnvr. }
  { rewrite Hval1. exact Hxv. }
  { rewrite Hlf1x, Hnil1, Hval1. exact Hbv. }
  { rewrite Hrt1x, Hnil1, Hval1. eapply rep_root_valid; eauto. }
  intros Hr1. rewrite Hu1 in *.
  set (sx := vplus (vplus (weight st x) (tsum st b)) (tsum st a)) in *.
  assert (Hlsx : length sx = nv_per_node).
  { unfold sx. len_solve PO. }
  set (st2 := set_sum st1 x sx).
  assert (Hv1x : valid st1 x) by (rewrite Hval1; exact Hxv).
  assert (Hok2 : nv_ok st2) by (apply nv_ok_set_sum; assumption).
  assert (Hns2 : forall z, valid st z -> node_sum st2 z = if decide (z = x) then sx else node_sum st z).
  { intros z Hz. unfold st2. rewrite node_sum_set_sum by (rewrite ?Hval1; assumption).
    destruct (decide _); [reflexivity|]. apply node_sum_ext, Hnv1. }
  assert (Hvc : root_of st c <> nil st -> valid st (root_of st c)).
  { intros Hne. eapply rep_root_valid; eauto. }
  assert (Hcx : root_of st c <> x).
  { destruct (root_of_cases st c) as [Hc|Hc]; [congruence|]. apply Hzx. auto. }
  assert (Hu2 : usum st2 y = vplus (vplus (weight st y) (tsum st c)) sx).
  { unfold usum. change (rt st2 y) with (rt st1 y). change (lf st2 y) with (lf st1 y).
    change (weight st2 y) with (weight st1 y).
    rewrite Hrt1y, Hlf1y, (weight_ext st st1) by auto. f_equal; [f_equal|].
    - rewrite <- Hcc. unfold child_sum. change (nil st2) with (nil st1). rewrite Hnil1.
      destruct (N.eqb_spec (root_of st c) (nil st)) as [Ec|Ec]; [reflexivity|].
      rewrite Hns2 by auto. rewrite decide_False by exact Hcx. reflexivity.
    - unfold child_sum. change (nil st2) with (nil st1). rewrite Hnil1.
      destruct (N.eqb_spec x (nil st)); [contradiction|].
      rewrite Hns2 by exact Hxv. rewrite decide_True; reflexivity. }
  apply (wp_update_sum PO); auto.
  { apply in_range_set_sum; auto. rewrite Hnv1. exact Hnvr. }
  { change (valid st1 y). rewrite Hval1. exact Hyv. }
  { change (lf st1 y <> nil st1 -> valid st1 (lf st1 y)). rewrite Hlf1y, Hnil1, Hval1. exact Hvc. }
  { change (rt st1 y <> nil st1 -> valid st1 (rt st1 y)). rewrite Hrt1y. auto. }
  intros Hr2. rewrite Hu2 in *.
  set (sy := vplus (vplus (weight st y) (tsum st c)) sx) in *.
  assert (Hlsy : length sy = nv_per_node) by (unfold sy; len_solve PO).
  set (st3 := set_sum st2 y sy).
  assert (Hv2y : valid st2 y) by (change (valid st1 y); rewrite Hval1; exact Hyv).
  assert (Hns3 : forall z, valid st z ->
    node_sum st3 z = if decide (z = y) then sy else if decide (z = x) then sx
                     else node_sum st z).
  { intros z Hz. unfold st3. rewrite node_sum_set_sum; auto.
    - destruct (decide _); [reflexivity|]. apply Hns2, Hz.
    - change (valid st1 z). rewrite Hval1. exact Hz. }
  assert (Hnd3 : forall z, nd st3 z = nd st1 z) by reflexivity.
  assert (Hw3 : forall z, weight st3 z = weight st z).
  { intros z. change (weight st1 z = weight st z). apply weight_ext, Hent1. }
  assert (Hval3 : forall z, valid st z -> valid st3 z).
  { intros z Hz. change (valid st1 z). rewrite Hval1. exact Hz. }
  assert (Hnil3 : nil st3 = nil st) by exact Hnil1.
  assert (Hroot3 : root st3 = root st) by exact Hroot1.
  assert (Hlen3 : length (nodes st3) = length (nodes st)) by exact Hlen1.
  assert (Hsz3 : size1 st3 = size1 st) by exact Hsz1.
  assert (Hdel3 : n_del st3 = n_del st) by exact Hdel1.
  assert (Hhd3 : deleted_nodes_head st3 = deleted_nodes_head st) by exact Hhd1.
  assert (Hnvl3 : length (nvarray st3) = length (nvarray st)).
  { unfold st3. rewrite length_nvarray_set_sum by assumption.
    unfold st2. rewrite length_nvarray_set_sum by assumption. rewrite Hnv1. reflexivity. }
  assert (Hnvr3 : Forall (in_range NVType) (nvarray st3)).
  { unfold st3. apply in_range_set_sum; auto.
    unfold st2. apply in_range_set_sum; auto. rewrite Hnv1. exact Hnvr. }
  clearbody st3. clear Hns2 Hok2 Hv2y Hu2. clearbody st2.
  assert (Hfr : forall z,
    z ∈ inorder a \/ z ∈ inorder c \/ z ∈ fl \/ (z ∈ ctx_handles C /\ z <> q)
    \/ (z ∈ inorder b /\ z <> rb) -> nd st3 z = nd st z).
  { intros z Hz. rewrite Hnd3. apply Hnd1.
    - apply Hzx. clear - Hz. tauto.
    - apply Hzx. clear - Hz. tauto.
    - destruct Hz as [Hz|[Hz|[Hz|[[Hz _]|[_ Hz]]]]]; auto; apply Hzb; auto.
    - destruct Hz as [Hz|[Hz|[Hz|[[_ Hz]|[Hz _]]]]]; auto; apply Hzq; auto. }
  assert (Hrt3 : forall t, root_of st3 t = root_of st t).
  { intros t. apply root_of_frame, Hnil3. }
  destruct Hq1 as (Hq1p & Hq1r & Hq1l).
  assert (Hx3 : pr st3 x = y /\ rt st3 x = root_of st a /\ lf st3 x = rb).
  { unfold pr, rt, lf. rewrite Hnd3. auto. }
  assert (Hy3 : pr st3 y = q /\ rt st3 y = x /\ lf st3 y = root_of st c).
  { unfold pr, rt, lf. rewrite Hnd3. auto. }
  assert (Hrep3 : rep st3 (root st3) (plug (Nd c y (Nd b x a)) C)
                  /\ rt st3 (root st3) = root_of st3 (plug (Nd c y (Nd b x a)) C)).
  { apply rep_plug.
    rewrite (hole_parent_frame st st3), <- Eq by exact Hroot3. split.
    - simpl. rewrite !Hrt3, Hnil3, <- Erb.
      destruct Hx3 as (? & ? & ?). destruct Hy3 as (? & ? & ?).
      repeat split; auto.
      + eapply rep_frame; [exact Hnil3|exact Hval3| |exact Hrc]. intros z Hz. apply Hfr. auto.
      + eapply rep_reparent; [exact Hrb|exact Hndb|exact Hnil3|exact Hval3| |].
        * intros z Hz Hne. apply Hfr. subst rb. auto 10.
        * rewrite <- Erb. intros Hne'. destruct (Hb1 Hne') as (Hb1a & Hb1b & Hb1c).
          repeat split; unfold pr, rt, lf; rewrite Hnd3; assumption.
      + eapply rep_frame; [exact Hnil3|exact Hval3| |exact Hra]. intros z Hz. apply Hfr. auto.
    - simpl. eapply (rep_ctx_rehole st st3 C x y); rewrite <- ?Eq; auto.
      + intros z Hz Hne. apply Hfr. auto 10.
      + intros Hne. unfold rt. rewrite Hnd3.
        rewrite Hnd1; [reflexivity|apply Hrx|apply Hrx|exact Hrtb|congruence].
      + unfold pr. rewrite Hnd3. exact Hq1p.
      + unfold rt, lf. rewrite Hnd3. exact Hq1r.
      + unfold rt, lf. rewrite Hnd3. exact Hq1l. }
  rewrite Hroot3, Hrt3 in Hrep3. destruct Hrep3 as [Hrep3 Hrr3].
  assert (Hsame : forall z, z ∈ ctx_handles C ->
    weight st3 z = weight st z /\ node_sum st3 z = node_sum st z).
  { intros z Hz. split; [apply Hw3|].
    rewrite Hns3 by (eapply rep_ctx_valid; eauto).
    destruct (Hzx z) as [Hz1 Hz2]; [auto 10|].
    rewrite !decide_False by assumption. reflexivity. }
  assert (Hsame' : forall t, (forall z, z ∈ inorder t -> z <> x /\ z <> y /\ valid st z) ->
    forall z, z ∈ inorder t -> weight st3 z = weight st z /\ node_sum st3 z = node_sum st z).
  { intros t Ht z Hz. destruct (Ht z Hz) as (H1 & H2 & H3). split; [apply Hw3|].
    rewrite Hns3 by exact H3. rewrite !decide_False by assumption. reflexivity. }
  assert (Hts : forall t, tsum st3 t = tsum st t).
  { intros t. apply tsum_frame. intros z _. apply Hw3. }
  split.
  - eapply shape_inv_rebuild with (st := st); [exact HI0|try assumption..].
    + intros z Hz. unfold lf. rewrite Hfr by auto. reflexivity.
    + unfold red. rewrite Hnd3. rewrite <- Hnb. apply Hred1.
    + unfold lf. rewrite Hnd3. change (lf st1 (root st) = nil st).
      destruct (decide (q = root st)) as [Hqr|Hqr].
      * rewrite <- Hqr.
        assert (Hx : rt st q = x).
        { destruct Hqlink as [Hx|[_ Hx]]; [exact Hx|]. rewrite Hqr, Hrl in Hx. congruence. }
        rewrite (proj2 (Hq1r Hx)), Hqr. exact Hrl.
      * unfold lf. rewrite Hnd1; [exact Hrl|apply Hrx|apply Hrx|exact Hrtb|congruence].
    + rewrite !inorder_plug. f_equal. f_equal. simpl. rewrite <- app_assoc. reflexivity.
    + intros z _. apply key_of_ext. unfold ent. rewrite Hnd3. apply Hent1.
    + apply sums_plug. rewrite Hts. split; [|split].
      * simpl. rewrite !Hts, !Hw3.
        rewrite !Hns3 by assumption.
        rewrite decide_True by reflexivity.
        rewrite (decide_False (P := x = y)) by exact Hxy.
        rewrite decide_True by reflexivity.
        split; [reflexivity|]. split; [|split; [reflexivity|split]].
        -- eapply sums_ok_frame; [|exact Hsc]. apply Hsame'. intros z Hz.
           destruct (Hzx z); [auto|]. repeat split; auto.
           eapply rep_valid; [exact Hrc|exact Hz].
        -- eapply sums_ok_frame; [|exact Hsb]. apply Hsame'. intros z Hz.
           destruct (Hzx z); [auto|]. repeat split; auto.
           eapply rep_valid; [exact Hrb|exact Hz].
        -- eapply sums_ok_frame; [|exact Hsa]. apply Hsame'. intros z Hz.
           destruct (Hzx z); [auto|]. repeat split; auto.
           eapply rep_valid; [exact Hra|exact Hz].
      * eapply ctx_sibs_ok_frame; [exact Hsame|exact Hsibs].
      * eapply ctx_path_ok_frame; [exact Hsame|].
        replace (tsum st (Nd c y (Nd b x a))) with (tsum st (Nd (Nd c y b) x a)); [exact Hpath|].
        simpl. symmetry. apply vplus_rotate_r.
  - repeat split.
    + intros z. unfold red. rewrite Hnd3. apply Hred1.
    + intros z. unfold ent. rewrite Hnd3. apply Hent1.
    + exact Hlen3.
    + exact Hnil3.
    + exact Hroot3.
    + exact Hsz3.
Qed.

End Rotations.


(** * Allocation of nodes and the empty tree *)

Section Bounded.

Lemma NoDup_bounded_length (l : list N) (n : nat) :
  NoDup l -> (forall z, z ∈ l -> (N.to_nat z < n)%nat) -> (length l <= n)%nat.
Proof.
  intros Hnd Hb.
  assert (Hnd' : List.NoDup (map N.to_nat l)).
  { apply NoDup_ListNoDup. apply (NoDup_fmap_2 N.to_nat). exact Hnd. }
  assert (Hincl : incl (map N.to_nat l) (seq 0 n)).
  { intros k Hk. apply in_map_iff in Hk as (z & <- & Hz).
    apply in_seq. apply list_elem_of_In in Hz. specialize (Hb z Hz). lia. }
  pose proof (NoDup_incl_length Hnd' Hincl) as H.
  rewrite length_map, length_seq in H. exact H.
Qed.

End Bounded.

Section Frames.
Context `{P : OrbParams}.
Hypothesis PO : params_ok.
Local Open Scope N_scope.

(** The invariant carries over to a state that agrees on the tree and on
    the sentinels; the list of deleted nodes may differ. *)
Lemma shape_inv_frame st st' T fl fl' :
  shape_inv st T fl ->
  nil st' = nil st -> root st' = root st ->
  N.of_nat (length (nodes st')) <= max_nodes ->
  length (nvarray st') = (length (nodes st') * nv_per_node)%nat ->
  Forall (in_range NVType) (nvarray st') ->
  (forall z, valid st z -> valid st' z) ->
  (forall z, z ∈ inorder T \/ z = root st \/ z = nil st ->
     nd st' z = nd st z /\ node_sum st' z = node_sum st z) ->
  NoDup (inorder T ++ fl') -> root st ∉ fl' -> nil st ∉ fl' ->
  free_chain st' (deleted_nodes_head st') fl' ->
  n_del st' = N.of_nat (length fl') ->
  shape_inv st' T fl'.
Proof.
  intros [ti_len ti_root_valid ti_nil_valid ti_root_nil ti_nil_black ti_root_left ti_root_right ti_rep ti_nodup ti_root_fresh ti_nil_fresh ti_nv_len ti_nv_range ti_sums ti_free ti_ndel ti_sorted] Hnil Hroot Hlen Hnvl Hnvr Hval Hsame Hnd Hrf Hnf Hfree Hndel.
  assert (Hr : nd st' (root st) = nd st (root st)) by (apply Hsame; auto).
  assert (Hn : nd st' (nil st) = nd st (nil st)) by (apply Hsame; auto).
  split; rewrite ?Hnil, ?Hroot, ?(root_of_frame st st') by assumption; auto.
  - unfold red. rewrite Hn. assumption.
  - unfold lf. rewrite Hr. assumption.
  - unfold rt. rewrite Hr. assumption.
  - eapply rep_frame; [exact Hnil|exact Hval| |eassumption].
    intros z Hz. apply Hsame. auto.
  - intros Hin. apply elem_of_app in Hin as [Hin|Hin]; [|contradiction].
    apply ti_root_fresh. apply elem_of_app. auto.
  - eapply sums_ok_frame; [|eassumption]. intros z Hz.
    destruct (Hsame z) as [H1 H2]; [auto|]. split; [|exact H2].
    unfold weight, ent. rewrite H1. reflexivity.
  - eapply keys_sorted_frame; [|eassumption]. intros z Hz.
    unfold key_of, ent. destruct (Hsame z) as [H1 _]; [auto|]. rewrite H1. reflexivity.
Qed.

(** Members of the list of deleted nodes. *)
Lemma free_list_bound st T fl :
  shape_inv st T fl -> N.of_nat (length fl) <= max_nodes.
Proof.
  intros [ti_len ti_root_valid ti_nil_valid ti_root_nil ti_nil_black ti_root_left ti_root_right ti_rep ti_nodup ti_root_fresh ti_nil_fresh ti_nv_len ti_nv_range ti_sums ti_free ti_ndel ti_sorted].
  assert (length fl <= length (nodes st))%nat; [|lia].
  apply NoDup_bounded_length.
  - rewrite NoDup_app in ti_nodup. tauto.
  - intros z Hz. apply (free_chain_valid _ _ _ _ ti_free) in Hz.
    unfold valid, in_bounds in Hz. apply N.ltb_lt in Hz. lia.
Qed.

Lemma free_chain_head st h fl :
  N.of_nat (length (nodes st)) <= max_nodes ->
  free_chain st h fl -> (h = Invalid <-> fl = []).
Proof.
  intros Hlen. destruct fl as [|x fl]; simpl.
  - tauto.
  - intros (-> & Hv & _). split; [|discriminate].
    intros ->. unfold valid, in_bounds in Hv. apply N.ltb_lt in Hv. unfold Invalid in Hv. lia.
Qed.

Lemma max_nodes_lt_digits : max_nodes < 2 ^ digits.
Proof.
  pose proof (po_digits PO) as Hd. unfold max_nodes. rewrite redbit_eq.
  assert (2 ^ (digits - 1) <= 2 ^ digits) by (apply N.pow_le_mono_r; lia).
  assert (0 < 2 ^ (digits - 1)) by (apply N.neq_0_lt_0, N.pow_nonzero; lia). lia.
Qed.

Lemma sum_size_eq n :
  n <= max_nodes -> size_t (size_t n * N.of_nat nv_per_node) = n * N.of_nat nv_per_node.
Proof. intros H. apply (sum_base_eq PO), H. Qed.

(** The state after a node has been appended. *)
Lemma append_node_valid st nd0 v z :
  valid (with_nvarray v (with_nodes (nodes st ++ [nd0]) st)) z
  <-> z < N.of_nat (length (nodes st)) + 1.
Proof.
  unfold valid, in_bounds; simpl. rewrite length_app, N.ltb_lt. simpl. lia.
Qed.

Lemma append_node_nd st nd0 v z :
  valid st z -> nd (with_nvarray v (with_nodes (nodes st ++ [nd0]) st)) z = nd st z.
Proof.
  intros Hz. unfold nd, at_index, valid, in_bounds in *; simpl. rewrite Hz.
  apply N.ltb_lt in Hz.
  destruct (N.ltb_spec z (N.of_nat (length (nodes st ++ [nd0])))) as [H|H].
  - rewrite lookup_app_l by lia. reflexivity.
  - rewrite length_app in H. simpl in H. lia.
Qed.

Lemma append_node_new st nd0 v :
  nd (with_nvarray v (with_nodes (nodes st ++ [nd0]) st)) (N.of_nat (length (nodes st))) = nd0.
Proof.
  unfold nd, at_index, in_bounds; simpl.
  destruct (N.ltb_spec (N.of_nat (length (nodes st))) (N.of_nat (length (nodes st ++ [nd0]))))
    as [H|H].
  - rewrite Nat2N.id, lookup_app_r by lia. rewrite Nat.sub_diag. reflexivity.
  - rewrite length_app in H. simpl in H. lia.
Qed.

Lemma append_node_sum st nds v z :
  nv_ok st -> valid st z ->
  node_sum (with_nvarray (nvarray st ++ v) (with_nodes nds st)) z = node_sum st z.
Proof.
  intros Hok Hz. pose proof (slot_bound st z Hok Hz) as Hb.
  unfold node_sum; simpl.
  rewrite drop_app_le by lia. rewrite take_app_le by (rewrite length_drop; lia). reflexivity.
Qed.

(** The state after the head of the list of deleted nodes has been
    unlinked and set up anew. *)
Lemma reuse_state st T x fl0 s' e :
  shape_inv st T (x :: fl0) ->
  nil s' = nil st -> root s' = root st ->
  nvarray s' = nvarray st -> length (nodes s') = length (nodes st) ->
  deleted_nodes_head s' = lf st x -> n_del s' = N.of_nat (length fl0) ->
  (forall z, z <> x -> lf s' z = lf st z) ->
  (forall z, z <> x -> z ∉ fl0 -> nd s' z = nd st z) ->
  shape_inv (upd s' x (Node_new e)) T fl0
  /\ valid (upd s' x (Node_new e)) x /\ nd (upd s' x (Node_new e)) x = Node_new e
  /\ x ∉ inorder T /\ x ∉ fl0 /\ x <> root st /\ x <> nil st
  /\ (forall z, z ∈ inorder T \/ z = root st \/ z = nil st ->
        nd (upd s' x (Node_new e)) z = nd st z)
  /\ (forall z, z <> x -> z ∉ fl0 -> nd (upd s' x (Node_new e)) z = nd st z)
  /\ length (nodes (upd s' x (Node_new e))) = length (nodes st).
Proof.
  intros HI Hnil Hroot Hnv Hlen Hhd Hndel Hlf Hnd'.
  assert (HI0 := HI).
  destruct HI as [Hlen0 Hrv Hnv0 Hrn Hnb Hrl Hrr Hrep0 Hnd Hrf Hnf Hnvl Hnvr Hsums Hfree
                    Hndel0 Hsort].
  simpl in Hfree. destruct Hfree as (Hh & Hxv & Hfree).
  assert (Hval : forall z, valid s' z <-> valid st z).
  { intros z. unfold valid, in_bounds. rewrite Hlen. tauto. }
  assert (HxT : x ∉ inorder T) by (clear - Hnd; distinct).
  assert (Hxfl : x ∉ fl0).
  { clear - Hnd. rewrite NoDup_app, NoDup_cons in Hnd. tauto. }
  assert (Hxr : x <> root st).
  { intros ->. apply Hrf. apply elem_of_app. right. left. }
  assert (Hxn : x <> nil st).
  { intros ->. apply Hnf. left. }
  assert (Hfr : forall z, z ∈ inorder T \/ z = root st \/ z = nil st ->
    z <> x /\ z ∉ fl0).
  { intros z [Hz|[->| ->]].
    - split; clear - Hz Hnd; distinct.
    - split; [congruence|]. intros Hin. apply Hrf. apply elem_of_app. right. right. exact Hin.
    - split; [congruence|]. intros Hin. apply Hnf. right. exact Hin. }
  assert (Hsame : forall z, z ∈ inorder T \/ z = root st \/ z = nil st ->
    nd (upd s' x (Node_new e)) z = nd st z).
  { intros z Hz. destruct (Hfr z Hz) as [H1 H2].
    rewrite nd_upd_ne by exact H1. apply Hnd'; assumption. }
  split; [|repeat split; auto].
  - eapply shape_inv_frame; try exact HI0; auto.
    + rewrite length_nodes_upd, Hlen. exact Hlen0.
    + simpl. rewrite length_insert, Hnv, Hlen. exact Hnvl.
    + simpl. rewrite Hnv. exact Hnvr.
    + intros z Hz. rewrite valid_upd_eq. apply Hval, Hz.
    + intros z Hz. split; [apply Hsame, Hz|]. apply node_sum_ext. simpl. exact Hnv.
    + rewrite NoDup_app in *. rewrite NoDup_cons in Hnd.
      destruct Hnd as (H1 & H2 & H3 & H4). repeat split; auto.
      intros z Hz Hin. apply (H2 z Hz). right. exact Hin.
    + intros Hin. apply Hrf. apply elem_of_app. right. right. exact Hin.
    + intros Hin. apply Hnf. right. exact Hin.
    + simpl. rewrite Hhd. eapply free_chain_frame; [| |exact Hfree].
      * intros z Hz. rewrite valid_upd_eq. apply Hval, Hz.
      * intros z Hz. unfold lf at 1. rewrite nd_upd_ne by (intros ->; contradiction).
        apply Hlf. intros ->. contradiction.
  - rewrite valid_upd_eq. apply Hval, Hxv.
  - apply nd_upd_eq. apply Hval, Hxv.
  - intros z Hz1 Hz2. rewrite nd_upd_ne by assumption. apply Hnd'; assumption.
  - rewrite length_nodes_upd. exact Hlen.
Qed.

(** [new_node]: a slot that is not in use is set up with the entry; the tree
    is as before. *)
Lemma new_node_inv (E : error -> Prop) st T fl e :
  shape_inv st T fl ->
  (fl = [] -> N.of_nat (length (nodes st)) = max_nodes -> E Capacity) ->
  wp E (new_node e) st (fun n1 st1 =>
    shape_inv st1 T (tail fl)
      /\ n1 = match fl with x :: _ => x | [] => N.of_nat (length (nodes st)) end
      /\ valid st1 n1 /\ nd st1 n1 = Node_new e
      /\ n1 ∉ inorder T /\ n1 ∉ tail fl /\ n1 <> root st /\ n1 <> nil st
      /\ (forall z, z ∈ inorder T \/ z = root st \/ z = nil st -> nd st1 z = nd st z)
      /\ (fl = [] -> N.of_nat (length (nodes st)) <> max_nodes)
      /\ size1 st1 = size1 st /\ nil st1 = nil st /\ root st1 = root st
      /\ (forall z, valid st z -> z <> n1 -> z ∉ tail fl -> nd st1 z = nd st z)
      /\ length (nodes st1)
         = match fl with [] => S (length (nodes st)) | _ => length (nodes st) end).
Proof.
  intros HI HE. assert (HI0 := HI).
  destruct HI as [Hlen Hrv Hnv Hrn Hnb Hrl Hrr Hrep0 Hnd Hrf Hnf Hnvl Hnvr Hsums Hfree
                    Hndel Hsort].
  pose proof (free_chain_head st _ fl Hlen Hfree) as Hhd.
  pose proof (free_list_bound _ _ _ HI0) as Hflb.
  pose proof (max_nodes_lt PO) as Hmax.
  destruct fl as [|x fl0].
  - (* nothing to reuse: append *)
    assert (Hh : deleted_nodes_head st = Invalid) by (apply Hhd; reflexivity).
    unfold wp. rewrite (new_node_append _ _ Hh). cbv zeta.
    pose proof max_nodes_lt_digits as Hmd.
    assert (Hix : index_t (N.of_nat (length (nodes st))) = N.of_nat (length (nodes st))).
    { unfold index_t. apply N.mod_small. lia. }
    rewrite Hix.
    destruct (N.eqb_spec (N.of_nat (length (nodes st))) max_nodes) as [Hfull|Hfull];
      [exact (HE eq_refl Hfull)|].
    assert (Hix' : index_t (N.of_nat (length (nodes st)) + 1) = N.of_nat (length (nodes st)) + 1).
    { unfold index_t. apply N.mod_small. lia. }
    rewrite Hix', sum_size_eq by lia.
    assert (Hok : nv_ok st) by (split; assumption).
    rewrite resize_ge by (rewrite Hnvl; lia).
    replace (N.to_nat ((N.of_nat (length (nodes st)) + 1) * N.of_nat nv_per_node)
             - length (nvarray st))%nat with nv_per_node by (rewrite Hnvl; lia).
    set (st1 := with_nvarray _ _).
    assert (Hval1 : forall z, valid st z -> valid st1 z).
    { intros z Hz. apply append_node_valid. unfold valid, in_bounds in Hz.
      apply N.ltb_lt in Hz. lia. }
    assert (Hnew : forall z, z ∈ inorder T \/ z = root st \/ z = nil st -> valid st z).
    { intros z [Hz|[->| ->]]; auto. eapply rep_valid; eauto. }
    assert (Hlt : forall z, valid st z -> z <> N.of_nat (length (nodes st))).
    { intros z Hz ->. unfold valid, in_bounds in Hz. apply N.ltb_lt in Hz. lia. }
    simpl tail.
    split; [|split; [reflexivity|split; [|split; [|split; [|split; [|split; [|split; [|split;
      [|split; [|split; [reflexivity|split; [reflexivity|split; [reflexivity|split]]]]]]]]]]]]].
    + eapply shape_inv_frame; try exact HI0; try reflexivity; auto.
      * unfold st1; simpl. rewrite length_app. simpl. lia.
      * unfold st1; simpl. rewrite !length_app, length_replicate, Hnvl. simpl. lia.
      * unfold st1; simpl. apply Forall_app. split; [exact Hnvr|].
        apply Forall_replicate, in_range_zero, (po_bits PO).
      * intros z Hz. split; [apply append_node_nd|apply append_node_sum]; auto.
      * apply not_elem_of_nil.
    + apply append_node_valid. lia.
    + apply append_node_new.
    + intros Hin. apply (Hlt (N.of_nat (length (nodes st)))); auto.
    + apply not_elem_of_nil.
    + intros Heq. apply (Hlt (root st)); auto.
    + intros Heq. apply (Hlt (nil st)); auto.
    + intros z Hz. apply append_node_nd. auto.
    + intros _. exact Hfull.
    + intros z Hz _ _. apply append_node_nd, Hz.
    + unfold st1; simpl. rewrite length_app. simpl. lia.
  - (* the head of the list of deleted nodes is taken *)
    simpl in Hfree. destruct Hfree as (Hh & Hxv & Hfree).
    assert (Hxi : x <> Invalid).
    { intros ->. unfold valid, in_bounds in Hxv. apply N.ltb_lt in Hxv. unfold Invalid in Hxv. lia. }
    assert (Hnd' := Hnd). rewrite NoDup_app, NoDup_cons in Hnd'.
    destruct Hnd' as (HndT & Hdisj & Hxfl & Hndfl).
    unfold new_node. wp_step PO.
    apply wp_bind. unfold try_get_node. wp_step PO.
    rewrite Hh. destruct (N.eqb_spec x Invalid) as [|_]; [contradiction|]. simpl negb. cbv iota.
    rewrite Hndel. simpl length.
    destruct (N.eqb_spec (N.of_nat (S (length fl0))) 0) as [Hz|_]; [lia|].
    wp_step PO.
    wp_step PO; [attr_side PO|unfold Invalid; lia|].
    wp_step PO; [attr_side PO|]. attr_rw PO.
    wp_step PO.
    assert (Hnd_size : size_t (N.of_nat (S (length fl0)) - 1) = N.of_nat (length fl0)).
    { unfold size_t. replace (N.of_nat (S (length fl0)) - 1) with (N.of_nat (length fl0)) by lia.
      apply N.mod_small. simpl length in Hflb. lia. }
    rewrite Hnd_size.
    assert (Hl : lf st x = Invalid \/ lf st x ∈ fl0).
    { destruct fl0 as [|l fl1]; simpl in Hfree; [left; exact Hfree|].
      right. destruct Hfree as (-> & _). left. }
    apply wp_bind. apply wp_whenM; intros Hc.
    + destruct Hl as [Hl|Hl]; [rewrite Hl, N.eqb_refl in Hc; discriminate|].
      wp_step PO.
      { autorewrite with attr. apply (free_chain_valid _ _ _ _ Hfree), Hl. }
      wp_step PO. wp_step PO; [attr_side PO|]. wp_step PO.
      simpl tail.
      assert (Hlx : lf st x <> x) by (intros Heq; rewrite Heq in Hl; contradiction).
      edestruct (reuse_state st T x fl0) as (H1 & H2 & H3 & H4 & H5 & H6 & H7 & H8 & H9 & H10);
        [exact HI0|..|split; [exact H1|split; [reflexivity|
          repeat (split; [eassumption|]); split; [discriminate|
            split; [|split; [|split; [|split;
              [intros z _ Hz1 Hz2; apply H9; assumption|exact H10]]]]]]]];
        try reflexivity.
      * attr_rw PO. reflexivity.
      * intros z Hz. attr_rw PO. reflexivity.
      * intros z Hz Hzf. rewrite nd_set_rt_ne by (intros ->; contradiction).
        change (nd (set_pr (with_n_del (N.of_nat (length fl0)) st) x Invalid) z = nd st z).
        rewrite nd_set_pr_ne by exact Hz. reflexivity.
    + wp_step PO. wp_step PO; [attr_side PO|]. wp_step PO.
      simpl tail.
      edestruct (reuse_state st T x fl0) as (H1 & H2 & H3 & H4 & H5 & H6 & H7 & H8 & H9 & H10);
        [exact HI0|..|split; [exact H1|split; [reflexivity|
          repeat (split; [eassumption|]); split; [discriminate|
            split; [|split; [|split; [|split;
              [intros z _ Hz1 Hz2; apply H9; assumption|exact H10]]]]]]]];
        try reflexivity.
      * attr_rw PO. reflexivity.
      * intros z Hz. attr_rw PO. reflexivity.
      * intros z Hz Hzf.
        change (nd (set_pr (with_n_del (N.of_nat (length fl0)) st) x Invalid) z = nd st z).
        rewrite nd_set_pr_ne by exact Hz. reflexivity.
Qed.

(** Appending to a vector without deleted nodes. *)
Lemma wp_new_node_append (E : error -> Prop) e st Q :
  deleted_nodes_head st = Invalid ->
  N.of_nat (length (nodes st)) < max_nodes ->
  length (nvarray st) = (length (nodes st) * nv_per_node)%nat ->
  Q (N.of_nat (length (nodes st)))
    (with_nvarray (nvarray st ++ replicate nv_per_node 0%Z)
       (with_nodes (nodes st ++ [Node_new e]) st)) ->
  wp E (new_node e) st Q.
Proof.
  intros Hh Hlt Hnvl HQ. unfold wp. rewrite (new_node_append _ _ Hh). cbv zeta.
  pose proof max_nodes_lt_digits as Hmd.
  assert (Hix : index_t (N.of_nat (length (nodes st))) = N.of_nat (length (nodes st))).
  { unfold index_t. apply N.mod_small. lia. }
  rewrite Hix.
  destruct (N.eqb_spec (N.of_nat (length (nodes st))) max_nodes) as [Hfull|Hfull]; [lia|].
  assert (Hix' : index_t (N.of_nat (length (nodes st)) + 1) = N.of_nat (length (nodes st)) + 1).
  { unfold index_t. apply N.mod_small. lia. }
  rewrite Hix', sum_size_eq by lia.
  rewrite resize_ge by (rewrite Hnvl; lia).
  replace (N.to_nat ((N.of_nat (length (nodes st)) + 1) * N.of_nat nv_per_node)
           - length (nvarray st))%nat with nv_per_node by (rewrite Hnvl; lia).
  exact HQ.
Qed.

Lemma max_nodes_ge : 3 <= digits -> 3 <= max_nodes.
Proof.
  intros Hd. unfold max_nodes. rewrite redbit_eq.
  assert (2 ^ 2 <= 2 ^ (digits - 1)) by (apply N.pow_le_mono_r; lia).
  change (2 ^ 2) with 4 in *. lia.
Qed.

(** The constructor sets up the two sentinels of an empty tree. *)
Lemma orbtree_new_wp (E : error -> Prop) :
  3 <= digits ->
  wp E (NodeAllocatorCompact;; create_sentinels) allocator_members
    (fun _ st => tree_inv st Leaf []).
Proof.
  intros Hd. pose proof (max_nodes_ge Hd) as Hm.
  unfold NodeAllocatorCompact.
  apply wp_bind. apply wp_bind.
  apply wp_new_node_append; [reflexivity|simpl; lia|reflexivity|].
  wp_step PO.
  apply wp_bind.
  apply wp_new_node_append; [reflexivity|simpl; lia|simpl; rewrite length_replicate; lia|].
  wp_step PO.
  unfold create_sentinels. simpl length. change (N.of_nat 0) with 0. change (N.of_nat 1) with 1.
  wp_step PO.
  set (st0 := with_nil 1 _).
  assert (Hv0 : valid st0 0) by reflexivity.
  assert (Hv1 : valid st0 1) by reflexivity.
  change (root st0) with 0. change (nil st0) with 1.
  wp_step PO; [attr_side PO|lia|].
  wp_step PO; [attr_side PO|].
  wp_step PO; [attr_side PO|].
  wp_step PO; [attr_side PO|].
  wp_step PO; [attr_side PO|lia|].
  wp_step PO; [attr_side PO|].
  wp_step PO; [attr_side PO|].
  wp_step PO; [attr_side PO|].
  wp_step PO.
  assert (Hnil : nil st0 = 1) by reflexivity.
  assert (Hroot : root st0 = 0) by reflexivity.
  assert (Hlen : length (nodes st0) = 2%nat) by reflexivity.
  assert (Hnv : nvarray st0 = replicate nv_per_node 0%Z ++ replicate nv_per_node 0%Z)
    by reflexivity.
  assert (Hhd : deleted_nodes_head st0 = Invalid) by reflexivity.
  assert (Hdel : n_del st0 = 0) by reflexivity.
  clearbody st0.
  split; [|reflexivity].
  split; attr_rw PO; rewrite ?Hnil, ?Hroot, ?Hlen, ?Hnv, ?Hhd, ?Hdel; simpl;
    dec_rw ltac:(solve [reflexivity|discriminate]); auto; try solve [constructor].
  - simpl. lia.
  - apply not_elem_of_nil.
  - apply not_elem_of_nil.
  - rewrite length_app, !length_replicate. lia.
  - apply Forall_app. split; apply Forall_replicate, in_range_zero, (po_bits PO).
Qed.

(** A new container is an empty tree that satisfies the invariant. *)
Lemma orbtree_new_inv :
  3 <= digits ->
  exists st, orbtree_new = Ok st /\ tree_inv st Leaf [].
Proof.
  intros Hd. pose proof (orbtree_new_wp (fun _ => False) Hd) as H.
  unfold wp in H. unfold orbtree_new.
  destruct ((NodeAllocatorCompact;; create_sentinels) allocator_members) as [[[] st]|e];
    [|contradiction].
  exists st. tauto.
Qed.

(** [free_node]: the slot becomes the head of the list of deleted nodes;
    the tree is as before. *)
Lemma free_node_inv (E : error -> Prop) st T fl n :
  shape_inv st T fl -> valid st n -> n ∉ inorder T ++ fl ->
  n <> root st -> n <> nil st ->
  wp E (free_node n) st (fun _ st1 =>
    shape_inv st1 T (n :: fl)
      /\ deleted_nodes_head st1 = n /\ n_del st1 = n_del st + 1
      /\ lf st1 n = deleted_nodes_head st /\ rt st1 n = Invalid
      /\ is_deleted (nd st1 n) = true
      /\ (deleted_nodes_head st <> Invalid -> rt st1 (deleted_nodes_head st) = n)
      /\ (forall z, z ∈ inorder T \/ z = root st \/ z = nil st -> nd st1 z = nd st z)
      /\ length (nodes st1) = length (nodes st) /\ nvarray st1 = nvarray st
      /\ size1 st1 = size1 st /\ nil st1 = nil st /\ root st1 = root st).
Proof.
  intros HI Hv Hfresh Hnr Hnn. assert (HI0 := HI).
  destruct HI as [Hlen Hrv Hnv Hrn Hnb Hrl Hrr Hrep0 Hnd Hrf Hnf Hnvl Hnvr Hsums Hfree
                    Hndel Hsort].
  pose proof (free_chain_head st _ fl Hlen Hfree) as Hhd.
  pose proof (free_list_bound _ _ _ HI0) as Hflb.
  pose proof (max_nodes_lt PO) as Hmax.
  unfold free_node.
  apply wp_bind. eapply wp_intro; [apply modify_node_valid, Hv|].
  set (s1 := upd st n (set_deleted (nd st n))).
  assert (Hv1 : forall z, valid s1 z <-> valid st z).
  { intros z. unfold s1. rewrite valid_upd_eq. tauto. }
  wp_step PO; [apply Hv1, Hv|].
  wp_step PO. wp_step PO; [autorewrite with attr; apply Hv1, Hv|].
  change (deleted_nodes_head (set_rt s1 n Invalid)) with (deleted_nodes_head st).
  set (s3 := set_lf (set_rt s1 n Invalid) n (deleted_nodes_head st)).
  assert (HnT : n ∉ inorder T) by (intros Hin; apply Hfresh, elem_of_app; auto).
  assert (Hnfl : n ∉ fl) by (intros Hin; apply Hfresh, elem_of_app; auto).
  assert (Hs3n : nd s3 n = set_left (deleted_nodes_head st)
                             (set_right Invalid (set_deleted (nd st n)))).
  { unfold s3, set_lf, set_rt, s1.
    rewrite !nd_upd_eq by (rewrite ?valid_upd_eq; exact Hv). reflexivity. }
  assert (Hs3z : forall z, z <> n -> nd s3 z = nd st z).
  { intros z Hz. unfold s3, set_lf, set_rt, s1. rewrite !nd_upd_ne by exact Hz. reflexivity. }
  assert (Hfin : forall s2,
    nil s2 = nil st -> root s2 = root st -> nvarray s2 = nvarray st ->
    length (nodes s2) = length (nodes st) -> size1 s2 = size1 st ->
    n_del s2 = n_del st ->
    nd s2 n = nd s3 n ->
    (forall z, z <> n -> lf s2 z = lf st z) ->
    (forall z, z <> n -> z ∉ fl -> nd s2 z = nd st z) ->
    (deleted_nodes_head st <> Invalid -> rt s2 (deleted_nodes_head st) = n) ->
    let st1 := with_n_del (size_t (n_del s2 + 1)) (with_head n s2) in
    shape_inv st1 T (n :: fl)
      /\ deleted_nodes_head st1 = n /\ n_del st1 = n_del st + 1
      /\ lf st1 n = deleted_nodes_head st /\ rt st1 n = Invalid
      /\ is_deleted (nd st1 n) = true
      /\ (deleted_nodes_head st <> Invalid -> rt st1 (deleted_nodes_head st) = n)
      /\ (forall z, z ∈ inorder T \/ z = root st \/ z = nil st -> nd st1 z = nd st z)
      /\ length (nodes st1) = length (nodes st) /\ nvarray st1 = nvarray st
      /\ size1 st1 = size1 st /\ nil st1 = nil st /\ root st1 = root st).
  { intros s2 Hnil Hroot Hnva Hlen2 Hsz Hnd2 Hn2 Hlf2 Hnd2' Hrt2 st1.
    assert (Hval : forall z, valid st1 z <-> valid st z).
    { intros z. unfold st1, valid, in_bounds. simpl. rewrite Hlen2. tauto. }
    assert (Hsize : size_t (n_del s2 + 1) = n_del st + 1).
    { rewrite Hnd2, Hndel. unfold size_t. apply N.mod_small. lia. }
    assert (Hfr : forall z, z ∈ inorder T \/ z = root st \/ z = nil st ->
      z <> n /\ z ∉ fl).
    { intros z [Hz|[->| ->]].
      - split; [intros ->; contradiction|]. clear - Hz Hnd. distinct.
      - split; [congruence|]. intros Hin. apply Hrf, elem_of_app. auto.
      - split; [congruence|]. exact Hnf. }
    assert (Hsame : forall z, z ∈ inorder T \/ z = root st \/ z = nil st ->
      nd st1 z = nd st z).
    { intros z Hz. destruct (Hfr z Hz) as [H1 H2]. apply Hnd2'; assumption. }
    split; [|split; [reflexivity|split; [exact Hsize|split; [|split; [|split; [|split;
      [exact Hrt2|split; [exact Hsame|repeat split; assumption]]]]]]]].
    - eapply shape_inv_frame; try exact HI0; auto.
      + unfold st1; simpl. rewrite Hlen2. exact Hlen.
      + unfold st1; simpl. rewrite Hnva, Hlen2. exact Hnvl.
      + unfold st1; simpl. rewrite Hnva. exact Hnvr.
      + intros z Hz. apply Hval, Hz.
      + intros z Hz. split; [apply Hsame, Hz|]. apply node_sum_ext. simpl. exact Hnva.
      + clear - Hnd HnT Hnfl. rewrite NoDup_app in *. rewrite NoDup_cons.
        destruct Hnd as (H1 & H2 & H3). repeat split; auto.
        intros z Hz Hin. apply elem_of_cons in Hin as [->|Hin]; [contradiction|].
        apply (H2 z Hz Hin).
      + intros Hin. apply elem_of_cons in Hin as [Heq|Hin]; [congruence|].
        apply Hrf, elem_of_app. auto.
      + intros Hin. apply elem_of_cons in Hin as [Heq|Hin]; [congruence|]. contradiction.
      + simpl. split; [reflexivity|]. split; [apply Hval, Hv|].
        change (lf st1 n) with (lf s2 n). unfold lf at 1. rewrite Hn2, Hs3n. simpl.
        eapply free_chain_frame; [| |exact Hfree].
        * intros z Hz. apply Hval, Hz.
        * intros z Hz. apply Hlf2. intros ->. contradiction.
      + simpl. rewrite Hsize, Hndel. lia.
    - change (lf st1 n) with (lf s2 n). unfold lf. rewrite Hn2, Hs3n. reflexivity.
    - change (rt st1 n) with (rt s2 n). unfold rt. rewrite Hn2, Hs3n. reflexivity.
    - change (nd st1 n) with (nd s2 n). rewrite Hn2, Hs3n. unfold is_deleted. simpl.
      apply N.eqb_refl. }
  apply wp_bind. apply wp_whenM; intros Hc.
  - assert (Hh : deleted_nodes_head st ∈ fl).
    { destruct fl as [|x fl0]; [rewrite (proj2 Hhd eq_refl), N.eqb_refl in Hc; discriminate|].
      simpl in Hfree. destruct Hfree as (-> & _). left. }
    assert (Hhn : deleted_nodes_head st <> n) by (intros Heq; rewrite Heq in Hh; contradiction).
    assert (Hhv : valid s3 (deleted_nodes_head st)).
    { unfold s3. autorewrite with attr. apply Hv1.
      apply (free_chain_valid _ _ _ _ Hfree), Hh. }
    wp_step PO; [exact Hhv|].
    wp_step PO. wp_step PO.
    apply (Hfin (set_rt s3 (deleted_nodes_head st) n)); try reflexivity.
    + unfold s3, s1, set_rt, set_lf, upd; simpl. rewrite !length_insert. reflexivity.
    + apply nd_set_rt_ne. congruence.
    + intros z Hz. unfold lf. destruct (decide (z = deleted_nodes_head st)) as [->|Hzh].
      * unfold set_rt. rewrite nd_upd_eq by exact Hhv. simpl. rewrite Hs3z by exact Hz.
        reflexivity.
      * rewrite nd_set_rt_ne by exact Hzh. rewrite Hs3z by exact Hz. reflexivity.
    + intros z Hz Hzf. rewrite nd_set_rt_ne by (intros ->; contradiction).
      apply Hs3z, Hz.
    + intros _. rewrite rt_set_rt by exact Hhv. rewrite decide_True by reflexivity.
      reflexivity.
  - cbv beta. wp_step PO. wp_step PO.
    apply (Hfin s3); try reflexivity.
    + unfold s3, s1, set_rt, set_lf, upd; simpl. rewrite !length_insert. reflexivity.
    + intros z Hz. unfold lf. rewrite Hs3z by exact Hz. reflexivity.
    + intros z Hz _. apply Hs3z, Hz.
    + intros Hne. destruct (N.eqb_spec (deleted_nodes_head st) Invalid); [contradiction|].
      discriminate.
Qed.

Lemma free_chain_hd st h fl : free_chain st h fl -> h = hd Invalid fl.
Proof. destruct fl; simpl; tauto. Qed.

(** With a deleted node to reuse, or room to append, [new_node] returns. *)
Lemma new_node_total st T fl e :
  shape_inv st T fl ->
  (fl = [] -> N.of_nat (length (nodes st)) <> max_nodes) ->
  exists st1,
    new_node e st = Ok (hd (N.of_nat (length (nodes st))) fl, st1)
    /\ shape_inv st1 T (tail fl)
    /\ valid st1 (hd (N.of_nat (length (nodes st))) fl)
    /\ nd st1 (hd (N.of_nat (length (nodes st))) fl) = Node_new e
    /\ (forall z, valid st z -> z <> hd (N.of_nat (length (nodes st))) fl ->
          z ∉ tail fl -> nd st1 z = nd st z)
    /\ length (nodes st1)
       = match fl with [] => S (length (nodes st)) | _ => length (nodes st) end.
Proof.
  intros HI Hroom.
  pose proof (new_node_inv (fun _ => False) st T fl e HI) as H.
  destruct (wp_total _ _ _ (H Hroom))
    as (n1 & st1 & E & H1 & -> & H3 & H4 & _ & _ & _ & _ & _ & _ & _ & _ & _ & H5 & H6).
  exists st1. destruct fl; simpl in *; auto 10.
Qed.

End Frames.


(** * Searching *)

Section Order.
Context `{P : OrbParams}.
Hypothesis SW : strict_weak.

Lemma cmp_asym a b : compare a b = true -> compare b a = false.
Proof.
  intros H. destruct (compare b a) eqn:E; [|reflexivity].
  pose proof (sw_trans SW _ _ _ H E) as H1. rewrite (sw_irrefl SW) in H1. discriminate.
Qed.

Lemma cmp_negtrans a b c :
  compare a c = true -> compare a b = true \/ compare b c = true.
Proof.
  intros H.
  destruct (compare a b) eqn:Eab; [auto|]. destruct (compare b c) eqn:Ebc; [auto|].
  exfalso.
  destruct (compare b a) eqn:Eba.
  { rewrite (sw_trans SW _ _ _ Eba H) in Ebc. discriminate. }
  destruct (compare c b) eqn:Ecb.
  { rewrite (sw_trans SW _ _ _ H Ecb) in Eab. discriminate. }
  destruct (sw_equiv SW a b c Eab Eba Ebc Ecb) as [H1 _]. congruence.
Qed.

(** [b] is not below [a], and [c] is not below [b]: [c] is not below [a] *)
Lemma cmp_le_trans a b c :
  compare b a = false -> compare c b = false -> compare c a = false.
Proof.
  intros H1 H2. destruct (compare c a) eqn:E; [|reflexivity].
  destruct (cmp_negtrans c b a E); congruence.
Qed.

End Order.

Section Sorted.
Context `{P : OrbParams}.
Local Open Scope N_scope.

Lemma keys_sorted_app st l1 l2 :
  keys_sorted st (l1 ++ l2)
  <-> (forall a b, a ∈ l1 -> b ∈ l2 -> compare (key_of st b) (key_of st a) = false)
      /\ keys_sorted st l1 /\ keys_sorted st l2.
Proof. unfold keys_sorted. apply StronglySorted_app. Qed.

Lemma keys_sorted_cons st a l :
  keys_sorted st (a :: l)
  <-> (forall b, b ∈ l -> compare (key_of st b) (key_of st a) = false)
      /\ keys_sorted st l.
Proof. unfold keys_sorted. rewrite StronglySorted_cons, Forall_forall. tauto. Qed.

Lemma keys_sorted_pair st l a b l1 l2 :
  keys_sorted st l -> l = l1 ++ l2 -> a ∈ l1 -> b ∈ l2 ->
  compare (key_of st b) (key_of st a) = false.
Proof. intros H -> Ha Hb. apply keys_sorted_app in H. apply H; assumption. Qed.

(** A handle put between the keys not above and the keys not below its
    own. *)
Lemma keys_sorted_insert st l1 l2 n :
  keys_sorted st (l1 ++ l2) ->
  (forall z, z ∈ l1 -> compare (key_of st n) (key_of st z) = false) ->
  (forall z, z ∈ l2 -> compare (key_of st z) (key_of st n) = false) ->
  keys_sorted st (l1 ++ n :: l2).
Proof.
  intros H H1 H2. apply keys_sorted_app in H as (H12 & Hl1 & Hl2).
  apply keys_sorted_app. split; [|split; [exact Hl1|]].
  - intros a b Ha Hb. apply elem_of_cons in Hb as [->|Hb]; auto.
  - apply keys_sorted_cons. auto.
Qed.

Lemma keys_sorted_delete st l1 l2 n :
  keys_sorted st (l1 ++ n :: l2) -> keys_sorted st (l1 ++ l2).
Proof.
  intros H. apply keys_sorted_app in H as (H12 & Hl1 & Hl2).
  apply keys_sorted_cons in Hl2 as [_ Hl2].
  apply keys_sorted_app. split; [|auto].
  intros a b Ha Hb. apply H12; [exact Ha|]. right. exact Hb.
Qed.

End Sorted.

Section InsertSearch.
Context `{P : OrbParams}.
Hypothesis PO : params_ok.
Hypothesis SW : strict_weak.
Local Open Scope N_scope.

(** What the invariant says about a node of the tree. *)
Lemma node_facts st l x r C fl :
  shape_inv st (plug (Nd l x r) C) fl ->
  x <> nil st /\ valid st x /\ pr st x = hole_parent st C
  /\ lf st x = root_of st l /\ rt st x = root_of st r
  /\ rep st x l /\ rep st x r /\ rep_ctx st C x.
Proof.
  intros HI. destruct (proj1 (rep_plug _ _ _) (conj (ti_rep _ _ _ HI) (ti_root_right _ _ _ HI)))
    as [Hrep Hctx].
  simpl in Hrep. tauto.
Qed.

Lemma root_of_nil st p t : rep st p t -> root_of st t = nil st -> t = Leaf.
Proof. destruct t; simpl; [reflexivity|]. intros (H & _) E. contradiction. Qed.

Lemma tree_size_bound st T fl :
  shape_inv st T fl -> (length (inorder T) <= length (nodes st))%nat.
Proof.
  intros HI. apply NoDup_bounded_length.
  - pose proof (ti_nodup _ _ _ HI) as H. rewrite NoDup_app in H. tauto.
  - intros z Hz. apply (rep_valid _ _ _ _ (ti_rep _ _ _ HI)) in Hz.
    unfold valid, in_bounds in Hz. apply N.ltb_lt in Hz. lia.
Qed.

Lemma insert_search_loop_spec (E : error -> Prop) st k fl t :
  forall C fuel, t <> Leaf ->
  shape_inv st (plug t C) fl ->
  (forall z, z ∈ ctx_before C ->
     compare k (key_of st z) = false /\ (multi = false -> compare (key_of st z) k = true)) ->
  (forall z, z ∈ ctx_after C -> compare k (key_of st z) = true) ->
  (length (inorder t) <= fuel)%nat ->
  wpR E (insert_search_loop fuel k (root_of st t)) st (search_post st k (plug t C)).
Proof.
  induction t as [|l IHl n r IHr]; intros C fuel Hne HI Hbefore Hafter Hfuel; [congruence|].
  destruct (node_facts _ _ _ _ _ _ HI) as (Hn & Hv & Hp & Hl & Hr & Hrl & Hrr & Hctx).
  pose proof (ti_sorted _ _ _ HI) as Hs. rewrite inorder_plug in Hs.
  apply keys_sorted_app in Hs as (_ & _ & Hs). apply keys_sorted_app in Hs as (_ & Hs & _).
  simpl in Hs. apply keys_sorted_app in Hs as (Hlr & _ & Hs).
  apply keys_sorted_cons in Hs as [Hnr _].
  destruct fuel as [|fuel]; [simpl in Hfuel; rewrite length_app in Hfuel; simpl in Hfuel; lia|].
  simpl in Hfuel. rewrite length_app in Hfuel. simpl in Hfuel.
  simpl root_of. simpl insert_search_loop.
  wp_step PO; [exact Hv|]. wp_step PO.
  destruct (compare k (key_of st n)) eqn:Ek.
  - (* to the left *)
    wp_step PO; [exact Hv|]. rewrite Hl.
    assert (Hafter' : forall z, z ∈ ctx_after ((SL, n, r) :: C) -> compare k (key_of st z) = true).
    { simpl. intros z Hz. apply elem_of_cons in Hz as [->|Hz]; [exact Ek|].
      apply elem_of_app in Hz as [Hz|Hz]; [|auto].
      destruct (cmp_negtrans SW _ (key_of st z) _ Ek) as [H|H]; [exact H|].
      rewrite (Hnr z Hz) in H. discriminate. }
    destruct (N.eqb_spec (root_of st l) (nil st)) as [El|El].
    + apply wpR_ret. apply (root_of_nil _ _ _ Hrl) in El. subst l.
      exists ((SL, n, r) :: C). repeat split; auto; apply Hbefore; auto.
    + apply (IHl ((SL, n, r) :: C) fuel); auto; [|lia].
      intros ->. simpl in El. congruence.
  - destruct (negb multi && negb (compare (key_of st n) k)) eqn:Eu.
    + (* an equivalent key in a container of unique keys *)
      apply wpR_ret. apply andb_prop in Eu as [Hm Hk].
      apply negb_true_iff in Hm, Hk. simpl. repeat split; auto.
      apply elem_of_inorder_plug. left. simpl. set_solver.
    + (* to the right *)
      wp_step PO; [exact Hv|]. rewrite Hr.
      assert (Hu : multi = false -> compare (key_of st n) k = true).
      { intros Hm. rewrite Hm in Eu. simpl in Eu. apply negb_false_iff in Eu. exact Eu. }
      assert (Hbefore' : forall z, z ∈ ctx_before ((SR, n, l) :: C) ->
        compare k (key_of st z) = false /\ (multi = false -> compare (key_of st z) k = true)).
      { simpl. intros z Hz. apply elem_of_app in Hz as [Hz|Hz]; [auto|].
        apply elem_of_app in Hz as [Hz|Hz].
        - assert (Hzn : compare (key_of st n) (key_of st z) = false).
          { apply Hlr; [exact Hz|]. left. }
          split.
          + apply (cmp_le_trans SW _ (key_of st n)); assumption.
          + intros Hm. destruct (cmp_negtrans SW _ (key_of st z) _ (Hu Hm)) as [H|H];
              [congruence|exact H].
        - apply list_elem_of_singleton in Hz as ->. auto. }
      destruct (N.eqb_spec (root_of st r) (nil st)) as [Er|Er].
      * apply wpR_ret. apply (root_of_nil _ _ _ Hrr) in Er. subst r.
        exists ((SR, n, l) :: C). repeat split; auto; apply Hbefore'; auto.
      * apply (IHr ((SR, n, l) :: C) fuel); auto; [|lia].
        intros ->. simpl in Er. congruence.
Qed.

Lemma insert_search_spec (E : error -> Prop) st T fl k :
  shape_inv st T fl ->
  wpR E (insert_search k) st (search_post st k T).
Proof.
  intros HI. unfold insert_search, wpR.
  assert (Hri : root st <> Invalid).
  { pose proof (ti_root_valid _ _ _ HI) as Hv. pose proof (ti_len _ _ _ HI).
    intros Heq. rewrite Heq in Hv. unfold valid, in_bounds in Hv. apply N.ltb_lt in Hv.
    unfold Invalid in Hv. lia. }
  destruct (N.eqb_spec (root st) Invalid) as [|_]; [contradiction|].
  change (wpR E (r ← right_of (root st);
                 if r =? nil st then mret (true, Some (root st), Some false)
                 else insert_search_loop (walk_fuel st) k r) st (search_post st k T)).
  wp_step PO; [apply HI|]. rewrite (ti_root_right _ _ _ HI).
  destruct (N.eqb_spec (root_of st T) (nil st)) as [El|El].
  - apply wpR_ret. apply (root_of_nil _ _ _ (ti_rep _ _ _ HI)) in El. subst T.
    exists []. split; [|split; reflexivity]. split; [reflexivity|].
    split; simpl; intros z Hz; inversion Hz.
  - apply (insert_search_loop_spec E st k fl T [] (walk_fuel st)); auto.
    + intros ->. simpl in El. congruence.
    + simpl. intros z Hz. inversion Hz.
    + simpl. intros z Hz. inversion Hz.
    + unfold walk_fuel. pose proof (tree_size_bound _ _ _ HI). lia.
Qed.

End InsertSearch.


(** * Insertion *)

Section AddUp.
Context `{P : OrbParams}.
Hypothesis PO : params_ok.
Local Open Scope N_scope.

Lemma same_nodes_refl st : same_nodes st st.
Proof. unfold same_nodes. tauto. Qed.

Lemma same_nodes_set_sum st x s : same_nodes st (set_sum st x s).
Proof. unfold same_nodes. simpl. tauto. Qed.

Lemma same_nodes_trans st1 st2 st3 :
  same_nodes st1 st2 -> same_nodes st2 st3 -> same_nodes st1 st3.
Proof. unfold same_nodes. intuition congruence. Qed.

Lemma same_nodes_nd st st' z : same_nodes st st' -> nd st' z = nd st z.
Proof. intros (H & _). unfold nd. rewrite H. reflexivity. Qed.

Lemma same_nodes_valid st st' z : same_nodes st st' -> valid st' z = valid st z.
Proof. intros (H & _). unfold valid. rewrite H. reflexivity. Qed.

(** [add_up]: the weight is added to the sums of the nodes on the path. *)
Lemma add_up_spec (E : error -> Prop) w C :
  length w = nv_per_node -> Forall (in_range NVType) w -> E Arithmetic ->
  forall st h fuel,
  rep_ctx st C h -> NoDup (ctx_handles C) -> root st ∉ ctx_handles C ->
  nv_ok st -> Forall (in_range NVType) (nvarray st) ->
  (length C < fuel)%nat ->
  wp E (add_up fuel (hole_parent st C) w) st (fun _ st' =>
    same_nodes st st' /\ nv_ok st' /\ Forall (in_range NVType) (nvarray st')
    /\ forall z, valid st z ->
         node_sum st' z = if decide (z ∈ path_nodes C) then vplus (node_sum st z) w
                          else node_sum st z).
Proof.
  intros Hw Hwr HE. induction C as [|[[sd q] s] C IH]; intros st h fuel Hctx Hnd Hrf Hok Hr Hfuel.
  - destruct fuel as [|fuel]; [simpl in Hfuel; lia|]. simpl.
    wp_step PO. rewrite N.eqb_refl. apply wp_ret.
    split; [apply same_nodes_refl|]. split; [exact Hok|]. split; [exact Hr|].
    intros z Hz. destruct (decide (z ∈ path_nodes [])) as [Hin|Hin]; [inversion Hin|reflexivity].
  - destruct fuel as [|fuel]; [simpl in Hfuel; lia|]. simpl in Hfuel.
    assert (Hq : q <> root st).
    { intros ->. apply Hrf. apply ctx_handles_cons. auto. }
    assert (Hqf : valid st q /\ pr st q = hole_parent st C /\ rep_ctx st C q).
    { destruct sd; simpl in Hctx; tauto. }
    destruct Hqf as (Hv & Hp & HC).
    apply NoDup_ctx_handles_cons in Hnd as (Hqs & HqC & Hnds & HndC & Hdisj).
    simpl hole_parent. simpl add_up.
    wp_step PO. destruct (N.eqb_spec q (root st)) as [|_]; [contradiction|].
    wp_step PO; [exact Hok|exact Hv|].
    apply wp_bind. apply (wp_NVAddM PO); auto.
    { rewrite Hw. apply length_node_sum; assumption. }
    { apply in_range_node_sum, Hr. }
    intros Hr1.
    assert (Hl1 : length (vplus (node_sum st q) w) = nv_per_node).
    { apply length_vplus_eq; [apply length_node_sum; assumption|exact Hw]. }
    wp_step PO; [exact Hok|exact Hv|exact Hl1|].
    wp_step PO; [exact Hv|].
    change (pr (set_sum st q (vplus (node_sum st q) w)) q) with (pr st q). rewrite Hp.
    set (st1 := set_sum st q (vplus (node_sum st q) w)).
    assert (Hok1 : nv_ok st1) by (apply nv_ok_set_sum; assumption).
    eapply wp_post.
    { apply (IH st1 q fuel); auto.
      - eapply rep_ctx_frame; [| | | | |exact HC]; auto.
      - intros Hin. apply Hrf. apply ctx_handles_cons. auto.
      - apply in_range_set_sum; auto.
      - lia. }
    cbv beta. intros _ st' (Hsn & Hok' & Hr' & Hsum).
    split; [eapply same_nodes_trans; [apply same_nodes_set_sum|exact Hsn]|].
    split; [exact Hok'|]. split; [exact Hr'|].
    intros z Hz. rewrite Hsum by exact Hz.
    unfold st1. rewrite node_sum_set_sum by assumption.
    simpl path_nodes.
    destruct (decide (z = q)) as [->|Hzq].
    + rewrite decide_False by (intros Hin; apply HqC, path_nodes_handles, Hin).
      rewrite decide_True by (left; reflexivity). reflexivity.
    + destruct (decide (z ∈ path_nodes C)) as [Hin|Hin].
      * rewrite decide_True by (right; exact Hin). reflexivity.
      * rewrite decide_False; [reflexivity|].
        intros Hin'. apply elem_of_cons in Hin' as [?|?]; contradiction.
Qed.

End AddUp.


(** * Sum queries at the end handle *)

(** C1.  [sum_before(k) = sum_before_node(lower_bound(k))] holds by the
    definition of [get_sum], but [sum_before_node(end)] is not the total
    sum: [get_sum_node] calls [get_norm_fv] for the end handle and then
    falls through to [get_sum_fv_node], which zeroes the result and returns
    at once for [nil].  In every state the answer for the end handle is
    therefore the zero vector; in the multiset of ranks with keys
    1, 2, 1000, 1234, [get_sum(5000)] is 0 although [lower_bound(5000)] is
    [nil] and the total sum is 4. *)
Theorem C1_sum_before_end_is_zero `{P : OrbParams} (t : orbtree) :
  get_sum_node (nil t) t =
    match get_norm_fv t with Ok _ => Ok (vzero nv_per_node) | Err e => Err e end
  /\ (forall k, get_sum k t = (it ← lower_bound k; get_sum_node it) t)
  /\ (let t := filled (P := rank_multiset) (map entry [1; 2; 1000; 1234]%Z) in
      then_ t (lower_bound (P := rank_multiset) 5000%Z) = then_ t (fun t => Ok (nil t))
      /\ then_ t (get_sum (P := rank_multiset) 5000%Z) = Ok [0%Z]
      /\ then_ t (get_norm (P := rank_multiset)) = Ok [4%Z]).
Proof.
  split; [|split; [reflexivity|vm_compute; auto]].
  unfold get_sum_node, mbind, R_bind, node_nil. rewrite N.eqb_refl.
  destruct (get_norm_fv t); [|reflexivity].
  unfold get_sum_fv_node. rewrite N.eqb_refl, orb_true_r. reflexivity.
Qed.

(** * Compaction *)

(** C4.  Ten keys are inserted into a compact multiset (handles 2..11) and
    the five entries with handles 2..6 are erased; the remaining entries
    iterate in order and [size()] is 5.  [shrink_to_fit] then moves the last
    node into the deleted slot at the head of the list four times; in the
    fifth round the list has one element, [deleted_nodes_head] becomes
    [Invalid] and [nodes[deleted_nodes_head].set_right(Invalid)] indexes the
    node vector at [Invalid]: out of bounds. *)
Theorem C4_shrink_to_fit_out_of_bounds :
  let t := then_ (filled (P := rank_multiset) (map entry [1;2;3;4;5;6;7;8;9;10]%Z))
                 (erase_all (P := rank_multiset) [2;3;4;5;6]%N) in
  then_ t (entries_in_order (P := rank_multiset)) = Ok (map entry [6;7;8;9;10]%Z)
  /\ then_ t (size (P := rank_multiset)) = Ok 5%N
  /\ then_ t (fun t => Ok (length (nodes t), deleted_nodes_head t)) = Ok (12%nat, 6%N)
  /\ then_ t (exec (shrink_to_fit (P := rank_multiset))) = Err OutOfBounds.
Proof. vm_compute. auto. Qed.

(** * Length of the vector of sums *)

Lemma clear_tree_lengths `{P : OrbParams} (t : orbtree) :
  exists t', clear_tree t = Ok (tt, t')
    /\ length (nodes t') = 2%nat /\ length (nvarray t') = 2%nat.
Proof.
  unfold clear_tree, resize_nodes, resize_nvarray, modify, put_node, mbind, M_bind.
  st_simpl. unfold in_bounds. rewrite length_resize. simpl.
  rewrite length_insert, length_resize. simpl.
  eexists. split; [reflexivity|]. st_simpl.
  rewrite !length_insert, !length_resize. split; reflexivity.
Qed.

(** C7.  [clear_tree] always succeeds and leaves two nodes and two sums,
    whatever [nv_per_node] is ([nvarray.resize(2)]): with a weight function
    of two components the vector of sums has length 2 and not 2 * 2. *)
Theorem C7_clear_tree_sums_length `{P : OrbParams} (t : orbtree) :
  exists t', clear_tree t = Ok (tt, t')
    /\ length (nodes t') = 2%nat /\ length (nvarray t') = 2%nat
    /\ (nv_per_node <> 1%nat ->
        length (nvarray t') <> (length (nodes t') * nv_per_node)%nat)
    /\ then_ (then_ (filled (P := pair_multiset) (map entry [1; 2; 3]%Z))
                    (exec (clear_tree (P := pair_multiset))))
             (fun t => Ok (length (nodes t), length (nvarray t),
                           nv_per_node (OrbParams := pair_multiset)))
       = Ok (2%nat, 2%nat, 2%nat).
Proof.
  destruct (clear_tree_lengths t) as (t' & H & Hn & Hv).
  exists t'. split; [exact H|]. split; [exact Hn|]. split; [exact Hv|].
  split; [rewrite Hn, Hv; lia|].
  vm_compute. reflexivity.
Qed.


(** * Overflow checks of the weight arithmetic *)

(** C5.  For an integral weight type, [NVAdd] and [NVSubtract] on two
    vectors of values of the type return the exact componentwise sum
    (difference) when every component of it is representable, and raise
    [Arithmetic] otherwise: nothing wraps.  These are the only additions and
    subtractions of the sum propagation ([add_up], [subtract_up],
    [update_sum], [get_sum_up]).  With unsigned 32-bit weights [w(k) = k] in
    a container that admits equal keys, the first insertion of [2^31]
    succeeds and the second raises [Arithmetic] while the sums are
    propagated. *)
Theorem C5_checked_weight_arithmetic (k : int_kind) (x y : list Z) :
  (0 < ik_bits k)%N -> length x = length y ->
  Forall (in_range k) x -> Forall (in_range k) y ->
  NVAdd k x y =
    (if forallb (in_rangeb k) (vplus x y) then Ok (vplus x y) else Err Arithmetic)
  /\ NVSubtract k x y =
    (if forallb (in_rangeb k) (vminus x y) then Ok (vminus x y) else Err Arithmetic)
  /\ (let t := filled (P := keysum_multiset) [entry (2 ^ 31)] in
      is_ok t = true
      /\ then_ t (get_norm (P := keysum_multiset)) = Ok [(2 ^ 31)%Z]
      /\ then_ t (insert (P := keysum_multiset) (entry (2 ^ 31))) = Err Arithmetic).
Proof.
  intros Hb Hlen Hx Hy. split; [|split].
  - apply NVAdd_spec; assumption.
  - apply NVSubtract_spec; assumption.
  - vm_compute. auto.
Qed.

Lemma C5_witness :
  NVAdd uint32 [(2 ^ 31)%Z] [(2 ^ 31)%Z] = Err Arithmetic
  /\ NVAdd uint32 [(2 ^ 31)%Z] [(2 ^ 31 - 1)%Z] = Ok [(2 ^ 32 - 1)%Z]
  /\ NVSubtract int32 [(- 2 ^ 31)%Z] [1%Z] = Err Arithmetic.
Proof.
  assert (R1 : Forall (in_range uint32) [(2 ^ 31)%Z]).
  { constructor; [apply in_rangeb_spec; reflexivity|constructor]. }
  assert (R2 : Forall (in_range uint32) [(2 ^ 31 - 1)%Z]).
  { constructor; [apply in_rangeb_spec; reflexivity|constructor]. }
  assert (R3 : Forall (in_range int32) [(- 2 ^ 31)%Z]).
  { constructor; [apply in_rangeb_spec; reflexivity|constructor]. }
  assert (R4 : Forall (in_range int32) [1%Z]).
  { constructor; [apply in_rangeb_spec; reflexivity|constructor]. }
  split; [|split].
  - rewrite (proj1 (C5_checked_weight_arithmetic uint32 [(2 ^ 31)%Z] [(2 ^ 31)%Z] eq_refl eq_refl R1 R1)).
    reflexivity.
  - rewrite (proj1 (C5_checked_weight_arithmetic uint32 [(2 ^ 31)%Z] [(2 ^ 31 - 1)%Z] eq_refl eq_refl R1 R2)).
    reflexivity.
  - rewrite (proj1 (proj2 (C5_checked_weight_arithmetic int32 [(- 2 ^ 31)%Z] [1%Z] eq_refl eq_refl R3 R4))).
    reflexivity.
Defined.

(** In a container with unique keys the second [insert] of a key is refused
    before any sum is touched. *)
Lemma unique_second_insert_refused :
  let t := filled (P := keysum_set) [entry (2 ^ 31)] in
  then_ t (insert (P := keysum_set) (entry (2 ^ 31)))
  = then_ t (fun t => Ok ((2%N, false), t)).
Proof. vm_compute. reflexivity. Qed.

(** * Capacity of the compact allocator *)

Section Capacity.
Context `{P : OrbParams}.
Local Open Scope N_scope.

Lemma max_nodes_lt_pow2 : 0 < digits -> max_nodes < 2 ^ digits.
Proof.
  intros Hd. pose proof (max_nodes_lt_redbit Hd). rewrite redbit_eq in H.
  assert (2 ^ (digits - 1) <= 2 ^ digits) by (apply N.pow_le_mono_r; lia).
  lia.
Qed.

(** C8 (amended).  The node vector never has more than
    [max_nodes = 2^(digits-1) - 1] slots, the two sentinels included, because
    the index [max_nodes] itself is the invalid handle: [new_node] raises the
    capacity error exactly when no deleted node can be reused and the vector
    has [max_nodes] slots, and a successful [new_node] keeps the vector
    within [max_nodes] slots.  With a 32-bit index type [max_nodes] is
    [2^31 - 1], so that at most [2^31 - 3] entries can be stored. *)
Theorem C8_capacity_limit (t : orbtree) (e : KeyValue) :
  0 < digits -> N.of_nat (length (nodes t)) <= max_nodes ->
  (new_node e t = Err Capacity <->
     deleted_nodes_head t = Invalid /\ N.of_nat (length (nodes t)) = max_nodes)
  /\ (forall n t', new_node e t = Ok (n, t') ->
        N.of_nat (length (nodes t')) <= max_nodes)
  /\ (digits = 32 -> max_nodes = 2 ^ 31 - 1 /\ max_entries = 2 ^ 31 - 3).
Proof.
  intros Hd Hlen. pose proof (max_nodes_lt_pow2 Hd) as Hm.
  split; [|split].
  - apply new_node_capacity. lia.
  - intros n t' H.
    destruct (N.eq_dec (deleted_nodes_head t) Invalid) as [Hh|Hh].
    + rewrite (new_node_append _ _ Hh) in H. simpl in H.
      unfold index_t in H at 1. rewrite N.mod_small in H by lia.
      destruct (N.eqb_spec (N.of_nat (length (nodes t))) max_nodes) as [|Hne];
        [discriminate|].
      inversion H; subst. st_simpl. rewrite length_app. simpl. lia.
    + apply new_node_reuse in H as (_ & _ & _ & ->); assumption.
  - intros Hd32. unfold max_entries, max_nodes, redbit. rewrite Hd32. split; reflexivity.
Qed.

End Capacity.

Lemma C8_witness :
  (new_node (P := rank_multiset) (entry 7) full_vector_state = Err Capacity <->
     deleted_nodes_head full_vector_state = Invalid (P := rank_multiset)
     /\ N.of_nat (length (nodes full_vector_state)) = max_nodes (P := rank_multiset))
  /\ max_entries (P := rank_multiset) = (2 ^ 31 - 3)%N.
Proof.
  assert (Hd : (0 < digits (OrbParams := rank_multiset))%N) by reflexivity.
  assert (Hl : (N.of_nat (length (nodes full_vector_state))
                <= max_nodes (P := rank_multiset))%N).
  { unfold full_vector_state. cbn [nodes]. rewrite length_replicate, N2Nat.id.
    apply N.le_refl. }
  destruct (C8_capacity_limit (P := rank_multiset) full_vector_state (entry 7) Hd Hl)
    as (H1 & _ & H3).
  split; [exact H1|]. apply H3. reflexivity.
Defined.

(** A tree that holds [2^31 - 3] entries cannot take another one: the claim
    that [2^31 - 2] entries can be stored fails. *)
Lemma C8_counterexample :
  size1 full_vector_state = (2 ^ 31 - 3)%N
  /\ N.of_nat (length (nodes full_vector_state)) = (2 ^ 31 - 3 + 2)%N
  /\ new_node (P := rank_multiset) (entry 7) full_vector_state = Err Capacity.
Proof.
  split; [reflexivity|]. split.
  - unfold full_vector_state. cbn [nodes]. rewrite length_replicate, N2Nat.id. reflexivity.
  - apply new_node_capacity.
    + unfold full_vector_state. cbn [nodes]. rewrite length_replicate, N2Nat.id. reflexivity.
    + split; [reflexivity|].
      unfold full_vector_state. cbn [nodes]. rewrite length_replicate, N2Nat.id. reflexivity.
Qed.


(** * Growth of a realloc vector *)

Section Growth.
Import ReallocVec.
Context {T : Type}.
Variable sizeof_T : N.
Local Open Scope N_scope.

Lemma p_max_capacity_lt : p_max_capacity sizeof_T < 2 ^ 64.
Proof.
  unfold p_max_capacity, size_max.
  destruct (N.eq_dec sizeof_T 0) as [->|Hs]; [reflexivity|].
  pose proof (N.Div0.div_le_upper_bound (2 ^ 64 - 1) sizeof_T (2 ^ 64 - 1)).
  assert (2 ^ 64 - 1 <= sizeof_T * (2 ^ 64 - 1)) by nia.
  assert ((2 ^ 64 - 1) / sizeof_T <= 2 ^ 64 - 1) by auto.
  assert (0 < 2 ^ 64) by reflexivity. lia.
Qed.

Lemma sub64_small a b : b <= a -> a < 2 ^ 64 -> sub64 a b = a - b.
Proof.
  intros Hb Ha. unfold sub64.
  rewrite (N.mod_small b) by lia.
  replace (a + 2 ^ 64 - b) with (a - b + 1 * 2 ^ 64) by lia.
  rewrite N.Div0.mod_add. apply N.mod_small. lia.
Qed.

Lemma add64_small a b : a + b < 2 ^ 64 -> add64 a b = a + b.
Proof. intros H. unfold add64. apply N.mod_small, H. Qed.

(** The increment chosen by [grow_vector] for a push. *)
Lemma grow_vector_capacity ok (v v' : vector T) :
  p_capacity v <= p_max_capacity sizeof_T ->
  grow_vector sizeof_T ok 0 v = (true, v') ->
  p_capacity v' =
    p_capacity v +
    N.min (N.min (N.max (p_capacity v) 1) (max_grow v))
          (p_max_capacity sizeof_T - p_capacity v)
  /\ p_size v' = p_size v.
Proof.
  intros Hc. pose proof p_max_capacity_lt as Hm.
  unfold grow_vector.
  destruct (N.ltb_spec (p_max_capacity sizeof_T) 0) as [?|_]; [lia|].
  set (g1 := if p_capacity v =? 0 then 1 else p_capacity v).
  assert (Hg1 : g1 = N.max (p_capacity v) 1).
  { unfold g1. destruct (N.eqb_spec (p_capacity v) 0); lia. }
  set (g2 := if max_grow v <? g1 then max_grow v else g1).
  assert (Hg2 : g2 = N.min g1 (max_grow v)).
  { unfold g2. destruct (N.ltb_spec (max_grow v) g1); lia. }
  set (g3 := if p_max_capacity sizeof_T <? g2 then p_max_capacity sizeof_T else g2).
  assert (Hg3 : g3 = N.min g2 (p_max_capacity sizeof_T)).
  { unfold g3. destruct (N.ltb_spec (p_max_capacity sizeof_T) g2); lia. }
  assert (Hs1 : sub64 (p_max_capacity sizeof_T) g3 = p_max_capacity sizeof_T - g3)
    by (apply sub64_small; lia).
  assert (Hs2 : sub64 (p_max_capacity sizeof_T) (p_capacity v)
                = p_max_capacity sizeof_T - p_capacity v)
    by (apply sub64_small; lia).
  rewrite Hs1, Hs2.
  set (g4 := if p_max_capacity sizeof_T - g3 <? p_capacity v
             then p_max_capacity sizeof_T - p_capacity v else g3).
  assert (Hg4 : g4 = N.min g2 (p_max_capacity sizeof_T - p_capacity v)).
  { unfold g4. destruct (N.ltb_spec (p_max_capacity sizeof_T - g3) (p_capacity v)); lia. }
  destruct (g4 =? 0); [discriminate|].
  rewrite add64_small by lia.
  destruct (N.ltb_spec (p_capacity v + g4) 0) as [?|_]; [lia|].
  unfold change_size. destruct ok; [|discriminate].
  intros H. inversion H; subst; simpl. split; [|reflexivity]. lia.
Qed.

(** A buffer of fewer than [2^63] bytes stays below [p_max_capacity] after
    its capacity is doubled. *)
Lemma double_fits (c g : N) :
  0 < sizeof_T < 2 ^ 64 -> c * sizeof_T < 2 ^ 63 -> g <= N.max c 1 ->
  c + g <= p_max_capacity sizeof_T.
Proof.
  intros [Hs0 Hs1] Hb Hg. unfold p_max_capacity, size_max.
  apply N.div_le_lower_bound; [lia|].
  assert (H63 : 2 ^ 64 = 2 * 2 ^ 63) by reflexivity.
  destruct (N.eq_dec c 0) as [->|Hc].
  - assert (g <= 1) by lia. nia.
  - assert (g <= c) by lia. nia.
Qed.

(** C9.  The buffers that [realloc] hands out hold fewer than [2^63] bytes
    ([PTRDIFF_MAX]), and [sizeof(T)] is a positive [size_t].  On such a
    vector whose size equals its capacity [C], a successful push grows the
    capacity to [C + min(max(C, 1), max_grow)]: the capacity is doubled, the
    increment capped at [max_grow] elements.  The pushed element is stored at
    the old end.  A push into spare capacity
    succeeds whatever [realloc] would do and leaves the capacity
    unchanged. *)
Theorem C9_push_growth (ok : bool) (x : T) (v v' : vector T) :
  0 < sizeof_T < 2 ^ 64 ->
  p_capacity v * sizeof_T < 2 ^ 63 ->
  push_back_nothrow sizeof_T ok x v = (true, v') ->
  (p_size v = p_capacity v ->
     p_capacity v' = p_capacity v + N.min (N.max (p_capacity v) 1) (max_grow v))
  /\ (p_size v <> p_capacity v -> p_capacity v' = p_capacity v)
  /\ (p_size v <> p_capacity v ->
      forall ok', fst (push_back_nothrow sizeof_T ok' x v) = true)
  /\ start v' (p_size v) = Some x.
Proof.
  intros Hs Hb H. unfold push_back_nothrow in H.
  assert (Hc : p_capacity v <= p_max_capacity sizeof_T).
  { pose proof (double_fits (p_capacity v) 0 Hs Hb). lia. }
  destruct (N.eqb_spec (p_size v) (p_capacity v)) as [E|E].
  - destruct (grow_vector sizeof_T ok 0 v) as [b v1] eqn:G.
    destruct b; [|discriminate].
    apply grow_vector_capacity in G as [G Gs]; [|assumption].
    pose proof (double_fits (p_capacity v)
                  (N.min (N.max (p_capacity v) 1) (max_grow v)) Hs Hb).
    inversion H; subst; simpl.
    split; [intros _; rewrite G; lia|].
    split; [intros; contradiction|].
    split; [intros; contradiction|].
    rewrite Gs, N.eqb_refl. reflexivity.
  - inversion H; subst; simpl.
    split; [intros; contradiction|].
    split; [reflexivity|].
    split.
    + intros _ ok'. unfold push_back_nothrow.
      destruct (N.eqb_spec (p_size v) (p_capacity v)); [contradiction|reflexivity].
    + rewrite N.eqb_refl. reflexivity.
Qed.

End Growth.

Lemma C9_witness :
  ReallocVec.p_capacity (snd (ReallocVec.push_back_nothrow 4 true 5%Z small_vector))
  = (8 + N.min (N.max 8 1) 131072)%N.
Proof.
  assert (Hs : (0 < 4 < 2 ^ 64)%N) by (split; reflexivity).
  assert (Hb : (ReallocVec.p_capacity small_vector * 4 < 2 ^ 63)%N) by reflexivity.
  assert (Hp : ReallocVec.push_back_nothrow 4 true 5%Z small_vector
               = (true, snd (ReallocVec.push_back_nothrow 4 true 5%Z small_vector)))
    by reflexivity.
  exact (proj1 (C9_push_growth 4 true 5%Z small_vector _ Hs Hb Hp) eq_refl).
Defined.


(** * Reuse of freed slots *)

Section Reuse.
Context `{P : OrbParams}.
Hypothesis PO : params_ok.
Local Open Scope N_scope.

(** [erase] ends with [free_node(n)]: the erased handle is the head of the
    list of deleted nodes afterwards. *)
Lemma erase_head t n x t1 :
  erase n t = Ok (x, t1) -> deleted_nodes_head t1 = n.
Proof.
  intros H. unfold erase in H.
  do 15 (apply M_bind_inv in H; destruct H as (? & ? & _ & H)).
  apply M_bind_inv in H. destruct H as ([] & s & E & H).
  apply free_node_ok in E as (_ & Eh & _).
  pinv_all; st_simpl; congruence.
Qed.

(** A successful [insert] that adds an entry returns the handle obtained
    from [new_node]. *)
Lemma insert_new_handle t e r t2 :
  insert e t = Ok (r, t2) -> snd r = true ->
  exists t', new_node e t = Ok (fst r, t').
Proof.
  intros H Hr. unfold insert in H.
  apply M_bind_inv in H. destruct H as ([[ok n0] il] & s & E & H).
  apply liftR_inv in E as [_ ->].
  destruct ok; simpl in H.
  - apply M_bind_inv in H. destruct H as (n1 & s1 & E1 & H).
    exists s1.
    do 4 (apply M_bind_inv in H; destruct H as (? & ? & _ & H)).
    apply M_ret_inv in H. inversion H; subst. exact E1.
  - apply M_bind_inv in H. destruct H as (? & ? & _ & H).
    apply M_ret_inv in H. inversion H; subst. discriminate.
Qed.


End Reuse.


